(** * MultiversX governance dashboard: decode-and-aggregate core

    A shallow embedding of the pure core of the dashboard component, in
    its two source variants (the dashboard that records [vote] events per
    address and counts delegations, and
    [multivers_x_governance_dashboard_react.jsx], which adds [vote] events
    to the totals only and ranks by stake before power):

    - the hex utilities [hexToAscii], [hexToBigInt];
    - the bech32 encoder [bech32Polymod], [bech32HrpExpand],
      [bech32CreateChecksum], [bech32Encode], [convertBits],
      [hexToBech32Erd];
    - [decodeOption];
    - the aggregation loop of [stats] and [topPerCategory];
    - the amount formatter [formatEgld] with [bigThousands];
    - the request cache, [postJsonCached] in the dashboard and the
      handler of the cache server, with the clock and the network as
      inputs.

    JavaScript strings are sequences of UTF-16 code units, the numbers
    that reach the bit operators are integers or [NaN], and the bit
    operators work on 32-bit two's complement integers; all of this is
    written out below.  BigInt values are integers of [Z].  The one
    thing the code's results depend on in the engine, the largest number
    of arguments of a call, is a parameter of the model ([Engine]). *)

From Stdlib Require Import ZArith List Lia Bool String Ascii Btauto.
From Stdlib Require Import Permutation Sorting.Sorted.
Import ListNotations.
Local Open Scope Z_scope.

(* ================================================================== *)
(** ** JavaScript values *)

(** A string is the list of its UTF-16 code units. *)
Definition jsstring := list Z.

(** String literals of the source (all of them ASCII). *)
Definition lit (s : string) : jsstring :=
  map (fun c => Z.of_N (N_of_ascii c)) (list_ascii_of_string s).

(** The numbers produced by [parseInt]: an integer or [NaN]
    ([-0] behaves as [0] in every operation used here). *)
Inductive number : Type :=
| NaN
| Int (z : Z).

(** Outcome of a JavaScript computation: a value, a thrown exception, or
    a loop that never exits. *)
Inductive res (A : Type) : Type :=
| Ret (a : A)
| Throw
| Diverge.
Arguments Ret {A} a.
Arguments Throw {A}.
Arguments Diverge {A}.

Definition bind {A B : Type} (m : res A) (k : A -> res B) : res B :=
  match m with
  | Ret a => k a
  | Throw => Throw
  | Diverge => Diverge
  end.

Notation "x <- m ;; k" := (bind m (fun x => k))
  (at level 61, m at next level, right associativity).

(** [try { body } catch { return handler }]. *)
Definition try_catch {A : Type} (body : res A) (handler : A) : res A :=
  match body with
  | Throw => Ret handler
  | r => r
  end.

(** [!hex] for an optional string: true on [undefined] and on [""]. *)
Definition falsy (hex : option jsstring) : bool :=
  match hex with
  | None => true
  | Some [] => true
  | Some _ => false
  end.

(** [a ?? b]. *)
Definition nullish {A : Type} (a : option A) (b : A) : A :=
  match a with
  | Some x => x
  | None => b
  end.

(** The engine the code runs on, as far as the code depends on it: the
    largest number of arguments it passes in one call.  Spreading a
    longer array into a call, [f(...bytes)], throws a RangeError. *)
Class Engine : Type := { argumentsLimit : Z }.

(* ------------------------------------------------------------------ *)
(** *** 32-bit integer operators *)

Module Int32.

(** [ToInt32] on an integer. *)
Definition wrap (z : Z) : Z := (z + 2 ^ 31) mod 2 ^ 32 - 2 ^ 31.

(** [x << n] *)
Definition shl (x n : Z) : Z := wrap (Z.shiftl (wrap x) (n mod 32)).
(** [x >> n] *)
Definition sar (x n : Z) : Z := Z.shiftr (wrap x) (n mod 32).
(** [x & y] *)
Definition and (x y : Z) : Z := Z.land (wrap x) (wrap y).
(** [x | y] *)
Definition or (x y : Z) : Z := Z.lor (wrap x) (wrap y).
(** [x ^ y] *)
Definition xor (x y : Z) : Z := Z.lxor (wrap x) (wrap y).

End Int32.

(** The integer a number contributes to a bit operator, before the
    operator wraps it to 32 bits: [NaN] counts as [0]. *)
Definition intOf (v : number) : Z :=
  match v with
  | NaN => 0
  | Int z => z
  end.

(** [value < 0]; false on [NaN]. *)
Definition ltZero (v : number) : bool :=
  match v with
  | NaN => false
  | Int z => z <? 0
  end.

(** [ToUint16], the conversion applied by [String.fromCharCode]. *)
Definition ToUint16 (v : number) : Z :=
  match v with
  | NaN => 0
  | Int z => z mod 65536
  end.

(* ------------------------------------------------------------------ *)
(** *** Character classes *)

(** LineTerminator: the code units that [.] of a regular expression
    (without the [s] flag) does not match. *)
Definition isLineTerminator (c : Z) : bool :=
  (c =? 10) || (c =? 13) || (c =? 8232) || (c =? 8233).

(** WhiteSpace (TAB, VT, FF, SP, NBSP, ZWNBSP and the space separators). *)
Definition isWhiteSpace (c : Z) : bool :=
  (c =? 9) || (c =? 11) || (c =? 12) || (c =? 32) || (c =? 160)
  || (c =? 5760) || ((8192 <=? c) && (c <=? 8202))
  || (c =? 8239) || (c =? 8287) || (c =? 12288) || (c =? 65279).

(** StrWhiteSpaceChar: what [parseInt] and [BigInt] trim. *)
Definition isStrWhiteSpaceChar (c : Z) : bool :=
  isWhiteSpace c || isLineTerminator c.

(** Value of a hexadecimal digit, in either letter case. *)
Definition hexDigit (c : Z) : option Z :=
  if (48 <=? c) && (c <=? 57) then Some (c - 48)
  else if (97 <=? c) && (c <=? 102) then Some (c - 87)
  else if (65 <=? c) && (c <=? 70) then Some (c - 55)
  else None.

Definition isHexDigit (c : Z) : bool :=
  match hexDigit c with
  | Some _ => true
  | None => false
  end.

(** Drop the longest prefix whose members satisfy [p]. *)
Fixpoint dropWhile {A : Type} (p : A -> bool) (l : list A) : list A :=
  match l with
  | [] => []
  | x :: l' => if p x then dropWhile p l' else l
  end.

(** Longest prefix of hexadecimal digits, as digit values. *)
Fixpoint hexPrefix (s : jsstring) : list Z :=
  match s with
  | [] => []
  | c :: s' =>
      match hexDigit c with
      | Some d => d :: hexPrefix s'
      | None => []
      end
  end.

(** Base-16 value of a list of digit values, most significant first. *)
Definition hexValue (ds : list Z) : Z :=
  fold_left (fun a d => 16 * a + d) ds 0.

(* ================================================================== *)
(** ** HexCodec *)

(** [parseInt(s, 16)]: leading white space is trimmed, a sign is read, a
    [0x]/[0X] prefix is skipped, and the longest prefix of hexadecimal
    digits is the value; no digit gives [NaN].  (The value is exact up to
    [2^53]; the chunks parsed here have at most two characters.) *)
Definition parseInt16 (s : jsstring) : number :=
  let s1 := dropWhile isStrWhiteSpaceChar s in
  let sign := match s1 with
              | 45 :: _ => -1
              | _ => 1
              end in
  let s2 := match s1 with
            | c :: r => if (c =? 43) || (c =? 45) then r else s1
            | [] => s1
            end in
  let s3 := match s2 with
            | 48 :: x :: r => if (x =? 120) || (x =? 88) then r else s2
            | _ => s2
            end in
  match hexPrefix s3 with
  | [] => NaN
  | ds => Int (sign * hexValue ds)
  end.

(** [hex.match(/.{1,2}/g)]: the successive greedy matches of one or two
    code units other than line terminators ([null], here the empty list,
    when there is none). *)
Fixpoint matchPairs (hex : jsstring) : list jsstring :=
  match hex with
  | [] => []
  | c :: rest =>
      if isLineTerminator c then matchPairs rest
      else
        match rest with
        | [] => [[c]]
        | d :: rest' =>
            if isLineTerminator d then [c] :: matchPairs rest'
            else [c; d] :: matchPairs rest'
        end
  end.

(** The byte-decoding expression shared by [hexToAscii] and
    [hexToBech32Erd]:
    [hex.match(/.{1,2}/g)?.map((b) => parseInt(b, 16)) ?? []]. *)
Definition hexBytes (hex : jsstring) : list number :=
  map parseInt16 (matchPairs hex).

(** [String.fromCharCode(...bytes)]. *)
Definition fromCharCode (bytes : list number) : jsstring :=
  map ToUint16 bytes.

(** [s.replace(/\u0000+$/g, '')]: the trailing run of NUL code units is
    removed. *)
Fixpoint stripTrailingNul (s : jsstring) : jsstring :=
  match s with
  | [] => []
  | c :: s' =>
      match stripTrailingNul s' with
      | [] => if c =? 0 then [] else [c]
      | r => c :: r
      end
  end.

(** [hexToAscii].  The spread [String.fromCharCode(...bytes)] throws a
    RangeError when there are more bytes than the engine passes as
    arguments, and the [catch] then returns [''].  Nothing else inside
    the [try] throws. *)
Definition hexToAscii {engine : Engine} (hex : option jsstring)
  : jsstring :=
  match hex with
  | None => []
  | Some h =>
      if falsy hex then []
      else
        let bytes := hexBytes h in
        if argumentsLimit <? Z.of_nat (List.length bytes) then []
        else stripTrailingNul (fromCharCode bytes)
  end.

(** [BigInt('0x' + h)]: white space at the end is trimmed; what is left
    after [0x] must be one or more hexadecimal digits, otherwise a
    SyntaxError is thrown ([None]). *)
Definition BigInt0x (h : jsstring) : option Z :=
  let body := rev (dropWhile isStrWhiteSpaceChar (rev h)) in
  match body with
  | [] => None
  | _ => if forallb isHexDigit body then Some (hexValue (hexPrefix body))
         else None
  end.

(** [hexToBigInt]. *)
Definition hexToBigInt (hex : option jsstring) : Z :=
  match hex with
  | None => 0
  | Some s =>
      if falsy hex then 0
      else
        let h := if Z.odd (Z.of_nat (List.length s)) then 48 :: s else s in
        match BigInt0x h with
        | Some v => v
        | None => 0
        end
  end.

(* ================================================================== *)
(** ** Bech32Codec *)

Definition GENERATORS : list Z :=
  [0x3b6a57b2; 0x26508e6d; 0x1ea119fa; 0x3d4233dd; 0x2a1462b3].

(** One turn of the outer loop of [bech32Polymod]. *)
Definition polymodStep (chk v : Z) : Z :=
  let b := Int32.sar chk 25 in
  let chk := Int32.xor (Int32.shl (Int32.and chk 0x1ffffff) 5) v in
  fold_left
    (fun chk i =>
       if negb (Int32.and (Int32.sar b i) 1 =? 0)
       then Int32.xor chk (nth (Z.to_nat i) GENERATORS 0)
       else chk)
    [0; 1; 2; 3; 4] chk.

Definition bech32Polymod (values : list Z) : Z :=
  fold_left polymodStep values 1.

Definition bech32HrpExpand (hrp : jsstring) : list Z :=
  map (fun c => Int32.sar c 5) hrp ++ [0] ++ map (fun c => Int32.and c 31) hrp.

Definition bech32CreateChecksum (hrp : jsstring) (data : list Z) : list Z :=
  let values := bech32HrpExpand hrp ++ data ++ [0; 0; 0; 0; 0; 0] in
  let mod_ := Int32.xor (bech32Polymod values) 1 in
  map (fun p => Int32.and (Int32.sar mod_ (5 * (5 - p))) 31) [0; 1; 2; 3; 4; 5].

Definition BECH32_ALPHABET : jsstring := lit "qpzry9x8gf2tvdw0s3jn54khce6mua7l".

(** [BECH32_ALPHABET[d]] appended to a string: the character at index [d],
    or the text of [undefined] when [d] is not an index. *)
Definition alphabetAt (d : Z) : jsstring :=
  if (0 <=? d) && (d <? 32) then [nth (Z.to_nat d) BECH32_ALPHABET 0]
  else lit "undefined".

(** [bech32Encode]; [data] is [null] when [convertBits] failed, and then
    [data.concat] throws a TypeError. *)
Definition bech32Encode (hrp : jsstring) (data : option (list Z))
  : res jsstring :=
  match data with
  | None => Throw
  | Some d =>
      let combined := d ++ bech32CreateChecksum hrp d in
      Ret (fold_left (fun out x => out ++ alphabetAt x) combined
             (hrp ++ lit "1"))
  end.

(** The inner [while (bits >= to)] loop of [convertBits]; [None] when the
    fuel is used up. *)
Fixpoint emitLoop (fuel : nat) (acc bits to maxv : Z) (ret : list Z)
  : option (Z * list Z) :=
  if bits >=? to then
    match fuel with
    | O => None
    | S fuel' =>
        let bits := bits - to in
        emitLoop fuel' acc bits to maxv
          (ret ++ [Int32.and (Int32.sar acc bits) maxv])
    end
  else Some (bits, ret).

(** The [for (const value of data)] loop of [convertBits]: [Ret None] is
    the early [return null].  The inner loop gets [bits] units of fuel:
    with [to >= 1] each turn lowers [bits] by at least one, and with
    [to <= 0] a loop that is entered never exits. *)
Fixpoint convertLoop (data : list number) (from to maxv acc bits : Z)
  (ret : list Z) : res (option (Z * Z * list Z)) :=
  match data with
  | [] => Ret (Some (acc, bits, ret))
  | value :: data' =>
      if ltZero value || negb (Int32.sar (intOf value) from =? 0)
      then Ret None
      else
        let acc := Int32.or (Int32.shl acc from) (intOf value) in
        let bits := bits + from in
        match emitLoop (Z.to_nat bits) acc bits to maxv ret with
        | None => Diverge
        | Some (bits, ret) => convertLoop data' from to maxv acc bits ret
        end
  end.

(** [convertBits]; [Ret None] is [null]. *)
Definition convertBits (data : list number) (from to : Z) (pad : bool)
  : res (option (list Z)) :=
  let maxv := Int32.shl 1 to - 1 in
  st <- convertLoop data from to maxv 0 0 [] ;;
  match st with
  | None => Ret None
  | Some (acc, bits, ret) =>
      if pad then
        if negb (bits =? 0)
        then Ret (Some (ret ++ [Int32.and (Int32.shl acc (to - bits)) maxv]))
        else Ret (Some ret)
      else if (bits >=? from)
              || negb (Int32.and (Int32.shl acc (to - bits)) maxv =? 0)
      then Ret None
      else Ret (Some ret)
  end.

(** [hexToBech32Erd]; [Ret None] is [undefined]. *)
Definition hexToBech32Erd (hex32 : option jsstring) : res (option jsstring) :=
  match hex32 with
  | None => Ret None
  | Some h =>
      if falsy hex32 then Ret None
      else
        try_catch
          (let bytes := hexBytes h in
           if negb (Nat.eqb (List.length bytes) 32) then Ret None
           else
             five <- convertBits bytes 8 5 true ;;
             out <- bech32Encode (lit "erd") five ;;
             Ret (Some out))
          None
  end.

(* ================================================================== *)
(** ** OptionDecoder *)

Inductive VoteOption : Type := Yes | No | Abstain | Veto | Unknown.

Definition VoteOption_eq_dec : forall a b : VoteOption, {a = b} + {a <> b}.
Proof. decide equality. Defined.

(** [toLowerCase] on one code unit.  The strings lowered here come out of
    [hexToAscii], whose code units are below 256 or (from a negative
    chunk) at least 65521; in that range the upper-case letters are
    [A]-[Z] and the Latin-1 capitals. *)
Definition lowerUnit (c : Z) : Z :=
  if (65 <=? c) && (c <=? 90) then c + 32
  else if (192 <=? c) && (c <=? 222) && negb (c =? 215) then c + 32
  else c.

Definition toLowerCase (s : jsstring) : jsstring := map lowerUnit s.

(** [a === b] on strings. *)
Definition streq (a b : jsstring) : bool :=
  if list_eq_dec Z.eq_dec a b then true else false.

Definition decodeOption {engine : Engine} (hex : option jsstring)
  : VoteOption :=
  let s := toLowerCase (hexToAscii hex) in
  if streq s (lit "yes") then Yes
  else if streq s (lit "no") then No
  else if streq s (lit "abstain") then Abstain
  else if streq s (lit "veto") || streq s (lit "ncv")
          || streq s (lit "veto_power") then Veto
  else Unknown.

(** Hex text of a string of code units below 256, two lower-case digits
    per unit (how the option literals reach the topics). *)
Definition hexDigitChar (d : Z) : Z := if d <? 10 then 48 + d else 87 + d.

Definition hexOf (s : jsstring) : jsstring :=
  flat_map (fun c => [hexDigitChar (c / 16); hexDigitChar (c mod 16)]) s.

Definition zeros64 : jsstring := flat_map (fun _ => lit "00") (seq 0 32).

(* ================================================================== *)
(** ** AggregationEngine *)

(** [hit._source]: the fields the loop reads.  [address] and [topics] may
    be missing. *)
Record Source : Type := {
  identifier : jsstring;
  address : option jsstring;
  topics : option (list jsstring)
}.

(** An object with one property per option, as [byOption] and
    [perCategoryAddresses] are. *)
Record PerOption (A : Type) : Type := {
  yes : A;
  no : A;
  abstain : A;
  veto : A;
  unknown : A
}.
Arguments yes {A} _.
Arguments no {A} _.
Arguments abstain {A} _.
Arguments veto {A} _.
Arguments unknown {A} _.

(** [obj[option]] *)
Definition getOpt {A : Type} (o : VoteOption) (r : PerOption A) : A :=
  match o with
  | Yes => yes r
  | No => no r
  | Abstain => abstain r
  | Veto => veto r
  | Unknown => unknown r
  end.

(** [obj[option] = a] *)
Definition setOpt {A : Type} (o : VoteOption) (a : A) (r : PerOption A)
  : PerOption A :=
  match o with
  | Yes => {| yes := a; no := no r; abstain := abstain r;
              veto := veto r; unknown := unknown r |}
  | No => {| yes := yes r; no := a; abstain := abstain r;
             veto := veto r; unknown := unknown r |}
  | Abstain => {| yes := yes r; no := no r; abstain := a;
                  veto := veto r; unknown := unknown r |}
  | Veto => {| yes := yes r; no := no r; abstain := abstain r;
               veto := a; unknown := unknown r |}
  | Unknown => {| yes := yes r; no := no r; abstain := abstain r;
                  veto := veto r; unknown := a |}
  end.

Definition allOptions : list VoteOption := [Yes; No; Abstain; Veto; Unknown].

(** An entry of [byOption]: [{ option, count, power }]. *)
Record VoteAgg : Type := {
  agg_option : VoteOption;
  agg_count : Z;
  agg_power : Z
}.

(** A value of a per-category map: [{ stake, power, count }]. *)
Record VoterAccumulator : Type := {
  stake : Z;
  power : Z;
  count : Z
}.

(** A JavaScript [Map]: the entries in insertion order.  [set] on a key
    that is present replaces its value in place, on a new key it appends. *)
Section JsMap.
Context {K V : Type}.
Variable eq_dec : forall a b : K, {a = b} + {a <> b}.

Fixpoint Map_get (k : K) (m : list (K * V)) : option V :=
  match m with
  | [] => None
  | (k', v) :: m' => if eq_dec k k' then Some v else Map_get k m'
  end.

Fixpoint Map_set (k : K) (v : V) (m : list (K * V)) : list (K * V) :=
  match m with
  | [] => [(k, v)]
  | (k', v') :: m' =>
      if eq_dec k k' then (k, v) :: m' else (k', v') :: Map_set k v m'
  end.
End JsMap.

(** Keys of the per-category maps: a string, or [undefined] when the
    event carries no address. *)
Definition VoterKey : Type := option jsstring.

Definition VoterKey_eq_dec : forall a b : VoterKey, {a = b} + {a <> b}.
Proof. repeat decide equality. Defined.

(** What [DELEGATION_LABELS[src] ?? 'others'] evaluates to: a string, or,
    for a name found on [Object.prototype], the inherited value (one
    object per name). *)
Inductive Label : Type :=
| Named (s : jsstring)
| Inherited (prop : jsstring).

Definition Label_eq_dec : forall a b : Label, {a = b} + {a <> b}.
Proof. repeat decide equality. Defined.

Definition DELEGATION_LABELS : list (jsstring * jsstring) :=
  [ (lit "erd1qqqqqqqqqqqqqpgqxwakt2g7u9atsnr03gqcgmhcv38pt7mkd94q6shuwt",
     lit "Legacy Delegation");
    (lit "erd1qqqqqqqqqqqqqpgq6uzdzy54wnesfnlaycxwymrn9texlnmyah0ssrfvk6",
     lit "xoxno");
    (lit "erd1qqqqqqqqqqqqqpgq4gzfcw7kmkjy8zsf04ce6dl0auhtzjx078sslvrf4e",
     lit "hatom") ].

(** Property names every object literal inherits. *)
Definition objectPrototypeNames : list jsstring :=
  map lit
    [ "constructor"; "__defineGetter__"; "__defineSetter__";
      "hasOwnProperty"; "__lookupGetter__"; "__lookupSetter__";
      "isPrototypeOf"; "propertyIsEnumerable"; "toString"; "valueOf";
      "__proto__"; "toLocaleString" ]%string.

(** [DELEGATION_LABELS[src] ?? 'others'] *)
Definition delegationLabel (src : jsstring) : Label :=
  match Map_get (list_eq_dec Z.eq_dec) src DELEGATION_LABELS with
  | Some l => Named l
  | None =>
      if existsb (streq src) objectPrototypeNames then Inherited src
      else Named (lit "others")
  end.

(** The accumulators of the [stats] loop. *)
Record Stats : Type := {
  byOption : PerOption VoteAgg;
  perCategoryAddresses : PerOption (list (VoterKey * VoterAccumulator));
  totalPower : Z;
  delegationBreakdown : list (Label * Z);
  delegationCountBreakdown : list (Label * Z)
}.

Definition initialStats : Stats := {|
  byOption := {| yes := {| agg_option := Yes; agg_count := 0; agg_power := 0 |};
                 no := {| agg_option := No; agg_count := 0; agg_power := 0 |};
                 abstain := {| agg_option := Abstain; agg_count := 0;
                               agg_power := 0 |};
                 veto := {| agg_option := Veto; agg_count := 0; agg_power := 0 |};
                 unknown := {| agg_option := Unknown; agg_count := 0;
                               agg_power := 0 |} |};
  perCategoryAddresses := {| yes := []; no := []; abstain := []; veto := [];
                             unknown := [] |};
  totalPower := 0;
  delegationBreakdown := [];
  delegationCountBreakdown := []
|}.

(** The two source variants of the loop: the dashboard that records
    [vote] events per address (and keeps a delegation count), and the one
    that only adds them to the totals. *)
Inductive Variant : Type := PerAddress | TotalsOnly.

(** Whether the variant records events of this identifier per voter. *)
Definition tracksVote (v : Variant) : bool :=
  match v with
  | PerAddress => true
  | TotalsOnly => false
  end.

(** [byOption[option].count += 1; byOption[option].power += votePower;
     totalPower += votePower] *)
Definition addToTotals (o : VoteOption) (votePower : Z) (st : Stats) : Stats :=
  let x := getOpt o (byOption st) in
  {| byOption := setOpt o {| agg_option := agg_option x;
                             agg_count := agg_count x + 1;
                             agg_power := agg_power x + votePower |}
                   (byOption st);
     perCategoryAddresses := perCategoryAddresses st;
     totalPower := totalPower st + votePower;
     delegationBreakdown := delegationBreakdown st;
     delegationCountBreakdown := delegationCountBreakdown st |}.

(** [const m = perCategoryAddresses[option];
     const prev = m.get(voterAddr) ?? { stake: 0n, power: 0n, count: 0 };
     m.set(voterAddr, { ... })] *)
Definition addToVoter (o : VoteOption) (voterAddr : VoterKey)
  (userStake votePower : Z) (st : Stats) : Stats :=
  let m := getOpt o (perCategoryAddresses st) in
  let prev := nullish (Map_get VoterKey_eq_dec voterAddr m)
                {| stake := 0; power := 0; count := 0 |} in
  {| byOption := byOption st;
     perCategoryAddresses :=
       setOpt o
         (Map_set VoterKey_eq_dec voterAddr
            {| stake := stake prev + userStake;
               power := power prev + votePower;
               count := count prev + 1 |} m)
         (perCategoryAddresses st);
     totalPower := totalPower st;
     delegationBreakdown := delegationBreakdown st;
     delegationCountBreakdown := delegationCountBreakdown st |}.

(** [delegationBreakdown.set(label, (... ?? 0n) + votePower)] and, in the
    variant that has it, the same for the count map. *)
Definition addToDelegation (v : Variant) (label : Label) (votePower : Z)
  (st : Stats) : Stats :=
  {| byOption := byOption st;
     perCategoryAddresses := perCategoryAddresses st;
     totalPower := totalPower st;
     delegationBreakdown :=
       Map_set Label_eq_dec label
         (nullish (Map_get Label_eq_dec label (delegationBreakdown st)) 0
          + votePower)
         (delegationBreakdown st);
     delegationCountBreakdown :=
       match v with
       | PerAddress =>
           Map_set Label_eq_dec label
             (nullish (Map_get Label_eq_dec label
                         (delegationCountBreakdown st)) 0 + 1)
             (delegationCountBreakdown st)
       | TotalsOnly => delegationCountBreakdown st
       end |}.

(** The body of [for (const hit of rawHits)]. *)
Definition step {engine : Engine} (v : Variant) (st : Stats) (s : Source)
  : res Stats :=
  let id := identifier s in
  let t := nullish (topics s) [] in
  match t with
  | [] => Ret st
  | _ =>
      if streq id (lit "vote") then
        let option := decodeOption (nth_error t 1) in
        let voterAddr := address s in
        let userStake := hexToBigInt (nth_error t 2) in
        let votePower := hexToBigInt (nth_error t 3) in
        let st := addToTotals option votePower st in
        Ret (if tracksVote v
             then addToVoter option voterAddr userStake votePower st
             else st)
      else if streq id (lit "delegateVote") then
        let option := decodeOption (nth_error t 1) in
        let voterHex := nth_error t 2 in
        decoded <- hexToBech32Erd voterHex ;;
        let voterAddr := match decoded with
                         | Some a => Some a
                         | None => voterHex
                         end in
        let userStake := hexToBigInt (nth_error t 3) in
        let votePower := hexToBigInt (nth_error t 4) in
        let st := addToTotals option votePower st in
        let st := addToVoter option voterAddr userStake votePower st in
        let src := nullish (address s) (lit "others") in
        let label := delegationLabel src in
        Ret (addToDelegation v label votePower st)
      else Ret st
  end.

Fixpoint aggregate {engine : Engine} (v : Variant) (rawHits : list Source)
  (st : Stats) : res Stats :=
  match rawHits with
  | [] => Ret st
  | hit :: rest => st' <- step v st hit ;; aggregate v rest st'
  end.

(** The accumulators when the loop of [stats] is over. *)
Definition stats {engine : Engine} (v : Variant) (rawHits : list Source)
  : res Stats :=
  aggregate v rawHits initialStats.

(* ================================================================== *)
(** ** Ranker *)

(** A row of a leaderboard: [{ address, stake, power, count }]. *)
Record Row : Type := {
  row_address : VoterKey;
  row_stake : Z;
  row_power : Z;
  row_count : Z
}.

Definition toRow (e : VoterKey * VoterAccumulator) : Row :=
  {| row_address := fst e;
     row_stake := stake (snd e);
     row_power := power (snd e);
     row_count := count (snd e) |}.

(** The comparator handed to [sort]; only its sign matters, and
    [Number] keeps the sign of a BigInt. *)
Definition compareRows (v : Variant) (a b : Row) : Z :=
  match v with
  | PerAddress => row_power b - row_power a
  | TotalsOnly =>
      if row_stake a =? row_stake b then row_power b - row_power a
      else row_stake b - row_stake a
  end.

(** [Array.prototype.sort] with a consistent comparator is a stable sort;
    stable insertion gives that order. *)
Fixpoint insertRow (cmp : Row -> Row -> Z) (x : Row) (l : list Row)
  : list Row :=
  match l with
  | [] => [x]
  | y :: l' => if cmp x y <=? 0 then x :: l else y :: insertRow cmp x l'
  end.

Definition sortRows (cmp : Row -> Row -> Z) (l : list Row) : list Row :=
  fold_right (insertRow cmp) [] l.

Definition topPerCategory (v : Variant) (st : Stats) (opt : VoteOption)
  : list Row :=
  firstn 50
    (sortRows (compareRows v)
       (map toRow (getOpt opt (perCategoryAddresses st)))).

(** The ranking key of a row: [power], or [stake] then [power]. *)
Definition rankKey (v : Variant) (r : Row) : Z * Z :=
  match v with
  | PerAddress => (row_power r, 0)
  | TotalsOnly => (row_stake r, row_power r)
  end.

(** Lexicographic [k1 >= k2] on ranking keys. *)
Definition keyGe (k1 k2 : Z * Z) : Prop :=
  fst k1 > fst k2 \/ (fst k1 = fst k2 /\ snd k1 >= snd k2).

(** Sum of the [power] fields of a per-category map. *)
Definition sumPower (m : list (VoterKey * VoterAccumulator)) : Z :=
  fold_right (fun e a => power (snd e) + a) 0 m.

(** Sum of [byOption[*].power] over the five options. *)
Definition sumOptionPower (b : PerOption VoteAgg) : Z :=
  fold_right (fun o a => agg_power (getOpt o b) + a) 0 allOptions.

(* ================================================================== *)
(** ** Formatter *)

(** [\d] *)
Definition isDigit (c : Z) : bool := (48 <=? c) && (c <=? 57).

(** [\w] *)
Definition isWordChar (c : Z) : bool :=
  isDigit c || ((65 <=? c) && (c <=? 90)) || ((97 <=? c) && (c <=? 122))
  || (c =? 95).

(** The decimal digits of a non-negative integer, last digit first into
    [acc]; one unit of fuel per digit. *)
Fixpoint decimalLoop (fuel : nat) (n : Z) (acc : jsstring) : jsstring :=
  match fuel with
  | O => acc
  | S fuel' =>
      let acc := (48 + n mod 10) :: acc in
      if n / 10 =? 0 then acc else decimalLoop fuel' (n / 10) acc
  end.

(** The decimal numeral of a non-negative integer; a number has no more
    decimal digits than binary ones. *)
Definition decimal (n : Z) : jsstring :=
  decimalLoop (S (Z.to_nat (Z.log2 n))) n [].

(** [bi.toString()] on a BigInt. *)
Definition BigInt_toString (bi : Z) : jsstring :=
  if bi <? 0 then 45 :: decimal (- bi) else decimal bi.

(** Length of the run of digits a string starts with. *)
Fixpoint digitRun (s : jsstring) : nat :=
  match s with
  | [] => O
  | c :: r => if isDigit c then S (digitRun r) else O
  end.

(** [s.replace(/\B(?=(\d{3})+(?!\d))/g, ',')]: a comma goes in at every
    position that is not a word boundary and from which the run of
    digits is a positive multiple of three long.  [prevWord] tells
    whether the character before the position is a word character. *)
Fixpoint insertCommas (prevWord : bool) (s : jsstring) : jsstring :=
  match s with
  | [] => []
  | c :: r =>
      (if prevWord && isWordChar c
          && negb (Nat.eqb (digitRun s) 0)
          && Nat.eqb (Nat.modulo (digitRun s) 3) 0
       then [44] else [])
      ++ c :: insertCommas (isWordChar c) r
  end.

(** [bigThousands] *)
Definition bigThousands (bi : Z) : jsstring :=
  insertCommas false (BigInt_toString bi).

(** [s.padStart(n, '0')] *)
Definition padStart (n : nat) (s : jsstring) : jsstring :=
  repeat 48 (n - List.length s) ++ s.

(** The number of decimals of an amount. *)
Definition EGLD_DEC : Z := 18.

(** [formatEgld]; the per-address dashboard groups the integer part by
    thousands, the other prints it as it is. *)
Definition formatEgld (v : Variant) (amount : Z) : jsstring :=
  let neg := amount <? 0 in
  let a := if neg then - amount else amount in
  let int := Z.quot a (10 ^ EGLD_DEC) in
  let frac := Z.rem a (10 ^ EGLD_DEC) in
  let fracStr :=
    firstn 4 (padStart (Z.to_nat EGLD_DEC) (BigInt_toString frac)) in
  (if neg then lit "-" else [])
  ++ match v with
     | PerAddress => bigThousands int
     | TotalsOnly => BigInt_toString int
     end
  ++ lit "." ++ fracStr ++ lit " EGLD".

(* ================================================================== *)
(** ** RequestCache *)

(** [===] on the keys of a cache. *)
Definition jsstring_eq_dec : forall a b : jsstring, {a = b} + {a <> b} :=
  list_eq_dec Z.eq_dec.

(** [res.ok] of a fetch response: the status is in the range 200-299. *)
Definition statusOk (status : Z) : bool :=
  (200 <=? status) && (status <=? 299).

(** The cache of the dashboard, [postJsonCached].  The clock and the
    network are inputs: [now] is what [Date.now()] returns in the call,
    [net] what the request would be answered.  A call is taken as a
    whole: no other call runs between its lookup and its store. *)
Module FetchCache.
Section WithData.
(** The values [res.json()] resolves to. *)
Variable D : Type.

(** [{ time, data }] *)
Record Entry : Type := { time : Z; data : D }.

(** What [fetch] and [res.json()] come to: the request fails, or a
    response arrives with a status and a body that parses or not. *)
Inductive Reply : Type :=
| NetworkError
| Response (status : Z) (json : option D).

Definition Cache : Type := list (jsstring * Entry).

(** The time to live a caller gets that passes none. *)
Definition CACHE_TTL_MS : Z := 60000.

(** [url + '|' + JSON.stringify(body)], on the serialized body. *)
Definition cacheKey (url bodyJson : jsstring) : jsstring :=
  url ++ lit "|" ++ bodyJson.

(** What a call comes to: the value the promise settles to, the requests
    that went out, the cache afterwards. *)
Record Outcome : Type := {
  settled : res D;
  requests : list (jsstring * jsstring);
  cacheAfter : Cache
}.

Definition postJsonCached (now : Z) (net : jsstring -> jsstring -> Reply)
  (_cache : Cache) (url bodyJson : jsstring) (ttlMs : Z) : Outcome :=
  let key := cacheKey url bodyJson in
  let fetched :=
    match net url bodyJson with
    | NetworkError =>
        {| settled := Throw; requests := [(url, bodyJson)];
           cacheAfter := _cache |}
    | Response status json =>
        if negb (statusOk status) then
          {| settled := Throw; requests := [(url, bodyJson)];
             cacheAfter := _cache |}
        else
          match json with
          | None => {| settled := Throw; requests := [(url, bodyJson)];
                       cacheAfter := _cache |}
          | Some data =>
              {| settled := Ret data; requests := [(url, bodyJson)];
                 cacheAfter :=
                   Map_set jsstring_eq_dec key
                     {| time := now; data := data |} _cache |}
          end
    end in
  match Map_get jsstring_eq_dec key _cache with
  | Some hit =>
      if now - time hit <? ttlMs
      then {| settled := Ret (data hit); requests := [];
              cacheAfter := _cache |}
      else fetched
  | None => fetched
  end.

End WithData.

Arguments time {D} _.
Arguments data {D} _.
Arguments NetworkError {D}.
Arguments Response {D} _ _.
Arguments settled {D} _.
Arguments requests {D} _.
Arguments cacheAfter {D} _.
Arguments postJsonCached {D} _ _ _ _ _ _.
End FetchCache.

(** The cache server: the request handler of [http.createServer].  The
    CORS headers, which every response gets, are left out.  A request is
    handled as a whole: no other request is handled between its lookup
    and its store. *)
Module CacheServer.

(** What the handler reads of a request: the method, the path of the
    parsed URL ([None] when [new URL] throws), and the body ([None] when
    reading the stream throws). *)
Record Request : Type := {
  method : jsstring;
  pathname : option jsstring;
  raw : option jsstring
}.

(** [{ time, body }] *)
Record Entry : Type := { time : Z; body : jsstring }.

Definition Cache : Type := list (jsstring * Entry).

(** The upstream's part: the request or reading its answer fails, or an
    answer arrives with a status and a text. *)
Inductive Upstream : Type :=
| Unreachable
| Answer (status : Z) (text : jsstring).

(** What [send] writes: status, [Content-Type], [X-Cache], body. *)
Record Reply : Type := {
  status : Z;
  contentType : option jsstring;
  xCache : option jsstring;
  sent : jsstring
}.

(** A reply, the request bodies sent upstream, the cache afterwards. *)
Record Outcome : Type := {
  reply : Reply;
  forwarded : list jsstring;
  cacheAfter : Cache
}.

Section Configured.
Variable ES_URL : jsstring.
Variable CACHE_TTL_MS : Z.

Definition internalError : Reply :=
  {| status := 500; contentType := Some (lit "text/plain"); xCache := None;
     sent := lit "Internal Server Error" |}.

(** The part of the handler after a miss: the request goes upstream, the
    answer is passed on, and stored when its status is a success. *)
Definition forward (now : Z) (upstream : jsstring -> Upstream)
  (cache : Cache) (raw : jsstring) : Outcome :=
  let key := ES_URL ++ lit "|" ++ raw in
  match upstream raw with
  | Unreachable =>
      {| reply := internalError; forwarded := [raw]; cacheAfter := cache |}
  | Answer st text =>
      if negb (statusOk st) then
        {| reply := {| status := st;
                       contentType := Some (lit "application/json");
                       xCache := Some (lit "MISS");
                       sent := text |};
           forwarded := [raw]; cacheAfter := cache |}
      else
        {| reply := {| status := 200;
                       contentType := Some (lit "application/json");
                       xCache := Some (lit "MISS");
                       sent := text |};
           forwarded := [raw];
           cacheAfter :=
             Map_set jsstring_eq_dec key {| time := now; body := text |}
               cache |}
  end.

Definition handler (now : Z) (upstream : jsstring -> Upstream)
  (cache : Cache) (req : Request) : Outcome :=
  if streq (method req) (lit "OPTIONS") then
    {| reply := {| status := 204; contentType := None; xCache := None;
                   sent := [] |};
       forwarded := []; cacheAfter := cache |}
  else
    match pathname req with
    | None => {| reply := internalError; forwarded := [];
                 cacheAfter := cache |}
    | Some path =>
        if streq (method req) (lit "POST")
           && streq path (lit "/api/events/_search") then
          match raw req with
          | None => {| reply := internalError; forwarded := [];
                       cacheAfter := cache |}
          | Some raw =>
              let key := ES_URL ++ lit "|" ++ raw in
              match Map_get jsstring_eq_dec key cache with
              | Some hit =>
                  if now - time hit <? CACHE_TTL_MS then
                    {| reply := {| status := 200;
                                   contentType :=
                                     Some (lit "application/json");
                                   xCache := Some (lit "HIT");
                                   sent := body hit |};
                       forwarded := []; cacheAfter := cache |}
                  else forward now upstream cache raw
              | None => forward now upstream cache raw
              end
          end
        else
          {| reply := {| status := 404; contentType := Some (lit "text/plain");
                         xCache := None; sent := lit "Not Found" |};
             forwarded := []; cacheAfter := cache |}
    end.

(** One request reaching the server: the clock, the upstream's behaviour
    at that moment, the request. *)
Record Arrival : Type := {
  at_time : Z;
  at_upstream : jsstring -> Upstream;
  at_request : Request
}.

(** The server working through requests one after the other, none
    overlapping another: the log of arrivals with their replies, and the
    cache. *)
Definition serve (state : list (Arrival * Reply) * Cache)
  (arrivals : list Arrival) : list (Arrival * Reply) * Cache :=
  fold_left
    (fun st a =>
       let o := handler (at_time a) (at_upstream a) (snd st)
                  (at_request a) in
       (fst st ++ [(a, reply o)], cacheAfter o))
    arrivals state.

(** The log explains the cache: every entry was stored by a logged
    arrival that was answered [200], [MISS], with the entry's text, for
    the request body of the entry's key at the entry's time. *)
Definition stored (log : list (Arrival * Reply)) (key : jsstring)
  (e : Entry) : Prop :=
  exists (a : Arrival) (r : Reply) (body0 : jsstring),
    In (a, r) log
    /\ raw (at_request a) = Some body0
    /\ key = ES_URL ++ lit "|" ++ body0
    /\ at_time a = time e
    /\ status r = 200 /\ xCache r = Some (lit "MISS") /\ sent r = body e.

(** Every reply served from the cache repeats an earlier reply: one to
    the same request body, fetched upstream less than the time to live
    before. *)
Definition replaysRecentMiss (log : list (Arrival * Reply)) : Prop :=
  forall (l1 l2 : list (Arrival * Reply)) (a : Arrival) (r : Reply),
    log = l1 ++ (a, r) :: l2 ->
    xCache r = Some (lit "HIT") ->
    exists (a0 : Arrival) (r0 : Reply) (body0 : jsstring),
      In (a0, r0) l1
      /\ raw (at_request a) = Some body0
      /\ raw (at_request a0) = Some body0
      /\ status r0 = 200 /\ xCache r0 = Some (lit "MISS")
      /\ status r = 200 /\ sent r = sent r0
      /\ at_time a - at_time a0 < CACHE_TTL_MS.

End Configured.
End CacheServer.

(* ================================================================== *)
(** ** Reference definitions used in the statements *)

(** The number whose base-[2^w] digits, most significant first, are [l]:
    the values of [l] laid side by side as one bit string. *)
Definition bigEndian (w : Z) (l : list Z) : Z :=
  fold_left (fun a v => a * 2 ^ w + v) l 0.

(** The bit string [m] with the [w]-bit values [vs] appended. *)
Definition appended (w m : Z) (vs : list Z) : Z :=
  fold_left (fun a v => a * 2 ^ w + v) vs m.

(** The [k] lowest base-[2^w] digits of [x], most significant first. *)
Fixpoint digits (w : Z) (k : nat) (x : Z) : list Z :=
  match k with
  | O => []
  | S k' => digits w k' (x / 2 ^ w) ++ [x mod 2 ^ w]
  end.

(** An input value [convertBits] refuses: negative, or wider than [from]
    bits. *)
Definition tooWide (from : Z) (v : number) : bool :=
  ltZero v || (2 ^ from <=? intOf v).

(** Regrouping as the design describes it: the [from]-bit values form one
    bit string, which is cut into [to]-bit groups from the left.  With
    padding a final partial group is completed with zero bits on the
    right; without padding the left-over bits must be fewer than [from]
    and all zero. *)
Definition regroup (from to : Z) (vals : list Z) (pad : bool)
  : option (list Z) :=
  let n := bigEndian from vals in
  let total := Z.of_nat (List.length vals) * from in
  let r := total mod to in
  let m := Z.to_nat (total / to) in
  if pad then
    Some (if r =? 0 then digits to m n
          else digits to (S m) (n * 2 ^ (to - r)))
  else if (from <=? r) || negb (n mod 2 ^ r =? 0) then None
  else Some (digits to m (n / 2 ^ r)).

(** What one event adds to the accumulators: the option and power, the
    per-voter key and stake when the event is recorded per voter, and the
    delegation label when it is a delegated vote. *)
Record Contribution : Type := {
  c_option : VoteOption;
  c_power : Z;
  c_voter : option (VoterKey * Z);
  c_label : option Label
}.

(** The voter key of a delegated vote:
    [hexToBech32Erd(voterHex) ?? voterHex]. *)
Definition delegatedVoter (voterHex : option jsstring) : VoterKey :=
  match hexToBech32Erd voterHex with
  | Ret (Some a) => Some a
  | _ => voterHex
  end.

(** The contribution of an event; [None] for an event the loop skips. *)
Definition contribution {engine : Engine} (v : Variant) (s : Source)
  : option Contribution :=
  let t := nullish (topics s) [] in
  match t with
  | [] => None
  | _ =>
      if streq (identifier s) (lit "vote") then
        Some {| c_option := decodeOption (nth_error t 1);
                c_power := hexToBigInt (nth_error t 3);
                c_voter := if tracksVote v
                           then Some (address s, hexToBigInt (nth_error t 2))
                           else None;
                c_label := None |}
      else if streq (identifier s) (lit "delegateVote") then
        Some {| c_option := decodeOption (nth_error t 1);
                c_power := hexToBigInt (nth_error t 4);
                c_voter := Some (delegatedVoter (nth_error t 2),
                                 hexToBigInt (nth_error t 3));
                c_label := Some (delegationLabel
                                   (nullish (address s) (lit "others"))) |}
      else None
  end.

Definition applyContribution (v : Variant) (c : option Contribution)
  (st : Stats) : Stats :=
  match c with
  | None => st
  | Some c =>
      let st := addToTotals (c_option c) (c_power c) st in
      let st := match c_voter c with
                | Some (k, u) => addToVoter (c_option c) k u (c_power c) st
                | None => st
                end in
      match c_label c with
      | Some l => addToDelegation v l (c_power c) st
      | None => st
      end
  end.

(** Whether the variant records events with this identifier per voter:
    delegated votes always, direct votes in the per-address variant. *)
Definition trackedKind (v : Variant) (id : jsstring) : bool :=
  if streq id (lit "vote") then tracksVote v else true.

(** The value [m.set] stores for a voter whose previous value is [prev]. *)
Definition voterAfter (prev : option VoterAccumulator) (u p : Z)
  : VoterAccumulator :=
  let x := nullish prev {| stake := 0; power := 0; count := 0 |} in
  {| stake := stake x + u; power := power x + p; count := count x + 1 |}.

(** An engine for the examples: one that passes up to 65535 arguments. *)
Definition sampleEngine : Engine := {| argumentsLimit := 65535 |}.

(** The events of the design's end-to-end scenario: a direct vote for
    "yes" (stake 1000, power 2000), a delegated vote for "no" by the
    all-zero voter (stake 500, power 700) through a listed contract, and a
    direct vote with an unmapped option (stake 1, power 1). *)
Definition sampleBatch : list Source :=
  [ {| identifier := lit "vote";
       address := Some (lit "erd1voter");
       topics := Some [lit "01"; hexOf (lit "yes"); lit "03e8"; lit "07d0"] |};
    {| identifier := lit "delegateVote";
       address :=
         Some (lit "erd1qqqqqqqqqqqqqpgqxwakt2g7u9atsnr03gqcgmhcv38pt7mkd94q6shuwt");
       topics := Some [lit "01"; hexOf (lit "no"); zeros64; lit "01f4";
                       lit "02bc"] |};
    {| identifier := lit "vote";
       address := Some (lit "erd1other");
       topics := Some [lit "01"; hexOf (lit "garbage"); lit "01"; lit "01"] |} ].

(** The power that the events of a batch add to category [o] without
    recording it per voter. *)
Definition untrackedPower {engine : Engine} (v : Variant) (o : VoteOption)
  (rawHits : list Source) : Z :=
  fold_right
    (fun s a =>
       match contribution v s with
       | Some c =>
           match c_voter c with
           | None => if VoteOption_eq_dec o (c_option c) then c_power c else 0
           | Some _ => 0
           end
       | None => 0
       end + a)
    0 rawHits.

(** Two accumulator states with the same totals and the same map
    contents (the maps may list their entries in another order). *)
Definition sameContents (a b : Stats) : Prop :=
  byOption a = byOption b
  /\ totalPower a = totalPower b
  /\ (forall o k,
        Map_get VoterKey_eq_dec k (getOpt o (perCategoryAddresses a))
        = Map_get VoterKey_eq_dec k (getOpt o (perCategoryAddresses b)))
  /\ (forall l, Map_get Label_eq_dec l (delegationBreakdown a)
                = Map_get Label_eq_dec l (delegationBreakdown b))
  /\ (forall l, Map_get Label_eq_dec l (delegationCountBreakdown a)
                = Map_get Label_eq_dec l (delegationCountBreakdown b)).

(** No key occurs twice in any map of the state. *)
Definition keysDistinct (st : Stats) : Prop :=
  (forall o, NoDup (map fst (getOpt o (perCategoryAddresses st))))
  /\ NoDup (map fst (delegationBreakdown st))
  /\ NoDup (map fst (delegationCountBreakdown st)).

(** The accumulators after the sample batch, in the per-address variant. *)
Definition sampleStats : Stats :=
  fold_left (fun st s => applyContribution PerAddress
                           (contribution (engine := sampleEngine)
                              PerAddress s) st)
    sampleBatch initialStats.

(** [a] ranks at least as high as [b]. *)
Definition rankGe (v : Variant) (a b : Row) : Prop :=
  keyGe (rankKey v a) (rankKey v b).

(** Plain pairing from the left; a last single character stays alone. *)
Fixpoint pairsFromLeft (s : jsstring) : list jsstring :=
  match s with
  | [] => []
  | [c] => [[c]]
  | c :: d :: rest => [c; d] :: pairsFromLeft rest
  end.

(** The alphabet character of a symbol below 32. *)
Definition symbolChar (d : Z) : Z := nth (Z.to_nat d) BECH32_ALPHABET 0.

(** The address text for a list of 5-bit symbols: prefix, separator, one
    alphabet character per data symbol and per checksum symbol. *)
Definition addressText (five : list Z) : jsstring :=
  lit "erd1"
  ++ map symbolChar
       (five ++ bech32CreateChecksum (lit "erd") five).

(** The five-bit symbols of a 32-byte payload: the 256 bits followed by
    four zero bits, cut into 52 groups. *)
Definition fiveBitSymbols (bytes : list number) : list Z :=
  digits 5 52 (bigEndian 8 (map intOf bytes) * 2 ^ 4).

(** The generator selected by bit [i] of the top five bits [b]. *)
Definition generatorTerm (i b : Z) : Z :=
  if Z.testbit b i then nth (Z.to_nat i) GENERATORS 0 else 0.

(** The generators selected by [b], combined. *)
Definition generatorMix (b : Z) : Z :=
  Z.lxor
    (Z.lxor
       (Z.lxor (Z.lxor (generatorTerm 0 b) (generatorTerm 1 b))
          (generatorTerm 2 b))
       (generatorTerm 3 b))
    (generatorTerm 4 b).

(** One turn of the checksum register on unbounded integers: the low 25
    bits move up by five, the symbol is added, and the generators selected
    by the five bits that left the register are added; addition is
    exclusive or. *)
Definition polymodPure (chk v : Z) : Z :=
  Z.lxor (Z.lxor (Z.shiftl (Z.land chk 0x1ffffff) 5) v)
    (generatorMix (Z.shiftr chk 25)).

(** The loop of [bech32Polymod] started from [chk]. *)
Definition polymodFrom (chk : Z) (values : list Z) : Z :=
  fold_left polymodStep values chk.

(** [n] turns of the register on zero symbols. *)
Definition zeroTurns (n : nat) (e : Z) : Z :=
  Nat.iter n (fun x => polymodPure x 0) e.

(** A 64-character input whose first two characters are not hexadecimal
    digits. *)
Definition nonHexInput : jsstring :=
  lit "zz00000000000000000000000000000000000000000000000000000000000000".

(** The list [l] with bit [k] of its [i]-th value flipped. *)
Fixpoint flipBit (i : nat) (k : Z) (l : list Z) : list Z :=
  match l, i with
  | [], _ => []
  | x :: l', O => Z.lxor x (2 ^ k) :: l'
  | x :: l', S i' => x :: flipBit i' k l'
  end.

(** The sum, over the events of a batch that the loop counts, of a
    quantity read off each event's contribution. *)
Definition sumOver {engine : Engine} (f : Contribution -> Z) (v : Variant)
  (rawHits : list Source) : Z :=
  fold_right Z.add 0
    (map (fun s => match contribution v s with
                   | Some c => f c
                   | None => 0
                   end) rawHits).

(** [1] when the contribution goes to category [o], else [0]. *)
Definition inCategory (o : VoteOption) (c : Contribution) : Z :=
  if VoteOption_eq_dec o (c_option c) then 1 else 0.

(** Whether the loop counts the event: it has a topic and its identifier
    is [vote] or [delegateVote]. *)
Definition isCounted (s : Source) : bool :=
  match nullish (topics s) [] with
  | [] => false
  | _ => streq (identifier s) (lit "vote")
         || streq (identifier s) (lit "delegateVote")
  end.

(** Sum of the values of a delegation map. *)
Definition sumValues (m : list (Label * Z)) : Z :=
  fold_right (fun e a => snd e + a) 0 m.

(** Sum of the [count] fields of a per-category map. *)
Definition sumCount (m : list (VoterKey * VoterAccumulator)) : Z :=
  fold_right (fun e a => count (snd e) + a) 0 m.

(** [1] when the contribution is recorded under voter key [k] in
    category [o], else [0]. *)
Definition recordedFor (k : VoterKey) (o : VoteOption) (c : Contribution)
  : Z :=
  match c_voter c with
  | Some (k', _) =>
      if VoteOption_eq_dec o (c_option c) then
        if VoterKey_eq_dec k k' then 1 else 0
      else 0
  | None => 0
  end.

(** The stake an event records for its voter ([0] when it records none). *)
Definition stakeOf (c : Contribution) : Z :=
  match c_voter c with
  | Some (_, u) => u
  | None => 0
  end.

(** The power of a delegated vote ([0] for a direct vote). *)
Definition delegatedPower (c : Contribution) : Z :=
  match c_label c with
  | Some _ => c_power c
  | None => 0
  end.

(** [1] when the contribution is a delegated vote with label [l]. *)
Definition labelled (l : Label) (c : Contribution) : Z :=
  match c_label c with
  | Some l' => if Label_eq_dec l l' then 1 else 0
  | None => 0
  end.

(** [1] when the contribution is recorded per voter, else [0]. *)
Definition hasVoter (c : Contribution) : Z :=
  match c_voter c with Some _ => 1 | None => 0 end.

(** The labels of the table, and the label of every other source. *)
Definition knownLabels : list Label :=
  map Named (map snd DELEGATION_LABELS ++ [lit "others"]).

(** Whether the source address of an event (or [others], when it has
    none) is no property name that object literals inherit. *)
Definition plainSource (s : Source) : bool :=
  negb (existsb (streq (nullish (address s) (lit "others")))
          objectPrototypeNames).

(** The number a string of decimal digits denotes. *)
Definition decValue (s : jsstring) : Z :=
  fold_left (fun a c => 10 * a + (c - 48)) s 0.

(** The [k] lowest decimal digits of [n], as characters. *)
Fixpoint decDigits (k : nat) (n : Z) : jsstring :=
  match k with
  | O => []
  | S k' => decDigits k' (n / 10) ++ [48 + n mod 10]
  end.

Definition removeCommas (s : jsstring) : jsstring :=
  filter (fun c => negb (c =? 44)) s.

(** Whether [t] spells the lower-case literal [l] in some letter case:
    as long as [l], with at each place the character of [l] or, where
    that is a letter, its capital. *)
Fixpoint spells (l t : jsstring) : bool :=
  match l, t with
  | [], [] => true
  | a :: l', c :: t' =>
      ((c =? a) || ((97 <=? a) && (a <=? 122) && (c =? a - 32)))
      && spells l' t'
  | _, _ => false
  end.

(* ================================================================== *)
(** * Properties *)

Section Properties.
Context {engine : Engine}.

(** ** 32-bit arithmetic *)

Lemma wrap_range (z : Z) : - 2 ^ 31 <= Int32.wrap z < 2 ^ 31.
Proof.
  unfold Int32.wrap.
  pose proof (Z.mod_pos_bound (z + 2 ^ 31) (2 ^ 32) ltac:(lia)). lia.
Qed.

Lemma wrap_small (z : Z) : - 2 ^ 31 <= z < 2 ^ 31 -> Int32.wrap z = z.
Proof.
  intros H. unfold Int32.wrap. rewrite Z.mod_small; lia.
Qed.

Lemma wrap_mod32 (z : Z) : Int32.wrap z mod 2 ^ 32 = z mod 2 ^ 32.
Proof.
  unfold Int32.wrap.
  replace ((z + 2 ^ 31) mod 2 ^ 32 - 2 ^ 31)
    with ((z + 2 ^ 31) mod 2 ^ 32 + (- 2 ^ 31)) by lia.
  rewrite Zplus_mod_idemp_l. f_equal. lia.
Qed.

(** Two integers that agree modulo [2^32] agree modulo every smaller
    power of two. *)
Lemma mod32_mod_pow2 (x y k : Z) :
  0 <= k <= 32 -> x mod 2 ^ 32 = y mod 2 ^ 32 -> x mod 2 ^ k = y mod 2 ^ k.
Proof.
  intros Hk H.
  assert (D : (2 ^ k | 2 ^ 32)).
  { exists (2 ^ (32 - k)). rewrite <- Z.pow_add_r by lia. f_equal. lia. }
  rewrite <- (Z.mod_mod_divide x (2 ^ 32) (2 ^ k) D).
  rewrite <- (Z.mod_mod_divide y (2 ^ 32) (2 ^ k) D).
  now rewrite H.
Qed.

Lemma wrap_mod_pow2 (z k : Z) :
  0 <= k <= 32 -> Int32.wrap z mod 2 ^ k = z mod 2 ^ k.
Proof.
  intros Hk. apply mod32_mod_pow2; [assumption | apply wrap_mod32].
Qed.

(** Bits [b .. b+t-1] of an integer depend on its residue modulo
    [2^(b+t)] only. *)
Lemma div_mod_pow2 (x b t : Z) :
  0 <= b -> 0 <= t -> (x / 2 ^ b) mod 2 ^ t = (x mod 2 ^ (b + t)) / 2 ^ b.
Proof.
  intros Hb Ht.
  rewrite Z.pow_add_r by lia.
  rewrite Z.rem_mul_r by lia.
  rewrite (Z.mul_comm (2 ^ b)), Z.div_add by lia.
  rewrite (Z.div_small (x mod 2 ^ b)); [lia|].
  apply Z.mod_pos_bound. lia.
Qed.

Lemma maxv_wrap (to : Z) :
  1 <= to <= 31 -> Int32.wrap (Int32.shl 1 to - 1) = 2 ^ to - 1.
Proof.
  intros H. unfold Int32.shl.
  rewrite (wrap_small 1) by lia.
  rewrite (Z.mod_small to 32) by lia.
  rewrite Z.shiftl_mul_pow2, Z.mul_1_l by lia.
  destruct (Z.eq_dec to 31) as [->|Hne].
  - reflexivity.
  - assert (2 ^ to <= 2 ^ 30) by (apply Z.pow_le_mono_r; lia).
    assert (0 < 2 ^ to) by (apply Z.pow_pos_nonneg; lia).
    rewrite (wrap_small (2 ^ to)) by lia.
    apply wrap_small. lia.
Qed.

(** [x & maxv] keeps the [to] low bits. *)
Lemma and_maxv (x to : Z) :
  1 <= to <= 31 -> Int32.and x (Int32.shl 1 to - 1) = x mod 2 ^ to.
Proof.
  intros H. unfold Int32.and. rewrite maxv_wrap by assumption.
  replace (2 ^ to - 1) with (Z.ones to) by (rewrite Z.ones_equiv; lia).
  rewrite Z.land_ones by lia. apply wrap_mod_pow2. lia.
Qed.

(** [(acc >> b) & maxv] reads bits [b .. b+to-1] of whatever [acc]
    stands for modulo [2^32]. *)
Lemma and_sar_maxv (acc m b to : Z) :
  1 <= to <= 31 -> 0 <= b -> b + to <= 32 ->
  acc mod 2 ^ 32 = m mod 2 ^ 32 ->
  Int32.and (Int32.sar acc b) (Int32.shl 1 to - 1) = (m / 2 ^ b) mod 2 ^ to.
Proof.
  intros Ht Hb Hs Hacc.
  rewrite and_maxv by assumption. unfold Int32.sar.
  rewrite (Z.mod_small b 32) by lia.
  rewrite Z.shiftr_div_pow2 by lia.
  rewrite !div_mod_pow2 by lia. f_equal.
  rewrite wrap_mod_pow2 by lia. apply mod32_mod_pow2; [lia | assumption].
Qed.

(** [(acc << s) & maxv], with [s + b = to], left-justifies the [b] low
    bits of [acc] in a [to]-bit group. *)
Lemma and_shl_maxv (acc m s to : Z) :
  1 <= to <= 31 -> 0 <= s <= to ->
  acc mod 2 ^ 32 = m mod 2 ^ 32 ->
  Int32.and (Int32.shl acc s) (Int32.shl 1 to - 1)
  = (m mod 2 ^ (to - s)) * 2 ^ s.
Proof.
  intros Ht Hs Hacc.
  rewrite and_maxv by assumption. unfold Int32.shl.
  rewrite (Z.mod_small s 32) by lia.
  rewrite wrap_mod_pow2 by lia.
  rewrite Z.shiftl_mul_pow2 by lia.
  replace (2 ^ to) with (2 ^ (to - s) * 2 ^ s)
    by (rewrite <- Z.pow_add_r by lia; f_equal; lia).
  rewrite Z.mul_mod_distr_r by (apply Z.pow_nonzero; lia).
  f_equal.
  rewrite wrap_mod_pow2 by lia. apply mod32_mod_pow2; [lia | assumption].
Qed.

(** [x | v] is [x + v] when [v] fits in the bits of [x] that are zero. *)
Lemma lor_low_bits (x v k : Z) :
  0 <= k -> x mod 2 ^ k = 0 -> 0 <= v < 2 ^ k -> Z.lor x v = x + v.
Proof.
  intros Hk Hx Hv.
  assert (L : Z.land x v = 0).
  { apply Z.bits_inj'. intros n Hn.
    rewrite Z.land_spec, Z.bits_0.
    destruct (Z.lt_ge_cases n k) as [Hlt|Hge].
    - rewrite <- (Z.mod_pow2_bits_low x k n) by lia.
      rewrite Hx, Z.bits_0. reflexivity.
    - rewrite <- (Z.mod_small v (2 ^ k)) by lia.
      rewrite Z.mod_pow2_bits_high by lia. apply andb_false_r. }
  rewrite <- Z.lxor_lor by assumption.
  symmetry. apply Z.add_nocarry_lxor. assumption.
Qed.

(** [acc = (acc << from) | value] appends the [from] bits of [value]. *)
Lemma or_shl_append (acc m v from : Z) :
  1 <= from <= 31 -> 0 <= v < 2 ^ from ->
  acc mod 2 ^ 32 = m mod 2 ^ 32 ->
  Int32.or (Int32.shl acc from) v mod 2 ^ 32 = (m * 2 ^ from + v) mod 2 ^ 32.
Proof.
  intros Hf Hv Hacc.
  assert (P : 0 < 2 ^ from) by (apply Z.pow_pos_nonneg; lia).
  assert (Q : 2 ^ from <= 2 ^ 31) by (apply Z.pow_le_mono_r; lia).
  unfold Int32.or.
  rewrite (wrap_small v) by lia.
  rewrite (wrap_small (Int32.shl acc from)) by apply wrap_range.
  unfold Int32.shl. rewrite (Z.mod_small from 32) by lia.
  rewrite Z.shiftl_mul_pow2 by lia.
  rewrite (lor_low_bits _ v from); [| lia | | assumption].
  - rewrite Zplus_mod, wrap_mod32, <- Zplus_mod.
    rewrite Zplus_mod, Zmult_mod, wrap_mod32, Hacc, <- Zmult_mod, <- Zplus_mod.
    reflexivity.
  - rewrite wrap_mod_pow2 by lia. apply Z.mod_mul. lia.
Qed.

(** ** convertBits *)

Section ConvertBits.

Variables from to : Z.
Hypothesis from_range : 1 <= from <= 31.
Hypothesis to_range : 1 <= to <= 31.
Hypothesis width_fits : from + to <= 33.

(** The inner loop exits, leaving fewer than [to] bits, and what it
    pushed are the next base-[2^to] digits of the bit string. *)
Lemma emitLoop_digits (fuel : nat) :
  forall (acc m b : Z) (k : nat),
    acc mod 2 ^ 32 = m mod 2 ^ 32 ->
    0 <= b <= 32 -> b <= Z.of_nat fuel ->
    exists (b' : Z) (k' : nat),
      emitLoop fuel acc b to (Int32.shl 1 to - 1) (digits to k (m / 2 ^ b))
      = Some (b', digits to k' (m / 2 ^ b'))
      /\ 0 <= b' < to
      /\ Z.of_nat k' * to + b' = Z.of_nat k * to + b.
Proof.
  induction fuel as [|fuel IH]; intros acc m b k Hacc Hb Hfuel.
  - assert (b = 0) by lia. subst b. exists 0, k. simpl.
    destruct (Z.geb_spec 0 to); [lia|]. repeat split; lia.
  - simpl. destruct (Z.geb_spec b to) as [Hge|Hlt].
    + assert (E : digits to k (m / 2 ^ b)
                  ++ [Int32.and (Int32.sar acc (b - to)) (Int32.shl 1 to - 1)]
                  = digits to (S k) (m / 2 ^ (b - to))).
      { simpl.
        rewrite (and_sar_maxv acc m) by (try assumption; lia).
        f_equal. f_equal.
        rewrite Z.div_div by (try apply Z.pow_nonzero;
                              try apply Z.pow_pos_nonneg; lia).
        rewrite <- Z.pow_add_r by lia. do 2 f_equal. lia. }
      rewrite E.
      destruct (IH acc m (b - to) (S k) Hacc ltac:(lia) ltac:(lia))
        as (b' & k' & H1 & H2 & H3).
      exists b', k'. repeat split; try assumption; lia.
    + exists b, k. repeat split; lia.
Qed.

Lemma tooWide_check (v : number) :
  intOf v < 2 ^ 31 ->
  ltZero v || negb (Int32.sar (intOf v) from =? 0) = tooWide from v.
Proof.
  intros Hv. unfold tooWide. destruct v as [|z]; simpl in *.
  - unfold Int32.sar. rewrite (wrap_small 0) by lia.
    rewrite Z.shiftr_0_l. simpl.
    assert (0 < 2 ^ from) by (apply Z.pow_pos_nonneg; lia).
    symmetry. apply Z.leb_gt. assumption.
  - destruct (Z.ltb_spec z 0) as [Hn|Hn]; [reflexivity|]. simpl.
    unfold Int32.sar. rewrite wrap_small by lia.
    rewrite (Z.mod_small from 32) by lia.
    rewrite Z.shiftr_div_pow2 by lia.
    assert (P : 0 < 2 ^ from) by (apply Z.pow_pos_nonneg; lia).
    destruct (Z.leb_spec (2 ^ from) z) as [Hw|Hw].
    + assert (1 <= z / 2 ^ from)
        by (apply Z.div_le_lower_bound; lia).
      destruct (Z.eqb_spec (z / 2 ^ from) 0); [lia | reflexivity].
    + rewrite Z.div_small by lia. reflexivity.
Qed.

(** The [for] loop: it returns [null] as soon as a value is refused, and
    otherwise ends with the digits of the whole bit string pushed. *)
Lemma convertLoop_digits (data : list number) :
  Forall (fun v => intOf v < 2 ^ 31) data ->
  forall (acc m bits : Z) (k : nat),
    acc mod 2 ^ 32 = m mod 2 ^ 32 ->
    0 <= bits < to ->
    if existsb (tooWide from) data
    then convertLoop data from to (Int32.shl 1 to - 1) acc bits (digits to k (m / 2 ^ bits))
         = Ret None
    else
      exists (acc' bits' : Z) (k' : nat),
        convertLoop data from to (Int32.shl 1 to - 1) acc bits (digits to k (m / 2 ^ bits))
        = Ret (Some (acc', bits',
                     digits to k'
                       (appended from m (map intOf data) / 2 ^ bits')))
        /\ acc' mod 2 ^ 32 = appended from m (map intOf data) mod 2 ^ 32
        /\ 0 <= bits' < to
        /\ Z.of_nat k' * to + bits'
           = Z.of_nat k * to + bits + Z.of_nat (List.length data) * from.
Proof.
  induction 1 as [|v data Hv Hdata IH]; intros acc m bits k Hacc Hbits.
  - simpl. exists acc, bits, k. repeat split; try assumption; lia.
  - cbn [existsb convertLoop].
    rewrite (tooWide_check v Hv).
    destruct (tooWide from v) eqn:W; [reflexivity|]. cbn [orb].
    assert (Vr : 0 <= intOf v < 2 ^ from).
    { unfold tooWide in W. apply orb_false_elim in W as [W1 W2].
      apply Z.leb_gt in W2. split; [|assumption].
      destruct v; simpl in *; [lia|]. apply Z.ltb_ge in W1. assumption. }
    set (m1 := m * 2 ^ from + intOf v).
    assert (Hacc1 : Int32.or (Int32.shl acc from) (intOf v) mod 2 ^ 32
                    = m1 mod 2 ^ 32)
      by (apply or_shl_append; assumption).
    assert (P : 0 < 2 ^ from) by (apply Z.pow_pos_nonneg; lia).
    assert (E : m / 2 ^ bits = m1 / 2 ^ (bits + from)).
    { unfold m1. rewrite Z.pow_add_r, (Z.mul_comm (2 ^ bits)) by lia.
      rewrite <- Z.div_div by (try apply Z.pow_pos_nonneg; lia).
      rewrite Z.div_add_l by lia.
      rewrite (Z.div_small (intOf v)) by lia. f_equal. lia. }
    rewrite E.
    destruct (emitLoop_digits (Z.to_nat (bits + from))
                (Int32.or (Int32.shl acc from) (intOf v)) m1
                (bits + from) k Hacc1 ltac:(lia) ltac:(lia))
      as (b' & k' & H1 & H2 & H3).
    rewrite H1.
    specialize (IH (Int32.or (Int32.shl acc from) (intOf v)) m1 b' k'
                  Hacc1 H2).
    cbn [map List.length]. unfold appended. cbn [fold_left].
    fold m1. fold (appended from m1 (map intOf data)).
    destruct (existsb (tooWide from) data); [assumption|].
    destruct IH as (acc' & bits' & k'' & I1 & I2 & I3 & I4).
    exists acc', bits', k''. repeat split; try assumption; lia.
Qed.

End ConvertBits.

(** [convertBits] computes the regrouping: for widths the 32-bit
    accumulator can hold and values below [2^31] (or [NaN], read as [0]),
    it returns [null] when a value is refused and the regrouped symbols
    otherwise.  It never throws and its loops always exit. *)
Lemma convertBits_regroup (data : list number) (from to : Z) (pad : bool) :
  1 <= from <= 31 -> 1 <= to <= 31 -> from + to <= 33 ->
  Forall (fun v => intOf v < 2 ^ 31) data ->
  convertBits data from to pad
  = Ret (if existsb (tooWide from) data then None
         else regroup from to (map intOf data) pad).
Proof.
  intros Hf Ht Hw Hd. unfold convertBits.
  pose proof (convertLoop_digits from to Hf Ht Hw data Hd 0 0 0 0%nat
                eq_refl ltac:(lia)) as L.
  cbn [digits] in L.
  destruct (existsb (tooWide from) data).
  - rewrite L. reflexivity.
  - destruct L as (acc & bits & k & L1 & L2 & L3 & L4).
    rewrite L1. cbn [bind].
    fold (bigEndian from (map intOf data)) in *.
    set (n := bigEndian from (map intOf data)) in *.
    unfold regroup. rewrite length_map. fold n.
    assert (Hr : (Z.of_nat (List.length data) * from) mod to = bits).
    { symmetry. apply (Z.mod_unique _ _ (Z.of_nat k)); lia. }
    assert (Hm : Z.to_nat (Z.of_nat (List.length data) * from / to) = k).
    { rewrite <- (Z.div_unique _ to (Z.of_nat k) bits) by lia.
      apply Nat2Z.id. }
    rewrite Hr, Hm.
    assert (P : 0 < 2 ^ bits) by (apply Z.pow_pos_nonneg; lia).
    assert (Q : 0 < 2 ^ (to - bits)) by (apply Z.pow_pos_nonneg; lia).
    assert (S : Int32.and (Int32.shl acc (to - bits)) (Int32.shl 1 to - 1)
                = n mod 2 ^ bits * 2 ^ (to - bits)).
    { rewrite (and_shl_maxv acc n) by (try assumption; lia).
      do 2 f_equal. f_equal. lia. }
    destruct pad.
    + destruct (Z.eqb_spec bits 0) as [->|Hnz]; cbn [negb].
      * rewrite Z.pow_0_r, Z.div_1_r. reflexivity.
      * do 2 f_equal. cbn [digits]. rewrite S. f_equal.
        -- f_equal.
           replace (2 ^ to) with (2 ^ bits * 2 ^ (to - bits))
             by (rewrite <- Z.pow_add_r by lia; f_equal; lia).
           rewrite Z.div_mul_cancel_r by lia. reflexivity.
        -- f_equal.
           replace (2 ^ to) with (2 ^ bits * 2 ^ (to - bits))
             by (rewrite <- Z.pow_add_r by lia; f_equal; lia).
           rewrite Z.mul_mod_distr_r by lia. reflexivity.
    + rewrite S.
      replace (bits >=? from) with (from <=? bits)
        by (rewrite Z.geb_leb; reflexivity).
      replace (n mod 2 ^ bits * 2 ^ (to - bits) =? 0)
        with (n mod 2 ^ bits =? 0).
      * destruct ((from <=? bits) || negb (n mod 2 ^ bits =? 0));
          reflexivity.
      * destruct (Z.eqb_spec (n mod 2 ^ bits) 0) as [->|Hn].
        -- reflexivity.
        -- symmetry. apply Z.eqb_neq. nia.
Qed.

Lemma existsb_tooWide_Exists (from : Z) (data : list number) :
  existsb (tooWide from) data = true
  <-> Exists (fun v => intOf v < 0 \/ 2 ^ from <= intOf v) data.
Proof.
  rewrite existsb_exists, Exists_exists.
  split; intros (v & Hin & Hv); exists v; (split; [assumption|]).
  - unfold tooWide in Hv. apply orb_true_iff in Hv as [Hv|Hv].
    + left. destruct v; simpl in *; [discriminate|].
      apply Z.ltb_lt. assumption.
    + right. apply Z.leb_le. assumption.
  - unfold tooWide. apply orb_true_iff. destruct Hv as [Hv|Hv].
    + left. destruct v; simpl in *; [lia|]. apply Z.ltb_lt. assumption.
    + right. apply Z.leb_le. assumption.
Qed.

(** With padding, a final partial group holds the left-over bits on the
    left and zeros on the right. *)
Lemma digits_padded (to r n : Z) (m : nat) :
  0 <= r <= to ->
  digits to (S m) (n * 2 ^ (to - r))
  = digits to m (n / 2 ^ r) ++ [n mod 2 ^ r * 2 ^ (to - r)].
Proof.
  intros H. cbn [digits].
  assert (P : 0 < 2 ^ r) by (apply Z.pow_pos_nonneg; lia).
  assert (Q : 0 < 2 ^ (to - r)) by (apply Z.pow_pos_nonneg; lia).
  replace (2 ^ to) with (2 ^ r * 2 ^ (to - r))
    by (rewrite <- Z.pow_add_r by lia; f_equal; lia).
  rewrite Z.div_mul_cancel_r, Z.mul_mod_distr_r by lia. reflexivity.
Qed.

(** C7. [convertBits(data, from, to, pad)] returns [null] exactly when
    some input value is negative or at least [2^from], or [pad] is false
    and the left-over bits are at least [from] many or not all zero;
    otherwise it returns the regrouped [to]-bit symbols, and with
    [pad = true] a final partial group carries the left-over bits
    left-justified and zero-filled.  (Widths within what the 32-bit
    accumulator holds; values [NaN] or integers below [2^31].) *)
Theorem convertBits_null_or_regrouped
  (data : list number) (from to : Z) (pad : bool) :
  1 <= from <= 31 -> 1 <= to <= 31 -> from + to <= 33 ->
  Forall (fun v => intOf v < 2 ^ 31) data ->
  let vals := map intOf data in
  let n := bigEndian from vals in
  let total := Z.of_nat (List.length data) * from in
  let r := total mod to in
  let m := Z.to_nat (total / to) in
  let refused :=
    Exists (fun v => intOf v < 0 \/ 2 ^ from <= intOf v) data
    \/ (pad = false /\ (from <= r \/ n mod 2 ^ r <> 0)) in
  (convertBits data from to pad = Ret None <-> refused)
  /\ (~ refused ->
      convertBits data from to pad = Ret (regroup from to vals pad)
      /\ exists out,
          regroup from to vals pad = Some out
          /\ Forall (fun s => 0 <= s < 2 ^ to) out
          /\ (pad = false -> out = digits to m (n / 2 ^ r))
          /\ (pad = true -> r = 0 -> out = digits to m n)
          /\ (pad = true -> r <> 0 ->
              out = digits to m (n / 2 ^ r)
                    ++ [n mod 2 ^ r * 2 ^ (to - r)])).
Proof.
  intros Hf Ht Hw Hd vals n total r m refused.
  pose proof (convertBits_regroup data from to pad Hf Ht Hw Hd) as E.
  pose proof (existsb_tooWide_Exists from data) as X.
  assert (Hr : 0 <= r < to) by (apply Z.mod_pos_bound; lia).
  assert (Dg : forall k x, Forall (fun s => 0 <= s < 2 ^ to) (digits to k x)).
  { induction k as [|k IHk]; intros x; cbn [digits]; [constructor|].
    apply Forall_app. split; [apply IHk|]. constructor; [|constructor].
    apply Z.mod_pos_bound. apply Z.pow_pos_nonneg; lia. }
  assert (RU : regroup from to vals pad
               = if pad then
                   Some (if r =? 0 then digits to m n
                         else digits to (S m) (n * 2 ^ (to - r)))
                 else if (from <=? r) || negb (n mod 2 ^ r =? 0) then None
                 else Some (digits to m (n / 2 ^ r))).
  { unfold regroup, r, m, total, n, vals. rewrite length_map. reflexivity. }
  assert (R : regroup from to vals pad = None
              <-> pad = false /\ (from <= r \/ n mod 2 ^ r <> 0)).
  { rewrite RU. destruct pad.
    - split; [discriminate | intros [? _]; discriminate].
    - destruct (Z.leb_spec from r) as [L|L]; cbn [orb].
      + split; [intros _; split; [reflexivity | left; assumption]
               | reflexivity].
      + destruct (Z.eqb_spec (n mod 2 ^ r) 0) as [Z0|Z0]; cbn [negb].
        * split; [discriminate | intros [_ [?|?]]; lia].
        * split; [intros _; split; [reflexivity | right; assumption]
                 | reflexivity]. }
  split.
  - rewrite E. unfold refused.
    destruct (existsb (tooWide from) data) eqn:W.
    + split; [intros _; left; apply X; reflexivity | reflexivity].
    + split.
      * intros H. right. apply R. injection H as H. exact H.
      * intros [H|H]; [apply X in H; discriminate|].
        apply R in H. fold vals. rewrite H. reflexivity.
  - intros NR. unfold refused in NR.
    destruct (existsb (tooWide from) data) eqn:W.
    { exfalso. apply NR. left. apply X. reflexivity. }
    split; [exact E|].
    destruct (regroup from to vals pad) as [out|] eqn:G.
    2:{ exfalso. apply NR. right. apply R. reflexivity. }
    exists out. split; [reflexivity|].
    clear G. destruct pad.
    + destruct (Z.eqb_spec r 0) as [Z0|Z0]; injection RU as RU; subst out.
      * split; [apply Dg|]. split; [discriminate|].
        split; [reflexivity|]. intros _ ?; lia.
      * split; [apply (Dg (S m))|]. split; [discriminate|].
        split; [intros _ ?; lia|]. intros _ _.
        apply (digits_padded to r n m). lia.
    + destruct ((from <=? r) || negb (n mod 2 ^ r =? 0)); [discriminate|].
      injection RU as RU; subst out.
      split; [apply Dg|]. split; [reflexivity|].
      split; discriminate.
Qed.

(** ** HexCodec *)

Lemma dropWhile_length {A : Type} (p : A -> bool) (l : list A) :
  (List.length (dropWhile p l) <= List.length l)%nat.
Proof.
  induction l as [|x l IH]; simpl; [lia|]. destruct (p x); simpl; lia.
Qed.

Lemma hexDigit_range (c d : Z) : hexDigit c = Some d -> 0 <= d < 16.
Proof.
  unfold hexDigit.
  destruct (Z.leb_spec 48 c), (Z.leb_spec c 57); simpl;
    try (intros [= <-]; lia);
    destruct (Z.leb_spec 97 c), (Z.leb_spec c 102); simpl;
    try (intros [= <-]; lia);
    destruct (Z.leb_spec 65 c), (Z.leb_spec c 70); simpl;
    try (intros [= <-]; lia); discriminate.
Qed.

Lemma hexPrefix_digits (s : jsstring) :
  Forall (fun d => 0 <= d < 16) (hexPrefix s)
  /\ (List.length (hexPrefix s) <= List.length s)%nat.
Proof.
  induction s as [|c s [IH1 IH2]]; simpl.
  - split; [constructor | lia].
  - destruct (hexDigit c) as [d|] eqn:E; simpl.
    + split; [constructor; [eapply hexDigit_range; eassumption | assumption]
             | lia].
    + split; [constructor | lia].
Qed.

Lemma hexValue_from (ds : list Z) :
  Forall (fun d => 0 <= d < 16) ds ->
  forall a, 0 <= a ->
    a * 16 ^ Z.of_nat (List.length ds)
    <= fold_left (fun a d => 16 * a + d) ds a
    < (a + 1) * 16 ^ Z.of_nat (List.length ds).
Proof.
  induction 1 as [|d ds Hd Hds IH]; intros a Ha.
  - simpl. lia.
  - cbn [fold_left List.length]. rewrite Nat2Z.inj_succ, Z.pow_succ_r by lia.
    specialize (IH (16 * a + d) ltac:(lia)).
    assert (0 < 16 ^ Z.of_nat (List.length ds))
      by (apply Z.pow_pos_nonneg; lia).
    nia.
Qed.

Lemma hexValue_bound (ds : list Z) :
  Forall (fun d => 0 <= d < 16) ds ->
  0 <= hexValue ds < 16 ^ Z.of_nat (List.length ds).
Proof.
  intros H. pose proof (hexValue_from ds H 0 ltac:(lia)) as B.
  unfold hexValue. lia.
Qed.

(** A chunk of at most two characters parses to [NaN] or to an integer
    between [-255] and [255]. *)
Lemma parseInt16_bound (s : jsstring) :
  (List.length s <= 2)%nat -> -256 < intOf (parseInt16 s) < 256.
Proof.
  intros Hs. unfold parseInt16.
  set (s1 := dropWhile isStrWhiteSpaceChar s).
  assert (L1 : (List.length s1 <= 2)%nat)
    by (pose proof (dropWhile_length isStrWhiteSpaceChar s); fold s1 in H; lia).
  set (sign := match s1 with 45 :: _ => -1 | _ => 1 end).
  assert (Sg : sign = 1 \/ sign = -1).
  { unfold sign. destruct s1 as [|c r]; [left; reflexivity|].
    destruct (Z.eq_dec c 45) as [->|Hc]; [right; reflexivity|].
    left. destruct c as [|p|p]; try reflexivity.
    repeat (destruct p as [p|p|]; try reflexivity). congruence. }
  set (s2 := match s1 with
             | c :: r => if (c =? 43) || (c =? 45) then r else s1
             | [] => s1
             end).
  assert (L2 : (List.length s2 <= 2)%nat).
  { unfold s2. destruct s1 as [|c r]; [simpl; lia|].
    destruct ((c =? 43) || (c =? 45)); simpl in *; lia. }
  set (s3 := match s2 with
             | 48 :: x :: r => if (x =? 120) || (x =? 88) then r else s2
             | _ => s2
             end).
  assert (L3 : (List.length s3 <= 2)%nat).
  { unfold s3. destruct s2 as [|c [|x r]]; try (simpl in *; lia).
    - destruct c as [|p|p]; simpl; try lia.
      repeat (destruct p as [p|p|]; simpl; try lia).
    - assert (Hr : (List.length r <= 2)%nat) by (simpl in *; lia).
      destruct c as [|p|p]; try assumption.
      repeat (destruct p as [p|p|]; try assumption).
      destruct ((x =? 120) || (x =? 88)); assumption. }
  destruct (hexPrefix_digits s3) as [D1 D2].
  destruct (hexPrefix s3) as [|d ds] eqn:E; [simpl; lia|].
  rewrite <- E in *. cbn [intOf].
  pose proof (hexValue_bound _ D1) as B.
  assert (16 ^ Z.of_nat (List.length (hexPrefix s3)) <= 16 ^ 2)
    by (apply Z.pow_le_mono_r; lia).
  destruct Sg as [-> | ->]; lia.
Qed.

(** Induction over a string two characters at a time. *)
Lemma pair_induction (P : jsstring -> Prop) :
  P [] -> (forall c, P [c]) ->
  (forall c d s, P s -> P (d :: s) -> P (c :: d :: s)) ->
  forall s, P s.
Proof.
  intros H0 H1 H2 s.
  enough (P s /\ forall c, P (c :: s)) by tauto.
  induction s as [|d s [IHa IHb]]; split; auto.
Qed.

Lemma matchPairs_chunk_length (hex : jsstring) :
  Forall (fun chunk => (1 <= List.length chunk <= 2)%nat) (matchPairs hex).
Proof.
  induction hex as [| c | c d s IH1 IH2] using pair_induction.
  - constructor.
  - simpl. destruct (isLineTerminator c); repeat constructor.
  - cbn [matchPairs] in *.
    destruct (isLineTerminator c); [assumption|].
    destruct (isLineTerminator d); constructor; simpl; auto; lia.
Qed.

Lemma hexBytes_bound (hex : jsstring) :
  Forall (fun v => -256 < intOf v < 256) (hexBytes hex).
Proof.
  unfold hexBytes. apply Forall_map.
  eapply Forall_impl; [|apply matchPairs_chunk_length].
  intros chunk Hc. cbv beta in Hc. apply parseInt16_bound. lia.
Qed.

(** Where no line terminator occurs, the regular expression pairs the
    characters from the left. *)
Lemma matchPairs_pairsFromLeft (hex : jsstring) :
  Forall (fun c => isLineTerminator c = false) hex ->
  matchPairs hex = pairsFromLeft hex.
Proof.
  induction hex as [| c | c d s IH1 IH2] using pair_induction; intros H.
  - reflexivity.
  - inversion H as [|? ? Hc _]; subst. simpl. rewrite Hc. reflexivity.
  - inversion H as [|? ? Hc H']; subst.
    inversion H' as [|? ? Hd H'']; subst.
    cbn [matchPairs pairsFromLeft]. rewrite Hc, Hd. f_equal. auto.
Qed.

Lemma pairsFromLeft_length (s : jsstring) :
  List.length (pairsFromLeft s) = Nat.div2 (S (List.length s)).
Proof.
  induction s as [| c | c d s IH1 IH2] using pair_induction;
    try reflexivity.
  cbn [pairsFromLeft List.length]. rewrite IH1. reflexivity.
Qed.

(** ** Bech32Codec *)

Lemma digits_length (w : Z) (k : nat) (x : Z) :
  List.length (digits w k x) = k.
Proof.
  revert x. induction k as [|k IH]; intros x; cbn [digits]; [reflexivity|].
  rewrite length_app, IH. simpl. lia.
Qed.

Lemma digits_range (w : Z) (k : nat) (x : Z) :
  0 <= w -> Forall (fun s => 0 <= s < 2 ^ w) (digits w k x).
Proof.
  intros Hw. revert x.
  induction k as [|k IH]; intros x; cbn [digits]; [constructor|].
  apply Forall_app. split; [apply IH|]. constructor; [|constructor].
  apply Z.mod_pos_bound. apply Z.pow_pos_nonneg; lia.
Qed.

Lemma and_31 (x : Z) : Int32.and x 31 = x mod 2 ^ 5.
Proof.
  change 31 with (Int32.shl 1 5 - 1). apply and_maxv. lia.
Qed.

Lemma bech32CreateChecksum_symbols (hrp : jsstring) (data : list Z) :
  List.length (bech32CreateChecksum hrp data) = 6%nat
  /\ Forall (fun s => 0 <= s < 32) (bech32CreateChecksum hrp data).
Proof.
  unfold bech32CreateChecksum. split; [reflexivity|].
  apply Forall_map. apply Forall_forall. intros p _.
  rewrite and_31. apply (Z.mod_pos_bound _ (2 ^ 5)). lia.
Qed.

Lemma fold_left_append (l : list Z) (out : jsstring) :
  fold_left (fun out x => out ++ alphabetAt x) l out
  = out ++ flat_map alphabetAt l.
Proof.
  revert out. induction l as [|x l IH]; intros out; simpl.
  - now rewrite app_nil_r.
  - rewrite IH, app_assoc. reflexivity.
Qed.

Lemma flat_map_alphabetAt (l : list Z) :
  Forall (fun s => 0 <= s < 32) l ->
  flat_map alphabetAt l = map symbolChar l.
Proof.
  induction 1 as [|x l Hx Hl IH]; [reflexivity|].
  cbn [flat_map map]. rewrite IH. unfold alphabetAt.
  destruct (Z.leb_spec 0 x); [|lia]. destruct (Z.ltb_spec x 32); [|lia].
  reflexivity.
Qed.

(** On symbols below 32 the encoder returns the address text. *)
Lemma bech32Encode_addressText (five : list Z) :
  Forall (fun s => 0 <= s < 32) five ->
  bech32Encode (lit "erd") (Some five) = Ret (addressText five).
Proof.
  intros H. unfold bech32Encode, addressText.
  rewrite fold_left_append, flat_map_alphabetAt; [reflexivity|].
  apply Forall_app. split; [assumption|].
  apply bech32CreateChecksum_symbols.
Qed.

Lemma existsb_tooWide_ltZero (bytes : list number) :
  Forall (fun v => -256 < intOf v < 256) bytes ->
  existsb (tooWide 8) bytes = existsb ltZero bytes.
Proof.
  induction 1 as [|v l Hv Hl IH]; [reflexivity|].
  cbn [existsb]. rewrite IH. f_equal. unfold tooWide.
  destruct (Z.leb_spec (2 ^ 8) (intOf v)); [|apply orb_false_r].
  change (2 ^ 8) with 256 in *. lia.
Qed.

(** [convertBits(bytes, 8, 5, true)] on 32 parsed chunks. *)
Lemma convertBits_bytes (bytes : list number) :
  Forall (fun v => -256 < intOf v < 256) bytes ->
  List.length bytes = 32%nat ->
  convertBits bytes 8 5 true
  = Ret (if existsb ltZero bytes then None else Some (fiveBitSymbols bytes)).
Proof.
  intros Hb Hl.
  rewrite convertBits_regroup; try lia.
  - rewrite existsb_tooWide_ltZero by assumption.
    destruct (existsb ltZero bytes); [reflexivity|].
    unfold regroup, fiveBitSymbols. rewrite length_map, Hl. reflexivity.
  - eapply Forall_impl; [|exact Hb]. intros v Hv. cbv beta in Hv. lia.
Qed.

(** What [hexToBech32Erd] returns on a string: the address text of the
    32 parsed chunks when there are exactly 32 and none is negative, and
    [undefined] otherwise.  It never throws and never loops. *)
Lemma hexToBech32Erd_value (h : jsstring) :
  hexToBech32Erd (Some h)
  = Ret (if Nat.eqb (List.length (hexBytes h)) 32
            && negb (existsb ltZero (hexBytes h))
         then Some (addressText (fiveBitSymbols (hexBytes h)))
         else None).
Proof.
  unfold hexToBech32Erd.
  destruct h as [|c h]; [reflexivity|].
  cbn [falsy]. set (hex := c :: h).
  destruct (Nat.eqb_spec (List.length (hexBytes hex)) 32) as [Hl|Hl];
    cbn [negb andb]; [|reflexivity].
  rewrite (convertBits_bytes _ (hexBytes_bound hex) Hl).
  destruct (existsb ltZero (hexBytes hex)); cbn [bind negb]; [reflexivity|].
  rewrite bech32Encode_addressText; [reflexivity|].
  apply (digits_range 5). lia.
Qed.

Lemma isHexDigit_cases (c : Z) :
  isHexDigit c = true ->
  48 <= c <= 57 \/ 65 <= c <= 70 \/ 97 <= c <= 102.
Proof.
  unfold isHexDigit, hexDigit.
  destruct (Z.leb_spec 48 c), (Z.leb_spec c 57); simpl; try lia;
    destruct (Z.leb_spec 97 c), (Z.leb_spec c 102); simpl; try lia;
    destruct (Z.leb_spec 65 c), (Z.leb_spec c 70); simpl; try lia;
    discriminate.
Qed.

Ltac decide_eqb :=
  repeat match goal with
         | |- context [?a =? ?b] => destruct (Z.eqb_spec a b); [lia|]
         | |- context [?a <=? ?b] => destruct (Z.leb_spec a b); [|lia]
         end.

Lemma hexDigit_not_space (c : Z) :
  isHexDigit c = true -> isStrWhiteSpaceChar c = false.
Proof.
  intros H. apply isHexDigit_cases in H.
  unfold isStrWhiteSpaceChar, isWhiteSpace, isLineTerminator.
  destruct (Z.leb_spec 8192 c); [lia|]. decide_eqb. reflexivity.
Qed.

Lemma hexDigit_not_terminator (c : Z) :
  isHexDigit c = true -> isLineTerminator c = false.
Proof.
  intros H. apply hexDigit_not_space in H.
  unfold isStrWhiteSpaceChar in H. apply orb_false_elim in H. tauto.
Qed.

(** The sign [parseInt] reads off the first character. *)
Lemma sign_match (c : Z) :
  match c with
  | 45 => -1
  | _ => 1
  end = if c =? 45 then -1 else 1.
Proof.
  destruct (Z.eqb_spec c 45) as [->|Hc]; [reflexivity|].
  destruct c as [|p|p]; try reflexivity.
  repeat (destruct p as [p|p|]; try reflexivity). congruence.
Qed.

(** A chunk that starts with a hexadecimal digit never parses to a
    negative number. *)
Lemma parseInt16_hex_nonneg (c : Z) (r : jsstring) :
  isHexDigit c = true -> ltZero (parseInt16 (c :: r)) = false.
Proof.
  intros H. unfold parseInt16. cbn [dropWhile].
  rewrite (hexDigit_not_space c H). rewrite sign_match.
  apply isHexDigit_cases in H.
  destruct (Z.eqb_spec c 45); [lia|].
  match goal with
  | |- ltZero (match hexPrefix ?s with [] => _ | _ => _ end) = false =>
      pose proof (hexPrefix_digits s) as [D _];
      destruct (hexPrefix s) as [|d ds] eqn:E; [reflexivity|]
  end.
  cbn [ltZero]. apply Z.ltb_ge.
  pose proof (hexValue_bound _ D). lia.
Qed.

Lemma pairsFromLeft_hex (h : jsstring) :
  forallb isHexDigit h = true ->
  Forall (fun chunk => ltZero (parseInt16 chunk) = false) (pairsFromLeft h).
Proof.
  induction h as [| c | c d s IH1 IH2] using pair_induction; intros H.
  - constructor.
  - simpl in H. apply andb_true_iff in H as [Hc _].
    repeat constructor. apply parseInt16_hex_nonneg. assumption.
  - cbn [forallb] in H. apply andb_true_iff in H as [Hc H].
    apply andb_true_iff in H as [Hd H].
    cbn [pairsFromLeft]. constructor; [|auto].
    apply parseInt16_hex_nonneg. assumption.
Qed.

(** Valid hexadecimal text decodes to one non-negative value per pair. *)
Lemma hexBytes_valid (h : jsstring) :
  forallb isHexDigit h = true ->
  List.length (hexBytes h) = Nat.div2 (S (List.length h))
  /\ existsb ltZero (hexBytes h) = false.
Proof.
  intros H.
  assert (T : Forall (fun c => isLineTerminator c = false) h).
  { apply Forall_forall. intros c Hc. apply hexDigit_not_terminator.
    rewrite forallb_forall in H. auto. }
  unfold hexBytes. rewrite (matchPairs_pairsFromLeft h T).
  split.
  - rewrite length_map. apply pairsFromLeft_length.
  - pose proof (pairsFromLeft_hex h H) as N.
    induction N as [|chunk l Hc Hl IH]; [reflexivity|].
    cbn [map existsb]. rewrite Hc, IH. reflexivity.
Qed.

(** C4 (as amended). [hexToBech32Erd] never raises and always returns.
    It returns an address exactly when the input is a string that the
    pairing expression cuts into exactly 32 chunks none of which parses to
    a negative number, and the address is then the encoding of the parsed
    chunks, a chunk without a leading hexadecimal digit counting as a zero
    byte; in every other case (no input, another number of chunks, a
    negative chunk) it returns [undefined]. *)
Theorem hexToBech32Erd_returns_address_iff (hex32 : option jsstring) :
  exists r : option jsstring,
    hexToBech32Erd hex32 = Ret r
    /\ (forall a,
          r = Some a <->
          exists h, hex32 = Some h
                    /\ List.length (hexBytes h) = 32%nat
                    /\ existsb ltZero (hexBytes h) = false
                    /\ a = addressText (fiveBitSymbols (hexBytes h)))
    /\ (forall h, hex32 = Some h ->
                  List.length (hexBytes h) <> 32%nat -> r = None)
    /\ (forall h, hex32 = Some h ->
                  existsb ltZero (hexBytes h) = true -> r = None).
Proof.
  destruct hex32 as [h|].
  - rewrite hexToBech32Erd_value.
    eexists. split; [reflexivity|].
    destruct (Nat.eqb_spec (List.length (hexBytes h)) 32) as [Hl|Hl];
      destruct (existsb ltZero (hexBytes h)) eqn:Hn; cbn [andb negb];
      (split; [intros a; split;
               [ intros Ha; try discriminate; injection Ha as <-;
                 exists h; auto
               | intros (h' & [= <-] & L & N & ->); congruence ]
              |]);
      split; intros h' [= <-] ?; congruence.
  - exists None. split; [reflexivity|].
    split; [|split; intros ? [=]].
    intros a. split; [discriminate | intros (? & [=] & _)].
Qed.

(** C4, counterexample: a 64-character input with two characters that
    are not hexadecimal digits is encoded (as the all-zero address)
    instead of being refused. *)
Lemma hexToBech32Erd_non_hex_encoded :
  List.length nonHexInput = 64%nat
  /\ existsb (fun c => negb (isHexDigit c)) nonHexInput = true
  /\ hexToBech32Erd (Some nonHexInput)
     = Ret (Some (lit "erd1qqqqqqqqqqqqqqqqqqqqqqqqqqqqqqqqqqqqqqqqqqqqqqqqqqqq6gq4hu")).
Proof.
  vm_compute. repeat split; reflexivity.
Qed.

(** C10. An input of exactly 64 hexadecimal digits is always encoded: the
    result is ["erd1"] followed by the alphabet characters of the 52
    five-bit symbols that [convertBits] returns for the 32 bytes and of
    the 6 checksum symbols, 62 characters in all. *)
Theorem hexToBech32Erd_valid_hex_length_62 (h : jsstring) :
  List.length h = 64%nat ->
  forallb isHexDigit h = true ->
  exists five : list Z,
    convertBits (hexBytes h) 8 5 true = Ret (Some five)
    /\ List.length five = 52%nat
    /\ List.length (bech32CreateChecksum (lit "erd") five) = 6%nat
    /\ exists body : jsstring,
        body = map symbolChar
                 (five ++ bech32CreateChecksum (lit "erd") five)
        /\ hexToBech32Erd (Some h) = Ret (Some (lit "erd1" ++ body))
        /\ List.length body = 58%nat
        /\ List.length (lit "erd1" ++ body) = 62%nat
        /\ Forall (fun c => In c BECH32_ALPHABET) body.
Proof.
  intros Hlen Hhex.
  destruct (hexBytes_valid h Hhex) as [L N]. rewrite Hlen in L.
  change (Nat.div2 65) with 32%nat in L.
  exists (fiveBitSymbols (hexBytes h)).
  assert (R : Forall (fun s => 0 <= s < 32) (fiveBitSymbols (hexBytes h)))
    by (apply (digits_range 5); lia).
  destruct (bech32CreateChecksum_symbols (lit "erd")
              (fiveBitSymbols (hexBytes h))) as [C1 C2].
  split; [rewrite (convertBits_bytes _ (hexBytes_bound h) L), N; reflexivity|].
  split; [apply digits_length|].
  split; [assumption|].
  eexists. split; [reflexivity|].
  split.
  { rewrite hexToBech32Erd_value, L, N. reflexivity. }
  assert (B : List.length
                (map symbolChar
                   (fiveBitSymbols (hexBytes h)
                    ++ bech32CreateChecksum (lit "erd")
                         (fiveBitSymbols (hexBytes h)))) = 58%nat).
  { rewrite length_map, length_app, C1.
    unfold fiveBitSymbols. rewrite digits_length. reflexivity. }
  split; [assumption|].
  split; [rewrite length_app, B; reflexivity|].
  apply Forall_map. apply Forall_forall. intros d Hd.
  assert (0 <= d < 32).
  { apply in_app_or in Hd as [Hd|Hd];
      [ rewrite Forall_forall in R | rewrite Forall_forall in C2 ]; auto. }
  apply nth_In. change (List.length BECH32_ALPHABET) with 32%nat. lia.
Qed.

Lemma hexToBech32Erd_valid_hex_length_62_witness :
  List.length zeros64 = 64%nat
  /\ forallb isHexDigit zeros64 = true
  /\ exists five : list Z,
      convertBits (hexBytes zeros64) 8 5 true = Ret (Some five)
      /\ List.length five = 52%nat
      /\ List.length (bech32CreateChecksum (lit "erd") five) = 6%nat
      /\ exists body : jsstring,
          body = map symbolChar
                   (five ++ bech32CreateChecksum (lit "erd") five)
          /\ hexToBech32Erd (Some zeros64) = Ret (Some (lit "erd1" ++ body))
          /\ List.length body = 58%nat
          /\ List.length (lit "erd1" ++ body) = 62%nat
          /\ Forall (fun c => In c BECH32_ALPHABET) body.
Proof.
  split; [reflexivity|]. split; [reflexivity|].
  apply (hexToBech32Erd_valid_hex_length_62 zeros64); reflexivity.
Defined.

Lemma convertBits_null_or_regrouped_witness :
  1 <= 8 <= 31 /\ 1 <= 5 <= 31 /\ 8 + 5 <= 33
  /\ Forall (fun v => intOf v < 2 ^ 31) [Int 255; Int 1]
  /\ (convertBits [Int 255; Int 1] 8 5 true = Ret None
      <-> Exists (fun v => intOf v < 0 \/ 2 ^ 8 <= intOf v) [Int 255; Int 1]
          \/ (true = false
              /\ (8 <= (2 * 8) mod 5
                  \/ bigEndian 8 [255; 1] mod 2 ^ ((2 * 8) mod 5) <> 0))).
Proof.
  assert (F : Forall (fun v => intOf v < 2 ^ 31) [Int 255; Int 1])
    by (repeat constructor; simpl; lia).
  split; [lia|]. split; [lia|]. split; [lia|]. split; [exact F|].
  exact (proj1 (convertBits_null_or_regrouped [Int 255; Int 1] 8 5 true
                  ltac:(lia) ltac:(lia) ltac:(lia) F)).
Defined.

(** ** The byte-decoding step *)

Lemma parseInt16_two_digits (c d hc hd : Z) :
  hexDigit c = Some hc -> hexDigit d = Some hd ->
  parseInt16 [c; d] = Int (16 * hc + hd).
Proof.
  intros Hc Hd.
  assert (Ic : isHexDigit c = true) by (unfold isHexDigit; now rewrite Hc).
  assert (Id : isHexDigit d = true) by (unfold isHexDigit; now rewrite Hd).
  unfold parseInt16. cbn [dropWhile].
  rewrite (hexDigit_not_space c Ic). rewrite sign_match.
  apply isHexDigit_cases in Ic. apply isHexDigit_cases in Id.
  destruct (Z.eqb_spec c 45); [lia|].
  destruct (Z.eqb_spec c 43); [lia|]. cbn [orb].
  assert (S3 : match c :: d :: [] with
               | 48 :: x :: r => if (x =? 120) || (x =? 88) then r
                                 else c :: d :: []
               | _ => c :: d :: []
               end = [c; d]).
  { destruct (Z.eqb_spec d 120); [lia|]. destruct (Z.eqb_spec d 88); [lia|].
    destruct c as [|p|p]; try reflexivity.
    repeat (destruct p as [p|p|]; try reflexivity). }
  rewrite S3. cbn [hexPrefix]. rewrite Hc, Hd.
  unfold hexValue. cbn [fold_left]. f_equal. lia.
Qed.

Lemma parseInt16_one_digit (c hc : Z) :
  hexDigit c = Some hc -> parseInt16 [c] = Int hc.
Proof.
  intros Hc.
  assert (Ic : isHexDigit c = true) by (unfold isHexDigit; now rewrite Hc).
  unfold parseInt16. cbn [dropWhile].
  rewrite (hexDigit_not_space c Ic). rewrite sign_match.
  apply isHexDigit_cases in Ic.
  destruct (Z.eqb_spec c 45); [lia|].
  destruct (Z.eqb_spec c 43); [lia|]. cbn [orb].
  assert (S3 : match c :: [] with
               | 48 :: x :: r => if (x =? 120) || (x =? 88) then r
                                 else c :: []
               | _ => c :: []
               end = [c]).
  { destruct c as [|p|p]; try reflexivity.
    repeat (destruct p as [p|p|]; try reflexivity). }
  rewrite S3. cbn [hexPrefix]. rewrite Hc.
  unfold hexValue. cbn [fold_left]. f_equal. lia.
Qed.

(** A chunk whose first character is neither white space, nor a sign,
    nor a hexadecimal digit parses to [NaN]. *)
Lemma parseInt16_not_a_digit (c : Z) (r : jsstring) :
  hexDigit c = None -> isStrWhiteSpaceChar c = false ->
  c <> 43 -> c <> 45 ->
  parseInt16 (c :: r) = NaN.
Proof.
  intros Hc Hs Hp Hm. unfold parseInt16. cbn [dropWhile]. rewrite Hs.
  destruct (Z.eqb_spec c 43); [contradiction|].
  destruct (Z.eqb_spec c 45); [contradiction|]. cbn [orb].
  assert (C48 : c <> 48) by (intros ->; discriminate).
  assert (S3 : match c :: r with
               | 48 :: x :: r' => if (x =? 120) || (x =? 88) then r'
                                  else c :: r
               | _ => c :: r
               end = c :: r).
  { destruct c as [|p|p]; try reflexivity.
    repeat (destruct p as [p|p|]; try reflexivity). congruence. }
  rewrite S3. cbn [hexPrefix]. rewrite Hc. reflexivity.
Qed.

(** C5 (as amended). On a string without line terminators the
    byte-decoding expression pairs the characters from the left and parses
    each chunk on its own: there are [ceil(length / 2)] values; a pair of
    hexadecimal digits gives its byte; with an odd length the last
    character is left alone and gives a one-digit value of its own (no
    zero nibble is put in front); a chunk that starts with a character
    that is neither a digit, a sign nor white space gives [NaN] in its
    place, and the sequence keeps its length.  The expression is total:
    it never raises. *)
Theorem hexBytes_pairs_from_left (hex : jsstring) :
  Forall (fun c => isLineTerminator c = false) hex ->
  hexBytes hex = map parseInt16 (pairsFromLeft hex)
  /\ List.length (hexBytes hex) = Nat.div2 (S (List.length hex))
  /\ (forall c d hc hd, hexDigit c = Some hc -> hexDigit d = Some hd ->
        parseInt16 [c; d] = Int (16 * hc + hd))
  /\ (forall c hc, hexDigit c = Some hc -> parseInt16 [c] = Int hc)
  /\ (forall (pre : jsstring) c hc,
        Forall (fun x => isLineTerminator x = false) pre ->
        Nat.Even (List.length pre) -> hexDigit c = Some hc ->
        hexBytes (pre ++ [c]) = hexBytes pre ++ [Int hc])
  /\ (forall c r, hexDigit c = None -> isStrWhiteSpaceChar c = false ->
        c <> 43 -> c <> 45 -> parseInt16 (c :: r) = NaN).
Proof.
  intros H.
  assert (E : hexBytes hex = map parseInt16 (pairsFromLeft hex))
    by (unfold hexBytes; now rewrite matchPairs_pairsFromLeft).
  split; [exact E|].
  split; [rewrite E, length_map; apply pairsFromLeft_length|].
  split; [exact parseInt16_two_digits|].
  split; [exact parseInt16_one_digit|].
  split; [|exact parseInt16_not_a_digit].
  intros pre c hc Hpre Hev Hc.
  assert (Ic : isLineTerminator c = false).
  { apply hexDigit_not_terminator. unfold isHexDigit. now rewrite Hc. }
  unfold hexBytes.
  rewrite !matchPairs_pairsFromLeft
    by (try apply Forall_app; repeat constructor; assumption).
  rewrite <- (parseInt16_one_digit c hc Hc).
  change [parseInt16 [c]] with (map parseInt16 [[c]]).
  rewrite <- map_app. f_equal.
  clear Hpre. revert Hev.
  induction pre as [| x | x y s IH1 IH2] using pair_induction; intros Hev.
  - reflexivity.
  - destruct Hev as [k Hk]. simpl in Hk. lia.
  - cbn [app pairsFromLeft]. rewrite IH1; [reflexivity|].
    destruct Hev as [k Hk]. simpl in Hk. exists (k - 1)%nat. lia.
Qed.

Lemma hexBytes_pairs_from_left_witness :
  Forall (fun c => isLineTerminator c = false) (lit "abc")
  /\ hexBytes (lit "abc") = map parseInt16 (pairsFromLeft (lit "abc"))
  /\ List.length (hexBytes (lit "abc")) = 2%nat.
Proof.
  assert (F : Forall (fun c => isLineTerminator c = false) (lit "abc"))
    by (repeat constructor).
  split; [exact F|].
  pose proof (hexBytes_pairs_from_left (lit "abc") F) as (A & B & _).
  split; [exact A | exact B].
Defined.

(** C5, counterexample: the odd-length text [abc] decodes to the bytes
    [0xab, 0x0c], not to the bytes [0x0a, 0xbc] of the left-padded text
    [0abc]; and the text [zz], which has no hexadecimal digit, decodes to
    one [NaN] value, not to the empty sequence. *)
Lemma hexBytes_not_left_padded_nor_emptied :
  hexBytes (lit "abc") = [Int 171; Int 12]
  /\ hexBytes (lit "0abc") = [Int 10; Int 188]
  /\ hexBytes (lit "abc") <> hexBytes (lit "0abc")
  /\ hexBytes (lit "zz") = [NaN]
  /\ hexBytes (lit "zz") <> [].
Proof.
  repeat split; try reflexivity; vm_compute; discriminate.
Qed.

(** ** OptionDecoder *)

Lemma hexDigit_hexDigitChar (d : Z) :
  0 <= d < 16 -> hexDigit (hexDigitChar d) = Some d.
Proof.
  intros H.
  assert (C : d = 0 \/ d = 1 \/ d = 2 \/ d = 3 \/ d = 4 \/ d = 5 \/ d = 6
              \/ d = 7 \/ d = 8 \/ d = 9 \/ d = 10 \/ d = 11 \/ d = 12
              \/ d = 13 \/ d = 14 \/ d = 15) by lia.
  repeat (destruct C as [-> | C]; [reflexivity|]). subst d. reflexivity.
Qed.

(** Hex text decodes back to the code units it was written from. *)
Lemma hexBytes_hexOf (t : jsstring) :
  Forall (fun c => 0 <= c < 256) t -> hexBytes (hexOf t) = map Int t.
Proof.
  induction 1 as [|c t Hc Ht IH]; [reflexivity|].
  assert (Hhi : 0 <= c / 16 < 16)
    by (split; [apply Z.div_pos | apply Z.div_lt_upper_bound]; lia).
  assert (Hlo : 0 <= c mod 16 < 16) by (apply Z.mod_pos_bound; lia).
  pose proof (hexDigit_hexDigitChar _ Hhi) as Dhi.
  pose proof (hexDigit_hexDigitChar _ Hlo) as Dlo.
  assert (Thi : isLineTerminator (hexDigitChar (c / 16)) = false)
    by (apply hexDigit_not_terminator; unfold isHexDigit; now rewrite Dhi).
  assert (Tlo : isLineTerminator (hexDigitChar (c mod 16)) = false)
    by (apply hexDigit_not_terminator; unfold isHexDigit; now rewrite Dlo).
  unfold hexBytes, hexOf in *. cbn [flat_map app matchPairs map].
  rewrite Thi, Tlo. cbn [map]. rewrite IH.
  rewrite (parseInt16_two_digits _ _ _ _ Dhi Dlo).
  do 2 f_equal. pose proof (Z.div_mod c 16). lia.
Qed.

Lemma stripTrailingNul_no_nul (t : jsstring) :
  Forall (fun c => 0 < c < 256) t -> stripTrailingNul t = t.
Proof.
  induction 1 as [|c t Hc Ht IH]; [reflexivity|].
  cbn [stripTrailingNul]. rewrite IH.
  destruct t; [|reflexivity].
  destruct (Z.eqb_spec c 0); [lia | reflexivity].
Qed.

(** [hexToAscii] gives back a text that was written in hex, when the text
    has no NUL, its code units are below 256, and it is no longer than
    the engine's limit. *)
Lemma hexToAscii_hexOf (t : jsstring) :
  Forall (fun c => 0 < c < 256) t ->
  Z.of_nat (List.length t) <= argumentsLimit ->
  hexToAscii (Some (hexOf t)) = t.
Proof.
  intros H L. unfold hexToAscii.
  destruct t as [|c t]; [reflexivity|].
  assert (F : falsy (Some (hexOf (c :: t))) = false) by reflexivity.
  rewrite F, hexBytes_hexOf.
  - cbv zeta. rewrite length_map.
    destruct (Z.ltb_spec argumentsLimit (Z.of_nat (List.length (c :: t))));
      [lia|].
    unfold fromCharCode. rewrite map_map.
    rewrite <- (stripTrailingNul_no_nul (c :: t) H) at 2. f_equal.
    rewrite <- (map_id (c :: t)) at 2. apply map_ext_in.
    intros x Hx. rewrite Forall_forall in H. specialize (H x Hx).
    simpl. apply Z.mod_small. lia.
  - eapply Forall_impl; [|exact H]. intros x Hx. cbv beta in Hx. lia.
Qed.

Lemma streq_true (a b : jsstring) : streq a b = true <-> a = b.
Proof.
  unfold streq. destruct (list_eq_dec Z.eq_dec a b); split; congruence.
Qed.

(** The table of [decodeOption], on the lower-cased decoded text. *)
Lemma decodeOption_table (hex : option jsstring) :
  let s := toLowerCase (hexToAscii hex) in
  (decodeOption hex = Yes <-> s = lit "yes")
  /\ (decodeOption hex = No <-> s = lit "no")
  /\ (decodeOption hex = Abstain <-> s = lit "abstain")
  /\ (decodeOption hex = Veto <->
      s = lit "veto" \/ s = lit "ncv" \/ s = lit "veto_power")
  /\ (decodeOption hex = Unknown <->
      s <> lit "yes" /\ s <> lit "no" /\ s <> lit "abstain"
      /\ s <> lit "veto" /\ s <> lit "ncv" /\ s <> lit "veto_power").
Proof.
  unfold decodeOption. generalize (toLowerCase (hexToAscii hex)).
  intros s. cbv zeta.
  destruct (streq s (lit "yes")) eqn:E1;
    [apply streq_true in E1; subst s; vm_compute;
     repeat split; try discriminate; try reflexivity;
     try (intros [H|[H|H]]; discriminate H); try tauto|].
  destruct (streq s (lit "no")) eqn:E2;
    [apply streq_true in E2; subst s; vm_compute;
     repeat split; try discriminate; try reflexivity;
     try (intros [H|[H|H]]; discriminate H); try tauto|].
  destruct (streq s (lit "abstain")) eqn:E3;
    [apply streq_true in E3; subst s; vm_compute;
     repeat split; try discriminate; try reflexivity;
     try (intros [H|[H|H]]; discriminate H); try tauto|].
  assert (N1 : s <> lit "yes")
    by (intros H; apply streq_true in H; congruence).
  assert (N2 : s <> lit "no")
    by (intros H; apply streq_true in H; congruence).
  assert (N3 : s <> lit "abstain")
    by (intros H; apply streq_true in H; congruence).
  destruct (streq s (lit "veto")) eqn:E4;
    [apply streq_true in E4|];
    (destruct (streq s (lit "ncv")) eqn:E5; [apply streq_true in E5|]);
    (destruct (streq s (lit "veto_power")) eqn:E6;
     [apply streq_true in E6|]);
    cbn [orb];
    repeat split; try discriminate; try tauto; try congruence;
    try (intros [H|[H|H]]; apply streq_true in H; congruence);
    intros Hs; apply streq_true in Hs; congruence.
Qed.

(** A text whose first chunk does not parse starts with NUL (or is empty
    once the trailing NULs are removed), so it is no option literal. *)
Lemma decodeOption_unparsable_start (h : jsstring) (rest : list number) :
  hexBytes h = NaN :: rest -> decodeOption (Some h) = Unknown.
Proof.
  intros H.
  apply (decodeOption_table (Some h)).
  assert (E : hexToAscii (Some h) = []
              \/ hexToAscii (Some h)
                 = stripTrailingNul (0 :: fromCharCode rest)).
  { unfold hexToAscii. destruct h as [|c h]; [discriminate H|].
    cbn [falsy]. rewrite H. cbv zeta.
    destruct (argumentsLimit <? Z.of_nat (List.length (NaN :: rest)));
      [left | right]; reflexivity. }
  destruct E as [E|E]; rewrite E;
    [cbn; repeat split; discriminate|].
  cbn [stripTrailingNul].
  destruct (stripTrailingNul (fromCharCode rest)) as [|x r];
    cbn; repeat split; discriminate.
Qed.

(** An input with more chunks than the engine passes as arguments
    decodes to the empty text, so it is no option literal. *)
Lemma decodeOption_beyond_limit (h : jsstring) :
  argumentsLimit < Z.of_nat (List.length (hexBytes h)) ->
  decodeOption (Some h) = Unknown.
Proof.
  intros L. apply (decodeOption_table (Some h)).
  assert (E : hexToAscii (Some h) = []).
  { unfold hexToAscii. destruct (falsy (Some h)); [reflexivity|].
    cbv zeta.
    destruct (Z.ltb_spec argumentsLimit
                (Z.of_nat (List.length (hexBytes h))));
      [reflexivity | lia]. }
  rewrite E. cbn. repeat split; discriminate.
Qed.

(** Lower-casing gives a literal exactly for the texts that spell it;
    the literal has no capital of its own. *)
Lemma toLowerCase_spells (l t : jsstring) :
  forallb (fun a => ((a <? 65) || (90 <? a)) && (a <? 192)) l = true ->
  toLowerCase t = l <-> spells l t = true.
Proof.
  revert t. induction l as [|a l IH]; intros t H.
  - destruct t; cbn; split; congruence.
  - cbn [forallb] in H. apply andb_true_iff in H. destruct H as [Ha Hl].
    destruct t as [|c t]; [cbn; split; congruence|].
    cbn [toLowerCase map spells]. fold (toLowerCase t).
    rewrite andb_true_iff, <- (IH t Hl).
    assert (U : lowerUnit c = a
                <-> (c =? a) || ((97 <=? a) && (a <=? 122) && (c =? a - 32))
                    = true).
    { unfold lowerUnit. revert Ha.
      destruct (Z.ltb_spec a 65), (Z.ltb_spec 90 a), (Z.ltb_spec a 192);
        cbn; intros Ha; try discriminate;
        destruct (Z.leb_spec 65 c), (Z.leb_spec c 90), (Z.leb_spec 192 c),
          (Z.leb_spec c 222), (Z.eqb_spec c 215), (Z.eqb_spec c a),
          (Z.leb_spec 97 a), (Z.leb_spec a 122), (Z.eqb_spec c (a - 32));
        cbn; split; intros E; try reflexivity; try discriminate;
        try lia; exfalso; lia. }
    rewrite <- U. split; [intros [= E1 E2] | intros [E1 E2]];
      [split; assumption | congruence].
Qed.

(** C6 (as amended). [decodeOption] is a total function: it returns an
    option for every input, present or not, well-formed or not.  It
    classifies by the leniently decoded text, letter case apart: an input
    is Yes, No or Abstain exactly when its decoded text spells ["yes"],
    ["no"] or ["abstain"] in some letter case, Veto exactly when it spells
    ["veto"], ["ncv"] or ["veto_power"], and Unknown exactly when it
    spells none of the six.  A text without NUL, of code units below 256
    and no longer than the engine's limit, that is written in hex decodes
    to itself, so it is classified by what it spells.  The missing and the
    empty input are Unknown, and so are an input whose first chunk does
    not parse and an input with more chunks than the engine passes as
    arguments.  (Malformed hex as such is not Unknown: a chunk that does
    not parse decodes to NUL, and NULs at the end are dropped.) *)
Theorem decodeOption_case_insensitive_table
  (hex : option jsstring) (t : jsstring) :
  Forall (fun c => 0 < c < 256) t ->
  Z.of_nat (List.length t) <= argumentsLimit ->
  ((decodeOption hex = Yes <-> spells (lit "yes") (hexToAscii hex) = true)
   /\ (decodeOption hex = No <-> spells (lit "no") (hexToAscii hex) = true)
   /\ (decodeOption hex = Abstain
       <-> spells (lit "abstain") (hexToAscii hex) = true)
   /\ (decodeOption hex = Veto
       <-> spells (lit "veto") (hexToAscii hex) = true
           \/ spells (lit "ncv") (hexToAscii hex) = true
           \/ spells (lit "veto_power") (hexToAscii hex) = true)
   /\ (decodeOption hex = Unknown
       <-> spells (lit "yes") (hexToAscii hex) = false
           /\ spells (lit "no") (hexToAscii hex) = false
           /\ spells (lit "abstain") (hexToAscii hex) = false
           /\ spells (lit "veto") (hexToAscii hex) = false
           /\ spells (lit "ncv") (hexToAscii hex) = false
           /\ spells (lit "veto_power") (hexToAscii hex) = false))
  /\ hexToAscii (Some (hexOf t)) = t
  /\ (decodeOption (Some (hexOf t)) = Yes <-> spells (lit "yes") t = true)
  /\ (decodeOption (Some (hexOf t)) = No <-> spells (lit "no") t = true)
  /\ (decodeOption (Some (hexOf t)) = Abstain
      <-> spells (lit "abstain") t = true)
  /\ (decodeOption (Some (hexOf t)) = Veto
      <-> spells (lit "veto") t = true \/ spells (lit "ncv") t = true
          \/ spells (lit "veto_power") t = true)
  /\ (decodeOption (Some (hexOf t)) = Unknown
      <-> spells (lit "yes") t = false /\ spells (lit "no") t = false
          /\ spells (lit "abstain") t = false
          /\ spells (lit "veto") t = false /\ spells (lit "ncv") t = false
          /\ spells (lit "veto_power") t = false)
  /\ decodeOption None = Unknown
  /\ decodeOption (Some []) = Unknown
  /\ (forall h rest, hexBytes h = NaN :: rest ->
                     decodeOption (Some h) = Unknown)
  /\ (forall h, argumentsLimit < Z.of_nat (List.length (hexBytes h)) ->
                decodeOption (Some h) = Unknown).
Proof.
  intros Ht Hl.
  assert (T : forall hex' : option jsstring,
             (decodeOption hex' = Yes
              <-> spells (lit "yes") (hexToAscii hex') = true)
             /\ (decodeOption hex' = No
                 <-> spells (lit "no") (hexToAscii hex') = true)
             /\ (decodeOption hex' = Abstain
                 <-> spells (lit "abstain") (hexToAscii hex') = true)
             /\ (decodeOption hex' = Veto
                 <-> spells (lit "veto") (hexToAscii hex') = true
                     \/ spells (lit "ncv") (hexToAscii hex') = true
                     \/ spells (lit "veto_power") (hexToAscii hex') = true)
             /\ (decodeOption hex' = Unknown
                 <-> spells (lit "yes") (hexToAscii hex') = false
                     /\ spells (lit "no") (hexToAscii hex') = false
                     /\ spells (lit "abstain") (hexToAscii hex') = false
                     /\ spells (lit "veto") (hexToAscii hex') = false
                     /\ spells (lit "ncv") (hexToAscii hex') = false
                     /\ spells (lit "veto_power") (hexToAscii hex')
                        = false)).
  { intros hex'.
    pose proof (decodeOption_table hex') as D. cbv zeta in D.
    assert (S : forall l : jsstring,
               forallb (fun a => ((a <? 65) || (90 <? a)) && (a <? 192)) l
               = true ->
               (toLowerCase (hexToAscii hex') = l
                <-> spells l (hexToAscii hex') = true)
               /\ (toLowerCase (hexToAscii hex') <> l
                   <-> spells l (hexToAscii hex') = false)).
    { intros l Fl.
      pose proof (toLowerCase_spells l (hexToAscii hex') Fl) as E.
      split; [exact E|].
      destruct (spells l (hexToAscii hex')); split; intros N;
        try discriminate; try reflexivity.
      - exfalso. apply N. apply E. reflexivity.
      - intros C. apply E in C. discriminate. }
    destruct (S (lit "yes") eq_refl) as [Y1 Y2].
    destruct (S (lit "no") eq_refl) as [N1 N2].
    destruct (S (lit "abstain") eq_refl) as [A1 A2].
    destruct (S (lit "veto") eq_refl) as [V1 V2].
    destruct (S (lit "ncv") eq_refl) as [C1 C2].
    destruct (S (lit "veto_power") eq_refl) as [P1 P2].
    rewrite <- Y1, <- N1, <- A1, <- V1, <- C1, <- P1.
    rewrite <- Y2, <- N2, <- A2, <- V2, <- C2, <- P2.
    exact D. }
  split; [apply T|].
  pose proof (hexToAscii_hexOf t Ht Hl) as E.
  split; [exact E|].
  pose proof (T (Some (hexOf t))) as Tt. rewrite E in Tt.
  destruct Tt as (T1 & T2 & T3 & T4 & T5).
  repeat (split; [assumption|]).
  split; [reflexivity|]. split; [reflexivity|].
  split; [exact decodeOption_unparsable_start|].
  exact decodeOption_beyond_limit.
Qed.

(** ** AggregationEngine *)

Lemma hexToBech32Erd_total (hex32 : option jsstring) :
  exists r, hexToBech32Erd hex32 = Ret r.
Proof.
  destruct hex32 as [h|]; [|exists None; reflexivity].
  rewrite hexToBech32Erd_value. eexists. reflexivity.
Qed.

(** One turn of the loop returns, and adds the event's contribution. *)
Lemma step_contribution (v : Variant) (st : Stats) (s : Source) :
  step v st s = Ret (applyContribution v (contribution v s) st).
Proof.
  unfold step, contribution.
  destruct (nullish (topics s) []) as [|t0 t] eqn:T; [reflexivity|].
  destruct (streq (identifier s) (lit "vote")).
  - unfold applyContribution. cbn [c_option c_power c_voter c_label].
    destruct (tracksVote v); reflexivity.
  - destruct (streq (identifier s) (lit "delegateVote")); [|reflexivity].
    unfold applyContribution, delegatedVoter.
    cbn [c_option c_power c_voter c_label].
    destruct (hexToBech32Erd_total (nth_error (t0 :: t) 2)) as [r Hr].
    rewrite Hr. cbn [bind]. destruct r; reflexivity.
Qed.

(** The loop of [stats] returns for every batch: it never throws and
    never diverges. *)
Lemma aggregate_fold (v : Variant) (rawHits : list Source) (st : Stats) :
  aggregate v rawHits st
  = Ret (fold_left (fun st s => applyContribution v (contribution v s) st)
           rawHits st).
Proof.
  revert st. induction rawHits as [|s l IH]; intros st; [reflexivity|].
  cbn [aggregate fold_left]. rewrite step_contribution. cbn [bind].
  apply IH.
Qed.

Lemma getOpt_setOpt {A : Type} (o o' : VoteOption) (a : A) (r : PerOption A) :
  getOpt o (setOpt o' a r) = if VoteOption_eq_dec o o' then a else getOpt o r.
Proof.
  destruct o, o'; reflexivity.
Qed.

Lemma sumOptionPower_addToTotals (o : VoteOption) (p : Z) (st : Stats) :
  sumOptionPower (byOption (addToTotals o p st))
  = sumOptionPower (byOption st) + p.
Proof.
  unfold sumOptionPower, addToTotals, allOptions.
  destruct o; cbn; lia.
Qed.

Lemma applyContribution_byOption (v : Variant) (c : Contribution)
  (st : Stats) :
  byOption (applyContribution v (Some c) st)
  = byOption (addToTotals (c_option c) (c_power c) st)
  /\ totalPower (applyContribution v (Some c) st)
     = totalPower st + c_power c.
Proof.
  unfold applyContribution.
  destruct (c_voter c) as [[k u]|], (c_label c); split; reflexivity.
Qed.

Lemma applyContribution_total (v : Variant) (c : option Contribution)
  (st : Stats) :
  totalPower st = sumOptionPower (byOption st) ->
  totalPower (applyContribution v c st)
  = sumOptionPower (byOption (applyContribution v c st)).
Proof.
  intros H. destruct c as [c|]; [|exact H].
  destruct (applyContribution_byOption v c st) as [-> ->].
  rewrite sumOptionPower_addToTotals. lia.
Qed.

(** What [addToTotals] does to the [power] of each category. *)
Lemma agg_power_addToTotals (o : VoteOption) (p : Z) (st : Stats) :
  forall o',
    agg_power (getOpt o' (byOption (addToTotals o p st)))
    = agg_power (getOpt o' (byOption st))
      + (if VoteOption_eq_dec o' o then p else 0).
Proof.
  intros o'. unfold addToTotals. cbn [byOption]. rewrite getOpt_setOpt.
  destruct (VoteOption_eq_dec o' o) as [->|N]; cbn [agg_power]; lia.
Qed.

(** C1. For every batch the loop of [stats] returns, and when it is over
    [totalPower] is the sum of the [power] of the five entries of
    [byOption]; for each turn of the loop either leaves the totals as they
    are or adds one and the same amount to [totalPower] and to the [power]
    of exactly one category. *)
Theorem stats_totalPower_is_sum (v : Variant) (rawHits : list Source) :
  (exists st : Stats,
      stats v rawHits = Ret st
      /\ totalPower st
         = agg_power (yes (byOption st)) + agg_power (no (byOption st))
           + agg_power (abstain (byOption st))
           + agg_power (veto (byOption st))
           + agg_power (unknown (byOption st)))
  /\ (forall (st : Stats) (s : Source),
        exists st' : Stats,
          step v st s = Ret st'
          /\ ((byOption st' = byOption st /\ totalPower st' = totalPower st)
              \/ exists (o : VoteOption) (p : Z),
                   totalPower st' = totalPower st + p
                   /\ forall o',
                        agg_power (getOpt o' (byOption st'))
                        = agg_power (getOpt o' (byOption st))
                          + (if VoteOption_eq_dec o' o then p else 0))).
Proof.
  split.
  - unfold stats. rewrite aggregate_fold. eexists. split; [reflexivity|].
    enough (I : forall st,
               totalPower st = sumOptionPower (byOption st) ->
               totalPower
                 (fold_left
                    (fun st s => applyContribution v (contribution v s) st)
                    rawHits st)
               = sumOptionPower
                   (byOption
                      (fold_left
                         (fun st s =>
                            applyContribution v (contribution v s) st)
                         rawHits st))).
    { rewrite (I initialStats eq_refl). unfold sumOptionPower, allOptions.
      cbn [fold_right getOpt]. lia. }
    induction rawHits as [|s l IH]; intros st H; [exact H|].
    cbn [fold_left]. apply IH. apply applyContribution_total. exact H.
  - intros st s. rewrite step_contribution. eexists. split; [reflexivity|].
    destruct (contribution v s) as [c|]; [|left; split; reflexivity].
    right. exists (c_option c), (c_power c).
    destruct (applyContribution_byOption v c st) as [-> ->].
    split; [reflexivity|]. apply agg_power_addToTotals.
Qed.

(** *** Per-voter maps *)

Section MapFacts.
Context {K V : Type}.
Variable eq_dec : forall a b : K, {a = b} + {a <> b}.

Lemma Map_get_set (k k' : K) (x : V) (m : list (K * V)) :
  Map_get eq_dec k (Map_set eq_dec k' x m)
  = if eq_dec k k' then Some x else Map_get eq_dec k m.
Proof.
  induction m as [|[k0 v0] m IH]; cbn [Map_set Map_get].
  - destruct (eq_dec k k'); reflexivity.
  - destruct (eq_dec k' k0) as [->|N]; cbn [Map_get].
    + destruct (eq_dec k k0); reflexivity.
    + destruct (eq_dec k k0) as [->|N'].
      * destruct (eq_dec k0 k'); [congruence | reflexivity].
      * exact IH.
Qed.
End MapFacts.

Lemma sumPower_Map_set (k : VoterKey) (x : VoterAccumulator)
  (m : list (VoterKey * VoterAccumulator)) :
  sumPower (Map_set VoterKey_eq_dec k x m)
  = sumPower m
    - power (nullish (Map_get VoterKey_eq_dec k m)
               {| stake := 0; power := 0; count := 0 |})
    + power x.
Proof.
  induction m as [|[k0 v0] m IH]; cbn [Map_set Map_get sumPower fold_right].
  - simpl. lia.
  - destruct (VoterKey_eq_dec k k0) as [->|N]; simpl.
    + lia.
    + fold (sumPower (Map_set VoterKey_eq_dec k x m)). fold (sumPower m).
      rewrite IH. lia.
Qed.

Lemma contribution_tracked (v : Variant) (s : Source) (c : Contribution) :
  trackedKind v (identifier s) = true ->
  contribution v s = Some c -> c_voter c <> None.
Proof.
  unfold trackedKind, contribution. intros T.
  destruct (nullish (topics s) []); [discriminate|].
  destruct (streq (identifier s) (lit "vote")).
  - rewrite T. intros [= <-]. discriminate.
  - destruct (streq (identifier s) (lit "delegateVote")); [|discriminate].
    intros [= <-]. discriminate.
Qed.

Lemma perCategoryAddresses_addToTotals (o : VoteOption) (p : Z)
  (st : Stats) :
  perCategoryAddresses (addToTotals o p st) = perCategoryAddresses st.
Proof.
  reflexivity.
Qed.

(** Per-voter power and power not recorded per voter account for the
    whole of every category. *)
Lemma fold_voter_power_account (v : Variant) (rawHits : list Source) :
  forall (st : Stats) (u : VoteOption -> Z),
    (forall o, sumPower (getOpt o (perCategoryAddresses st)) + u o
               = agg_power (getOpt o (byOption st))) ->
    forall o,
      sumPower
        (getOpt o
           (perCategoryAddresses
              (fold_left
                 (fun st s => applyContribution v (contribution v s) st)
                 rawHits st)))
      + (u o + untrackedPower v o rawHits)
      = agg_power
          (getOpt o
             (byOption
                (fold_left
                   (fun st s => applyContribution v (contribution v s) st)
                   rawHits st))).
Proof.
  induction rawHits as [|s l IH]; intros st u H o.
  - cbn [fold_left untrackedPower fold_right]. rewrite <- H. lia.
  - cbn [fold_left untrackedPower fold_right].
    fold (untrackedPower v o l).
    set (d := fun o' =>
                match contribution v s with
                | Some c =>
                    match c_voter c with
                    | None => if VoteOption_eq_dec o' (c_option c)
                              then c_power c else 0
                    | Some _ => 0
                    end
                | None => 0
                end).
    change (match contribution v s with
            | Some c =>
                match c_voter c with
                | None => if VoteOption_eq_dec o (c_option c)
                          then c_power c else 0
                | Some _ => 0
                end
            | None => 0
            end) with (d o).
    replace (u o + (d o + untrackedPower v o l))
      with ((u o + d o) + untrackedPower v o l) by lia.
    apply (IH (applyContribution v (contribution v s) st)
             (fun o' => u o' + d o')).
    clear o. intros o. unfold d.
    destruct (contribution v s) as [c|];
      [|cbn [applyContribution]; rewrite <- H; lia].
    unfold applyContribution.
    destruct (c_voter c) as [[k x]|].
    + assert (E : forall o',
                 sumPower (getOpt o' (perCategoryAddresses
                                        (addToVoter (c_option c) k x (c_power c)
                                           (addToTotals (c_option c) (c_power c)
                                              st))))
                 + u o'
                 = agg_power (getOpt o' (byOption
                                        (addToVoter (c_option c) k x (c_power c)
                                           (addToTotals (c_option c) (c_power c)
                                              st))))).
      { intros o'. unfold addToVoter.
        cbn [perCategoryAddresses byOption].
        rewrite agg_power_addToTotals, getOpt_setOpt.
        rewrite !perCategoryAddresses_addToTotals.
        destruct (VoteOption_eq_dec o' (c_option c)) as [->|N].
        - rewrite sumPower_Map_set. cbn [power]. rewrite <- H. lia.
        - rewrite <- H. lia. }
      destruct (c_label c); rewrite Z.add_0_r; apply E.
    + assert (E : sumPower (getOpt o (perCategoryAddresses
                                       (addToTotals (c_option c) (c_power c)
                                          st)))
                  + (u o + (if VoteOption_eq_dec o (c_option c)
                            then c_power c else 0))
                  = agg_power (getOpt o (byOption
                                       (addToTotals (c_option c) (c_power c)
                                          st)))).
      { rewrite agg_power_addToTotals, perCategoryAddresses_addToTotals.
        rewrite <- H. lia. }
      destruct (c_label c); apply E.
Qed.

Lemma untrackedPower_tracked (v : Variant) (o : VoteOption)
  (rawHits : list Source) :
  Forall (fun s => trackedKind v (identifier s) = true) rawHits ->
  untrackedPower v o rawHits = 0.
Proof.
  induction 1 as [|s l Hs Hl IH]; [reflexivity|].
  cbn [untrackedPower fold_right]. fold (untrackedPower v o l). rewrite IH.
  destruct (contribution v s) as [c|] eqn:C; [|reflexivity].
  pose proof (contribution_tracked v s c Hs C) as Hv.
  destruct (c_voter c); [reflexivity | congruence].
Qed.

(** C2. For every batch the loop returns, and in every category the
    [power] fields of the per-voter map together with the power of the
    events that were not recorded per voter add up to the [power] of the
    category's entry of [byOption].  So when every event of the batch is
    of a kind that the variant records per voter, the per-voter powers
    alone add up to the category total; in the per-address variant this
    is so for every batch. *)
Theorem stats_voter_power_closure (v : Variant) (rawHits : list Source) :
  exists st : Stats,
    stats v rawHits = Ret st
    /\ (forall o : VoteOption,
          sumPower (getOpt o (perCategoryAddresses st))
          + untrackedPower v o rawHits
          = agg_power (getOpt o (byOption st)))
    /\ (Forall (fun s => trackedKind v (identifier s) = true) rawHits ->
        forall o : VoteOption,
          sumPower (getOpt o (perCategoryAddresses st))
          = agg_power (getOpt o (byOption st)))
    /\ (v = PerAddress ->
        forall o : VoteOption,
          sumPower (getOpt o (perCategoryAddresses st))
          = agg_power (getOpt o (byOption st))).
Proof.
  unfold stats. rewrite aggregate_fold.
  eexists. split; [reflexivity|].
  assert (A : forall o,
             sumPower
               (getOpt o
                  (perCategoryAddresses
                     (fold_left
                        (fun st s =>
                           applyContribution v (contribution v s) st)
                        rawHits initialStats)))
             + untrackedPower v o rawHits
             = agg_power
                 (getOpt o
                    (byOption
                       (fold_left
                          (fun st s =>
                             applyContribution v (contribution v s) st)
                          rawHits initialStats)))).
  { intros o.
    rewrite <- (fold_voter_power_account v rawHits initialStats
                  (fun _ => 0)).
    - lia.
    - intros o'. destruct o'; reflexivity. }
  split; [exact A|].
  assert (B : Forall (fun s => trackedKind v (identifier s) = true) rawHits ->
              forall o,
                sumPower
                  (getOpt o
                     (perCategoryAddresses
                        (fold_left
                           (fun st s =>
                              applyContribution v (contribution v s) st)
                           rawHits initialStats)))
                = agg_power
                    (getOpt o
                       (byOption
                          (fold_left
                             (fun st s =>
                                applyContribution v (contribution v s) st)
                             rawHits initialStats)))).
  { intros T o. rewrite <- A, (untrackedPower_tracked v o rawHits T). lia. }
  split; [exact B|].
  intros -> . apply B. apply Forall_forall. intros s _.
  unfold trackedKind. destruct (streq (identifier s) (lit "vote")); reflexivity.
Qed.

(** *** Order of the events *)

Lemma voters_applyContribution (v : Variant) (c : Contribution) (st : Stats)
  (o : VoteOption) (k : VoterKey) :
  Map_get VoterKey_eq_dec k
    (getOpt o (perCategoryAddresses (applyContribution v (Some c) st)))
  = match c_voter c with
    | Some (k1, u) =>
        if VoteOption_eq_dec o (c_option c) then
          if VoterKey_eq_dec k k1 then
            Some (voterAfter
                    (Map_get VoterKey_eq_dec k1
                       (getOpt (c_option c) (perCategoryAddresses st)))
                    u (c_power c))
          else Map_get VoterKey_eq_dec k
                 (getOpt o (perCategoryAddresses st))
        else Map_get VoterKey_eq_dec k (getOpt o (perCategoryAddresses st))
    | None => Map_get VoterKey_eq_dec k (getOpt o (perCategoryAddresses st))
    end.
Proof.
  unfold applyContribution.
  destruct (c_voter c) as [[k1 u]|], (c_label c);
    cbn [addToDelegation addToVoter addToTotals perCategoryAddresses];
    try reflexivity;
    rewrite getOpt_setOpt;
    (destruct (VoteOption_eq_dec o (c_option c)) as [->|N];
     [rewrite Map_get_set; reflexivity | reflexivity]).
Qed.

Lemma delegation_applyContribution (v : Variant) (c : Contribution)
  (st : Stats) (l : Label) :
  Map_get Label_eq_dec l
    (delegationBreakdown (applyContribution v (Some c) st))
  = match c_label c with
    | Some l1 =>
        if Label_eq_dec l l1 then
          Some (nullish (Map_get Label_eq_dec l1 (delegationBreakdown st)) 0
                + c_power c)
        else Map_get Label_eq_dec l (delegationBreakdown st)
    | None => Map_get Label_eq_dec l (delegationBreakdown st)
    end.
Proof.
  unfold applyContribution.
  destruct (c_voter c) as [[k1 u]|], (c_label c);
    cbn [addToDelegation addToVoter addToTotals delegationBreakdown];
    try reflexivity; apply Map_get_set.
Qed.

Lemma delegationCount_applyContribution (v : Variant) (c : Contribution)
  (st : Stats) (l : Label) :
  Map_get Label_eq_dec l
    (delegationCountBreakdown (applyContribution v (Some c) st))
  = match c_label c, v with
    | Some l1, PerAddress =>
        if Label_eq_dec l l1 then
          Some (nullish (Map_get Label_eq_dec l1
                           (delegationCountBreakdown st)) 0 + 1)
        else Map_get Label_eq_dec l (delegationCountBreakdown st)
    | _, _ => Map_get Label_eq_dec l (delegationCountBreakdown st)
    end.
Proof.
  unfold applyContribution.
  destruct (c_voter c) as [[k1 u]|], (c_label c), v;
    cbn [addToDelegation addToVoter addToTotals delegationCountBreakdown];
    try reflexivity; apply Map_get_set.
Qed.

Lemma byOption_addToTotals_comm (o1 o2 : VoteOption) (p1 p2 : Z)
  (st : Stats) :
  byOption (addToTotals o1 p1 (addToTotals o2 p2 st))
  = byOption (addToTotals o2 p2 (addToTotals o1 p1 st)).
Proof.
  unfold addToTotals. cbn [byOption].
  destruct o1, o2; cbn; f_equal; try reflexivity; f_equal; lia.
Qed.

Lemma byOption_addToTotals_ext (o : VoteOption) (p : Z) (a b : Stats) :
  byOption a = byOption b ->
  byOption (addToTotals o p a) = byOption (addToTotals o p b).
Proof.
  intros H. unfold addToTotals. cbn [byOption]. rewrite H. reflexivity.
Qed.

Lemma voterAfter_comm (x : option VoterAccumulator) (u1 p1 u2 p2 : Z) :
  voterAfter (Some (voterAfter x u1 p1)) u2 p2
  = voterAfter (Some (voterAfter x u2 p2)) u1 p1.
Proof.
  unfold voterAfter. cbn. f_equal; lia.
Qed.

Lemma sameContents_refl (a : Stats) : sameContents a a.
Proof.
  repeat split.
Qed.

Lemma sameContents_trans (a b c : Stats) :
  sameContents a b -> sameContents b c -> sameContents a c.
Proof.
  intros (A1 & A2 & A3 & A4 & A5) (B1 & B2 & B3 & B4 & B5).
  repeat split; intros; congruence.
Qed.

(** Adding a contribution to two states with the same contents gives
    states with the same contents. *)
Lemma applyContribution_sameContents (v : Variant) (c : option Contribution)
  (a b : Stats) :
  sameContents a b ->
  sameContents (applyContribution v c a) (applyContribution v c b).
Proof.
  intros H. destruct c as [c|]; [|exact H].
  destruct H as (H1 & H2 & H3 & H4 & H5).
  split; [|split; [|split; [|split]]].
  - destruct (applyContribution_byOption v c a) as [-> _].
    destruct (applyContribution_byOption v c b) as [-> _].
    unfold addToTotals. cbn [byOption]. rewrite H1. reflexivity.
  - destruct (applyContribution_byOption v c a) as [_ ->].
    destruct (applyContribution_byOption v c b) as [_ ->].
    rewrite H2. reflexivity.
  - intros o k. rewrite !voters_applyContribution.
    destruct (c_voter c) as [[k1 u]|]; rewrite ?H3; reflexivity.
  - intros l. rewrite !delegation_applyContribution.
    destruct (c_label c); rewrite ?H4; reflexivity.
  - intros l. rewrite !delegationCount_applyContribution.
    destruct (c_label c), v; rewrite ?H5; reflexivity.
Qed.

(** Two contributions can be added in either order. *)
Lemma applyContribution_comm (v : Variant) (c1 c2 : option Contribution)
  (st : Stats) :
  sameContents (applyContribution v c1 (applyContribution v c2 st))
    (applyContribution v c2 (applyContribution v c1 st)).
Proof.
  destruct c1 as [c1|]; [|apply sameContents_refl].
  destruct c2 as [c2|]; [|apply sameContents_refl].
  split; [|split; [|split; [|split]]].
  - rewrite (proj1 (applyContribution_byOption v c1 _)).
    rewrite (proj1 (applyContribution_byOption v c2 _)).
    rewrite (byOption_addToTotals_ext _ _ _ _
               (proj1 (applyContribution_byOption v c2 st))).
    rewrite (byOption_addToTotals_ext _ _ _ _
               (proj1 (applyContribution_byOption v c1 st))).
    apply byOption_addToTotals_comm.
  - rewrite !(proj2 (applyContribution_byOption v _ _)). lia.
  - intros o k.
    destruct (c_voter c1) as [[k1 u1]|] eqn:V1,
             (c_voter c2) as [[k2 u2]|] eqn:V2;
      repeat (rewrite voters_applyContribution; rewrite ?V1, ?V2);
      try reflexivity.
    repeat match goal with
           | |- context [VoteOption_eq_dec ?a ?b] =>
               destruct (VoteOption_eq_dec a b)
           | |- context [VoterKey_eq_dec ?a ?b] =>
               destruct (VoterKey_eq_dec a b)
           end;
      try congruence;
      f_equal; rewrite voterAfter_comm; congruence.
  - intros l.
    destruct (c_label c1) as [l1|] eqn:L1, (c_label c2) as [l2|] eqn:L2;
      repeat (rewrite delegation_applyContribution; rewrite ?L1, ?L2);
      try reflexivity.
    repeat match goal with
           | |- context [Label_eq_dec ?a ?b] => destruct (Label_eq_dec a b)
           end;
      try congruence;
      subst; cbn [nullish]; f_equal; lia.
  - intros l.
    destruct (c_label c1) as [l1|] eqn:L1, (c_label c2) as [l2|] eqn:L2, v;
      repeat (rewrite delegationCount_applyContribution; rewrite ?L1, ?L2);
      try reflexivity.
    repeat match goal with
           | |- context [Label_eq_dec ?a ?b] => destruct (Label_eq_dec a b)
           end;
      try congruence;
      subst; cbn [nullish]; f_equal; lia.
Qed.

Lemma fold_sameContents (v : Variant) (l : list Source) :
  forall a b : Stats,
    sameContents a b ->
    sameContents
      (fold_left (fun st s => applyContribution v (contribution v s) st) l a)
      (fold_left (fun st s => applyContribution v (contribution v s) st) l b).
Proof.
  induction l as [|s l IH]; intros a b H; [exact H|].
  cbn [fold_left]. apply IH. apply applyContribution_sameContents. exact H.
Qed.

Lemma fold_permutation (v : Variant) (l l' : list Source) :
  Permutation l l' ->
  forall st : Stats,
    sameContents
      (fold_left (fun st s => applyContribution v (contribution v s) st) l st)
      (fold_left (fun st s => applyContribution v (contribution v s) st) l'
         st).
Proof.
  induction 1 as [| x l l' P IH | x y l | l l' l'' P1 IH1 P2 IH2]; intros st.
  - apply sameContents_refl.
  - cbn [fold_left]. apply IH.
  - cbn [fold_left]. apply fold_sameContents. apply applyContribution_comm.
  - eapply sameContents_trans; [apply IH1 | apply IH2].
Qed.

(** *** Keys of a map are never repeated *)

Section MapKeys.
Context {K V : Type}.
Variable eq_dec : forall a b : K, {a = b} + {a <> b}.

Lemma Map_set_keys (k k' : K) (x : V) (m : list (K * V)) :
  In k (map fst (Map_set eq_dec k' x m)) <-> k = k' \/ In k (map fst m).
Proof.
  induction m as [|[k0 v0] m IH]; cbn [Map_set map fst In].
  - intuition congruence.
  - destruct (eq_dec k' k0) as [->|N]; cbn [map fst In].
    + intuition congruence.
    + rewrite IH. intuition congruence.
Qed.

Lemma Map_set_NoDup (k : K) (x : V) (m : list (K * V)) :
  NoDup (map fst m) -> NoDup (map fst (Map_set eq_dec k x m)).
Proof.
  induction m as [|[k0 v0] m IH]; cbn [Map_set map fst]; intros H.
  - repeat constructor. intros [].
  - inversion H as [|? ? Hn Hm]; subst.
    destruct (eq_dec k k0) as [->|N]; cbn [map fst].
    + constructor; assumption.
    + constructor; [|auto].
      rewrite Map_set_keys. intuition congruence.
Qed.

Lemma Map_get_In (k : K) (x : V) (m : list (K * V)) :
  NoDup (map fst m) -> (In (k, x) m <-> Map_get eq_dec k m = Some x).
Proof.
  induction m as [|[k0 v0] m IH]; cbn [map fst In Map_get]; intros H.
  - split; [intros [] | discriminate].
  - inversion H as [|? ? Hn Hm]; subst.
    destruct (eq_dec k k0) as [->|N].
    + split.
      * intros [E|E]; [congruence|].
        exfalso. apply Hn. apply (in_map fst) in E. exact E.
      * intros [= ->]. left. reflexivity.
    + rewrite <- (IH Hm). split.
      * intros [E|E]; [congruence | exact E].
      * intros E. right. exact E.
Qed.

(** Two maps with the same lookups hold the same entries. *)
Lemma same_lookups_Permutation (m m' : list (K * V)) :
  NoDup (map fst m) -> NoDup (map fst m') ->
  (forall k, Map_get eq_dec k m = Map_get eq_dec k m') ->
  Permutation m m'.
Proof.
  intros N N' H.
  apply NoDup_Permutation.
  - eapply NoDup_map_inv. exact N.
  - eapply NoDup_map_inv. exact N'.
  - intros [k x]. rewrite (Map_get_In k x m N), (Map_get_In k x m' N'), H.
    reflexivity.
Qed.
End MapKeys.

Lemma applyContribution_keysDistinct (v : Variant) (c : option Contribution)
  (st : Stats) :
  keysDistinct st -> keysDistinct (applyContribution v c st).
Proof.
  intros (H1 & H2 & H3). destruct c as [c|]; [|repeat split; assumption].
  unfold applyContribution.
  destruct (c_voter c) as [[k u]|], (c_label c) as [l|], v;
    unfold addToDelegation, addToVoter, addToTotals;
    (split; [|split]);
    cbn [perCategoryAddresses delegationBreakdown delegationCountBreakdown];
    try assumption; try (apply Map_set_NoDup; assumption);
    intros o; rewrite getOpt_setOpt;
    (destruct (VoteOption_eq_dec o (c_option c));
     [apply Map_set_NoDup; apply H1 | apply H1]).
Qed.

Lemma fold_keysDistinct (v : Variant) (l : list Source) :
  forall st : Stats,
    keysDistinct st ->
    keysDistinct
      (fold_left (fun st s => applyContribution v (contribution v s) st) l
         st).
Proof.
  induction l as [|s l IH]; intros st H; [exact H|].
  cbn [fold_left]. apply IH. apply applyContribution_keysDistinct. exact H.
Qed.

Lemma initialStats_keysDistinct : keysDistinct initialStats.
Proof.
  split; [intros o; destruct o; constructor|]. split; constructor.
Qed.

(** C3. Running the loop on a permutation of a batch gives the same
    [byOption] (count and power of every option), the same [totalPower],
    the same contents of every per-category voter map (the same value
    under every key, hence the same entries) and the same contents of the
    delegation maps. *)
Theorem stats_order_independent (v : Variant) (rawHits rawHits' : list Source) :
  Permutation rawHits rawHits' ->
  exists st st' : Stats,
    stats v rawHits = Ret st
    /\ stats v rawHits' = Ret st'
    /\ byOption st = byOption st'
    /\ totalPower st = totalPower st'
    /\ (forall o k,
          Map_get VoterKey_eq_dec k (getOpt o (perCategoryAddresses st))
          = Map_get VoterKey_eq_dec k (getOpt o (perCategoryAddresses st')))
    /\ (forall o,
          Permutation (getOpt o (perCategoryAddresses st))
            (getOpt o (perCategoryAddresses st')))
    /\ (forall l, Map_get Label_eq_dec l (delegationBreakdown st)
                  = Map_get Label_eq_dec l (delegationBreakdown st'))
    /\ Permutation (delegationBreakdown st) (delegationBreakdown st')
    /\ (forall l, Map_get Label_eq_dec l (delegationCountBreakdown st)
                  = Map_get Label_eq_dec l (delegationCountBreakdown st'))
    /\ Permutation (delegationCountBreakdown st)
         (delegationCountBreakdown st').
Proof.
  intros P. unfold stats. rewrite !aggregate_fold.
  do 2 eexists. split; [reflexivity|]. split; [reflexivity|].
  destruct (fold_permutation v rawHits rawHits' P initialStats)
    as (S1 & S2 & S3 & S4 & S5).
  destruct (fold_keysDistinct v rawHits initialStats
              initialStats_keysDistinct) as (N1 & N2 & N3).
  destruct (fold_keysDistinct v rawHits' initialStats
              initialStats_keysDistinct) as (N1' & N2' & N3').
  repeat (split; [assumption|]).
  split.
  { intros o. apply (same_lookups_Permutation VoterKey_eq_dec); auto. }
  split; [assumption|].
  split; [apply (same_lookups_Permutation Label_eq_dec); auto|].
  split; [assumption|].
  apply (same_lookups_Permutation Label_eq_dec); auto.
Qed.

(** ** Ranker *)

Lemma compareRows_rankGe (v : Variant) (a b : Row) :
  compareRows v a b <= 0 <-> rankGe v a b.
Proof.
  unfold compareRows, rankGe, keyGe, rankKey. destruct v; cbn [fst snd].
  - lia.
  - destruct (Z.eqb_spec (row_stake a) (row_stake b)); lia.
Qed.

Lemma rankGe_total (v : Variant) (a b : Row) : rankGe v a b \/ rankGe v b a.
Proof.
  unfold rankGe, keyGe, rankKey. destruct v; cbn [fst snd]; lia.
Qed.

Lemma rankGe_trans (v : Variant) (a b c : Row) :
  rankGe v a b -> rankGe v b c -> rankGe v a c.
Proof.
  unfold rankGe, keyGe, rankKey. destruct v; cbn [fst snd]; lia.
Qed.

Lemma insertRow_Permutation (cmp : Row -> Row -> Z) (x : Row) (l : list Row) :
  Permutation (x :: l) (insertRow cmp x l).
Proof.
  induction l as [|y l IH]; cbn [insertRow]; [reflexivity|].
  destruct (cmp x y <=? 0); [reflexivity|].
  rewrite perm_swap. apply perm_skip. exact IH.
Qed.

Lemma sortRows_Permutation (cmp : Row -> Row -> Z) (l : list Row) :
  Permutation l (sortRows cmp l).
Proof.
  induction l as [|x l IH]; cbn; [reflexivity|].
  rewrite <- insertRow_Permutation. apply perm_skip. exact IH.
Qed.

Lemma insertRow_sorted (v : Variant) (x : Row) (l : list Row) :
  StronglySorted (rankGe v) l ->
  StronglySorted (rankGe v) (insertRow (compareRows v) x l).
Proof.
  induction 1 as [|y l Hs IH Hy]; cbn [insertRow].
  - repeat constructor.
  - destruct (Z.leb_spec (compareRows v x y) 0) as [L|L].
    + apply compareRows_rankGe in L.
      constructor; [constructor; assumption|].
      constructor; [assumption|].
      eapply Forall_impl; [|exact Hy].
      intros z Hz. eapply rankGe_trans; eassumption.
    + assert (G : rankGe v y x).
      { destruct (rankGe_total v x y) as [G|G]; [|exact G].
        apply compareRows_rankGe in G. lia. }
      constructor; [exact IH|].
      rewrite <- (insertRow_Permutation (compareRows v) x l).
      constructor; assumption.
Qed.

Lemma sortRows_sorted (v : Variant) (l : list Row) :
  StronglySorted (rankGe v) (sortRows (compareRows v) l).
Proof.
  induction l as [|x l IH]; cbn; [constructor|].
  apply insertRow_sorted. exact IH.
Qed.

Lemma firstn_In {A : Type} (n : nat) (l : list A) (z : A) :
  In z (firstn n l) -> In z l.
Proof.
  intros H. rewrite <- (firstn_skipn n l). apply in_or_app. left. exact H.
Qed.

Lemma skipn_In {A : Type} (n : nat) (l : list A) (z : A) :
  In z (skipn n l) -> In z l.
Proof.
  intros H. rewrite <- (firstn_skipn n l). apply in_or_app. right. exact H.
Qed.

(** A sorted list splits into a sorted head and a tail ranked below it. *)
Lemma sorted_firstn (v : Variant) (n : nat) (l : list Row) :
  StronglySorted (rankGe v) l ->
  StronglySorted (rankGe v) (firstn n l)
  /\ Forall (fun r' => Forall (fun r => rankGe v r r') (firstn n l))
       (skipn n l).
Proof.
  intros H. revert n. induction H as [|x l Hs IH Hx]; intros n.
  - rewrite firstn_nil, skipn_nil. split; constructor.
  - destruct n as [|n]; cbn [firstn skipn].
    + split; [constructor|].
      apply Forall_forall. intros; constructor.
    + destruct (IH n) as [I1 I2]. split.
      * constructor; [exact I1|].
        rewrite Forall_forall in Hx |- *.
        intros z Hz. apply Hx. eapply firstn_In; eassumption.
      * rewrite Forall_forall in I2, Hx |- *.
        intros r' Hr'. constructor; [|apply I2; exact Hr'].
        apply Hx. eapply skipn_In; eassumption.
Qed.

(** C9. [topPerCategory] returns at most 50 rows, sorted non-increasing by
    the ranking key of the variant ([power]; or [stake], then [power]);
    the rows are the 50 first of the sorted rows of the category's map,
    the rows left out rank no higher than any row returned, and a map
    with at most 50 voters is returned whole. *)
Theorem topPerCategory_bounded_sorted
  (v : Variant) (st : Stats) (opt : VoteOption) :
  let rows := map toRow (getOpt opt (perCategoryAddresses st)) in
  let top := topPerCategory v st opt in
  (List.length top <= 50)%nat
  /\ List.length top = Nat.min 50 (List.length rows)
  /\ StronglySorted (rankGe v) top
  /\ (exists rest,
        Permutation rows (top ++ rest)
        /\ Forall (fun r' => Forall (fun r => rankGe v r r') top) rest)
  /\ ((List.length rows <= 50)%nat -> Permutation rows top).
Proof.
  intros rows top.
  pose proof (sortRows_Permutation (compareRows v) rows) as P.
  pose proof (sortRows_sorted v rows) as S.
  destruct (sorted_firstn v 50 _ S) as [S1 S2].
  assert (L : List.length top = Nat.min 50 (List.length rows)).
  { unfold top, topPerCategory. fold rows.
    rewrite length_firstn, <- (Permutation_length P). reflexivity. }
  split; [lia|]. split; [exact L|]. split; [exact S1|].
  split.
  - exists (skipn 50 (sortRows (compareRows v) rows)).
    split; [|exact S2].
    unfold top, topPerCategory. fold rows.
    rewrite firstn_skipn. exact P.
  - intros Hl. unfold top, topPerCategory. fold rows.
    rewrite firstn_all2; [exact P|].
    rewrite <- (Permutation_length P). exact Hl.
Qed.

Lemma topPerCategory_bounded_sorted_witness :
  (List.length (map toRow (getOpt Yes (perCategoryAddresses sampleStats)))
   <= 50)%nat
  /\ Permutation (map toRow (getOpt Yes (perCategoryAddresses sampleStats)))
       (topPerCategory PerAddress sampleStats Yes).
Proof.
  assert (L : (List.length
                 (map toRow (getOpt Yes (perCategoryAddresses sampleStats)))
               <= 50)%nat) by (vm_compute; lia).
  split; [exact L|].
  destruct (topPerCategory_bounded_sorted PerAddress sampleStats Yes)
    as (_ & _ & _ & _ & H).
  exact (H L).
Defined.

(** ** The checksum register *)

Lemma lxor_range (a b n : Z) :
  0 < n -> 0 <= a < 2 ^ n -> 0 <= b < 2 ^ n -> 0 <= Z.lxor a b < 2 ^ n.
Proof.
  intros Hn Ha Hb.
  assert (N : 0 <= Z.lxor a b) by (apply Z.lxor_nonneg; lia).
  split; [exact N|].
  destruct (Z.eq_dec (Z.lxor a b) 0) as [->|Hz];
    [apply Z.pow_pos_nonneg; lia|].
  apply Z.log2_lt_pow2; [lia|].
  pose proof (Z.log2_lxor a b ltac:(lia) ltac:(lia)) as L.
  assert (La : Z.log2 a < n).
  { destruct (Z.eq_dec a 0) as [->|]; [simpl; lia|].
    apply Z.log2_lt_pow2; lia. }
  assert (Lb : Z.log2 b < n).
  { destruct (Z.eq_dec b 0) as [->|]; [simpl; lia|].
    apply Z.log2_lt_pow2; lia. }
  lia.
Qed.

Lemma xor_small (a b : Z) :
  0 <= a < 2 ^ 30 -> 0 <= b < 2 ^ 30 ->
  Int32.xor a b = Z.lxor a b /\ 0 <= Z.lxor a b < 2 ^ 30.
Proof.
  intros Ha Hb. unfold Int32.xor. rewrite !wrap_small by lia.
  split; [reflexivity | apply lxor_range; lia].
Qed.

Lemma land_lxor_distr (a b c : Z) :
  Z.land (Z.lxor a b) c = Z.lxor (Z.land a c) (Z.land b c).
Proof.
  apply Z.bits_inj'. intros n Hn.
  rewrite !Z.land_spec, !Z.lxor_spec, !Z.land_spec. btauto.
Qed.

(** [((b >> i) & 1) !== 0] tests bit [i] of [b]. *)
Lemma bit_test (b i : Z) :
  0 <= b < 2 ^ 31 -> 0 <= i < 32 ->
  negb (Int32.and (Int32.sar b i) 1 =? 0) = Z.testbit b i.
Proof.
  intros Hb Hi. unfold Int32.and, Int32.sar.
  rewrite (wrap_small b) by lia. rewrite (Z.mod_small i 32) by lia.
  rewrite Z.shiftr_div_pow2 by lia.
  assert (P : 0 < 2 ^ i) by (apply Z.pow_pos_nonneg; lia).
  assert (Q : 0 <= b / 2 ^ i <= b).
  { split; [apply Z.div_pos; lia|].
    apply Z.div_le_upper_bound; [lia|]. nia. }
  rewrite (wrap_small (b / 2 ^ i)) by lia.
  rewrite (wrap_small 1) by lia.
  change 1 with (Z.ones 1) at 1. rewrite Z.land_ones by lia.
  change (2 ^ 1) with 2.
  rewrite <- Z.testbit_spec' by lia.
  destruct (Z.testbit b i); reflexivity.
Qed.

Lemma GENERATORS_range (i : nat) : 0 <= nth i GENERATORS 0 < 2 ^ 30.
Proof.
  do 5 (destruct i as [|i]; [cbn; lia|]). destruct i; cbn; lia.
Qed.

Lemma generatorTerm_range (i b : Z) : 0 <= generatorTerm i b < 2 ^ 30.
Proof.
  unfold generatorTerm. destruct (Z.testbit b i); [|lia].
  apply GENERATORS_range.
Qed.

Lemma generatorMix_range (b : Z) : 0 <= generatorMix b < 2 ^ 30.
Proof.
  unfold generatorMix.
  repeat (apply lxor_range; [lia | | apply generatorTerm_range]).
  apply generatorTerm_range.
Qed.

(** One conditional [chk ^= GENERATORS[i]]. *)
Lemma generator_turn (a b i : Z) :
  0 <= a < 2 ^ 30 -> 0 <= b < 2 ^ 31 -> 0 <= i < 32 ->
  (if negb (Int32.and (Int32.sar b i) 1 =? 0)
   then Int32.xor a (nth (Z.to_nat i) GENERATORS 0) else a)
  = Z.lxor a (generatorTerm i b)
  /\ 0 <= Z.lxor a (generatorTerm i b) < 2 ^ 30.
Proof.
  intros Ha Hb Hi. rewrite bit_test by assumption.
  unfold generatorTerm. destruct (Z.testbit b i).
  - apply xor_small; [assumption | apply GENERATORS_range].
  - rewrite Z.lxor_0_r. split; [reflexivity | assumption].
Qed.

Lemma polymodPure_range (c v : Z) :
  0 <= c < 2 ^ 30 -> 0 <= v < 2 ^ 30 -> 0 <= polymodPure c v < 2 ^ 30.
Proof.
  intros Hc Hv. unfold polymodPure.
  apply lxor_range; [lia | | apply generatorMix_range].
  apply lxor_range; [lia | | assumption].
  change 0x1ffffff with (Z.ones 25). rewrite Z.land_ones by lia.
  rewrite Z.shiftl_mul_pow2 by lia.
  pose proof (Z.mod_pos_bound c (2 ^ 25) ltac:(lia)). lia.
Qed.

(** On a 30-bit register and a 30-bit symbol, the 32-bit operators of
    [bech32Polymod] never wrap: a turn of its loop is a turn of the
    register. *)
Lemma polymodStep_pure (c v : Z) :
  0 <= c < 2 ^ 30 -> 0 <= v < 2 ^ 30 -> polymodStep c v = polymodPure c v.
Proof.
  intros Hc Hv. unfold polymodStep.
  assert (Hb : Int32.sar c 25 = Z.shiftr c 25).
  { unfold Int32.sar. rewrite wrap_small by lia. reflexivity. }
  assert (Rb : 0 <= Z.shiftr c 25 < 2 ^ 31).
  { rewrite Z.shiftr_div_pow2 by lia. split; [apply Z.div_pos; lia|].
    apply Z.div_lt_upper_bound; lia. }
  assert (Hx : Int32.and c 0x1ffffff = Z.land c 0x1ffffff).
  { unfold Int32.and. rewrite !wrap_small by lia. reflexivity. }
  assert (Rx : 0 <= Z.land c 0x1ffffff < 2 ^ 25).
  { change 0x1ffffff with (Z.ones 25). rewrite Z.land_ones by lia.
    apply Z.mod_pos_bound. lia. }
  assert (Hs : Int32.shl (Z.land c 0x1ffffff) 5
               = Z.shiftl (Z.land c 0x1ffffff) 5).
  { unfold Int32.shl. rewrite (wrap_small (Z.land c 0x1ffffff)) by lia.
    change (5 mod 32) with 5. apply wrap_small.
    rewrite Z.shiftl_mul_pow2 by lia. lia. }
  assert (Rs : 0 <= Z.shiftl (Z.land c 0x1ffffff) 5 < 2 ^ 30)
    by (rewrite Z.shiftl_mul_pow2 by lia; lia).
  rewrite Hb, Hx, Hs.
  destruct (xor_small _ v Rs Hv) as [-> R0].
  set (a0 := Z.lxor (Z.shiftl (Z.land c 0x1ffffff) 5) v) in *.
  set (b := Z.shiftr c 25) in *.
  cbn [fold_left].
  destruct (generator_turn a0 b 0 R0 Rb ltac:(lia)) as [-> R1].
  destruct (generator_turn _ b 1 R1 Rb ltac:(lia)) as [-> R2].
  destruct (generator_turn _ b 2 R2 Rb ltac:(lia)) as [-> R3].
  destruct (generator_turn _ b 3 R3 Rb ltac:(lia)) as [-> R4].
  destruct (generator_turn _ b 4 R4 Rb ltac:(lia)) as [-> R5].
  unfold polymodPure, generatorMix. fold a0 b.
  apply Z.bits_inj'. intros n Hn. rewrite !Z.lxor_spec. btauto.
Qed.

Lemma generatorTerm_lxor (i b1 b2 : Z) :
  0 <= i ->
  generatorTerm i (Z.lxor b1 b2)
  = Z.lxor (generatorTerm i b1) (generatorTerm i b2).
Proof.
  intros Hi. unfold generatorTerm. rewrite Z.lxor_spec.
  destruct (Z.testbit b1 i), (Z.testbit b2 i); cbn [xorb].
  - symmetry. apply Z.lxor_nilpotent.
  - symmetry. apply Z.lxor_0_r.
  - symmetry. apply Z.lxor_0_l.
  - reflexivity.
Qed.

(** The register is linear over exclusive or. *)
Lemma polymodPure_lxor (c1 c2 v1 v2 : Z) :
  polymodPure (Z.lxor c1 c2) (Z.lxor v1 v2)
  = Z.lxor (polymodPure c1 v1) (polymodPure c2 v2).
Proof.
  unfold polymodPure, generatorMix.
  rewrite Z.shiftr_lxor, !generatorTerm_lxor by lia.
  rewrite land_lxor_distr, Z.shiftl_lxor.
  apply Z.bits_inj'. intros n Hn. rewrite !Z.lxor_spec. btauto.
Qed.

Lemma polymodPure_zero_register (e : Z) : polymodPure 0 e = e.
Proof.
  unfold polymodPure. cbn. apply Z.lxor_0_r.
Qed.

Lemma below_In (n : nat) (b : Z) :
  0 <= b < Z.of_nat n -> In b (map Z.of_nat (seq 0 n)).
Proof.
  intros H. apply in_map_iff. exists (Z.to_nat b).
  split; [lia|]. apply in_seq. lia.
Qed.

(** No non-zero choice of the five top bits selects generators whose low
    five bits cancel. *)
Lemma generatorMix_low_bits (b : Z) :
  0 <= b < 32 -> generatorMix b mod 32 = 0 -> b = 0.
Proof.
  intros Hb H.
  assert (C : forallb (fun b => negb (generatorMix b mod 32 =? 0) || (b =? 0))
                (map Z.of_nat (seq 0 32)) = true) by (vm_compute; reflexivity).
  rewrite forallb_forall in C.
  specialize (C b (below_In 32 b ltac:(lia))).
  rewrite H in C. cbn in C. apply Z.eqb_eq. exact C.
Qed.

(** A turn on a zero symbol sends no non-zero register to zero. *)
Lemma polymodPure_kernel (e : Z) :
  0 <= e < 2 ^ 30 -> polymodPure e 0 = 0 -> e = 0.
Proof.
  intros He H. unfold polymodPure in H.
  rewrite Z.lxor_0_r in H. apply Z.lxor_eq in H.
  assert (Rb : 0 <= Z.shiftr e 25 < 32).
  { rewrite Z.shiftr_div_pow2 by lia. split; [apply Z.div_pos; lia|].
    apply Z.div_lt_upper_bound; lia. }
  assert (B : Z.shiftr e 25 = 0).
  { apply generatorMix_low_bits; [exact Rb|].
    rewrite <- H. rewrite Z.shiftl_mul_pow2 by lia.
    change (2 ^ 5) with 32. apply Z.mod_mul. lia. }
  rewrite B in H. change (generatorMix 0) with 0 in H.
  rewrite Z.shiftl_mul_pow2 in H by lia.
  change 0x1ffffff with (Z.ones 25) in H. rewrite Z.land_ones in H by lia.
  rewrite Z.shiftr_div_pow2 in B by lia.
  pose proof (Z.div_mod e (2 ^ 25) ltac:(lia)). lia.
Qed.

Lemma zeroTurns_range (n : nat) (e : Z) :
  0 <= e < 2 ^ 30 -> 0 <= zeroTurns n e < 2 ^ 30.
Proof.
  intros He. induction n as [|n IH]; [exact He|].
  cbn [zeroTurns Nat.iter]. apply polymodPure_range; [exact IH | lia].
Qed.

Lemma zeroTurns_nonzero (n : nat) (e : Z) :
  0 <= e < 2 ^ 30 -> e <> 0 -> zeroTurns n e <> 0.
Proof.
  intros He Hz. induction n as [|n IH]; [exact Hz|].
  cbn [zeroTurns Nat.iter]. intros H. apply IH.
  apply polymodPure_kernel; [apply zeroTurns_range; exact He | exact H].
Qed.

Lemma zeroTurns_succ (n : nat) (e : Z) :
  zeroTurns (S n) e = zeroTurns n (polymodPure e 0).
Proof.
  unfold zeroTurns. rewrite Nat.iter_succ_r. reflexivity.
Qed.

Lemma polymodFrom_range (l : list Z) :
  Forall (fun s => 0 <= s < 2 ^ 30) l ->
  forall c, 0 <= c < 2 ^ 30 -> 0 <= polymodFrom c l < 2 ^ 30.
Proof.
  induction 1 as [|v l Hv Hl IH]; intros c Hc; [exact Hc|].
  unfold polymodFrom in *. cbn [fold_left].
  rewrite polymodStep_pure by assumption.
  apply IH. apply polymodPure_range; assumption.
Qed.

(** A difference [e] in the register travels through the remaining
    symbols as through zero symbols. *)
Lemma polymodFrom_lxor (l : list Z) :
  Forall (fun s => 0 <= s < 2 ^ 30) l ->
  forall c e,
    0 <= c < 2 ^ 30 -> 0 <= e < 2 ^ 30 ->
    polymodFrom (Z.lxor c e) l
    = Z.lxor (polymodFrom c l) (zeroTurns (List.length l) e).
Proof.
  induction 1 as [|v l Hv Hl IH]; intros c e Hc He; [reflexivity|].
  unfold polymodFrom in *. cbn [fold_left List.length].
  rewrite zeroTurns_succ.
  rewrite !polymodStep_pure by (try apply lxor_range; assumption || lia).
  rewrite <- (Z.lxor_0_r v) at 1. rewrite polymodPure_lxor.
  apply IH; apply polymodPure_range; assumption || lia.
Qed.

Lemma flipBit_range (w : Z) (i : nat) (k : Z) (l : list Z) :
  0 <= k < w ->
  Forall (fun s => 0 <= s < 2 ^ w) l ->
  Forall (fun s => 0 <= s < 2 ^ w) (flipBit i k l).
Proof.
  intros Hk H. revert i.
  induction H as [|v l Hv Hl IH]; intros i; [destruct i; constructor|].
  destruct i as [|i]; cbn [flipBit]; constructor; auto.
  apply lxor_range; [lia | assumption |].
  split; [apply Z.pow_nonneg; lia | apply Z.pow_lt_mono_r; lia].
Qed.

(** Flipping one bit of one symbol changes the register by that bit,
    carried through the symbols that follow. *)
Lemma polymodFrom_flipBit (l : list Z) :
  Forall (fun s => 0 <= s < 2 ^ 30) l ->
  forall (i : nat) (k c : Z),
    (i < List.length l)%nat -> 0 <= k < 30 -> 0 <= c < 2 ^ 30 ->
    polymodFrom c (flipBit i k l)
    = Z.lxor (polymodFrom c l)
        (zeroTurns (List.length l - 1 - i) (2 ^ k)).
Proof.
  induction 1 as [|v l Hv Hl IH]; intros i k c Hi Hk Hc;
    [simpl in Hi; lia|].
  assert (Rk : 0 <= 2 ^ k < 2 ^ 30)
    by (split; [apply Z.pow_nonneg; lia | apply Z.pow_lt_mono_r; lia]).
  destruct i as [|i]; cbn [flipBit List.length].
  - replace (S (List.length l) - 1 - 0)%nat with (List.length l) by lia.
    unfold polymodFrom. cbn [fold_left].
    rewrite !polymodStep_pure
      by (try apply lxor_range; assumption || lia).
    rewrite <- (Z.lxor_0_r c) at 1. rewrite polymodPure_lxor.
    rewrite polymodPure_zero_register.
    apply (polymodFrom_lxor l Hl);
      [apply polymodPure_range; assumption | exact Rk].
  - replace (S (List.length l) - 1 - S i)%nat
      with (List.length l - 1 - i)%nat by lia.
    unfold polymodFrom. cbn [fold_left].
    rewrite polymodStep_pure by assumption.
    apply IH; [simpl in Hi; lia | exact Hk |].
    apply polymodPure_range; assumption.
Qed.

Lemma and_sar_31 (m j : Z) :
  0 <= j -> j + 5 <= 32 ->
  Int32.and (Int32.sar m j) 31 = (m / 2 ^ j) mod 2 ^ 5.
Proof.
  intros Hj Hs.
  exact (and_sar_maxv m m j 5 ltac:(lia) Hj Hs eq_refl).
Qed.

(** A 30-bit value is determined by its six five-bit symbols. *)
Lemma six_symbols_inj (m m' : Z) :
  0 <= m < 2 ^ 30 -> 0 <= m' < 2 ^ 30 ->
  map (fun p => Int32.and (Int32.sar m (5 * (5 - p))) 31) [0; 1; 2; 3; 4; 5]
  = map (fun p => Int32.and (Int32.sar m' (5 * (5 - p))) 31)
      [0; 1; 2; 3; 4; 5] ->
  m = m'.
Proof.
  intros Hm Hm' H. cbn [map] in H.
  change (5 * (5 - 0)) with 25 in H. change (5 * (5 - 1)) with 20 in H.
  change (5 * (5 - 2)) with 15 in H. change (5 * (5 - 3)) with 10 in H.
  change (5 * (5 - 4)) with 5 in H. change (5 * (5 - 5)) with 0 in H.
  rewrite !and_sar_31 in H by lia.
  injection H as H25 H20 H15 H10 H5 H0.
  assert (D : forall x, 0 <= x < 2 ^ 30 ->
                x = (x / 2 ^ 25) mod 2 ^ 5 * 2 ^ 25
                    + (x / 2 ^ 20) mod 2 ^ 5 * 2 ^ 20
                    + (x / 2 ^ 15) mod 2 ^ 5 * 2 ^ 15
                    + (x / 2 ^ 10) mod 2 ^ 5 * 2 ^ 10
                    + (x / 2 ^ 5) mod 2 ^ 5 * 2 ^ 5
                    + (x / 2 ^ 0) mod 2 ^ 5).
  { intros x Hx.
    pose proof (Z.div_mod x (2 ^ 5) ltac:(lia)) as E0.
    pose proof (Z.div_mod (x / 2 ^ 5) (2 ^ 5) ltac:(lia)) as E1.
    pose proof (Z.div_mod (x / 2 ^ 10) (2 ^ 5) ltac:(lia)) as E2.
    pose proof (Z.div_mod (x / 2 ^ 15) (2 ^ 5) ltac:(lia)) as E3.
    pose proof (Z.div_mod (x / 2 ^ 20) (2 ^ 5) ltac:(lia)) as E4.
    pose proof (Z.div_mod (x / 2 ^ 25) (2 ^ 5) ltac:(lia)) as E5.
    rewrite Z.div_div in E1, E2, E3, E4, E5 by lia.
    change (2 ^ 5 * 2 ^ 5) with (2 ^ 10) in E1.
    change (2 ^ 10 * 2 ^ 5) with (2 ^ 15) in E2.
    change (2 ^ 15 * 2 ^ 5) with (2 ^ 20) in E3.
    change (2 ^ 20 * 2 ^ 5) with (2 ^ 25) in E4.
    change (2 ^ 25 * 2 ^ 5) with (2 ^ 30) in E5.
    rewrite (Z.div_small x (2 ^ 30)) in E5 by lia.
    rewrite Z.pow_0_r, Z.div_1_r. lia. }
  pose proof (D m Hm) as Em. pose proof (D m' Hm') as Em'.
  change (Z.pow_pos 2 25) with (2 ^ 25) in *.
  change (Z.pow_pos 2 20) with (2 ^ 20) in *.
  change (Z.pow_pos 2 15) with (2 ^ 15) in *.
  change (Z.pow_pos 2 10) with (2 ^ 10) in *.
  change (Z.pow_pos 2 5) with (2 ^ 5) in *.
  rewrite ?Z.pow_0_r in *.
  rewrite H25, H20, H15, H10, H5, H0 in Em. lia.
Qed.

(** Distinct symbols have distinct alphabet characters. *)
Lemma symbolChar_inj (a b : Z) :
  0 <= a < 32 -> 0 <= b < 32 -> symbolChar a = symbolChar b -> a = b.
Proof.
  intros Ha Hb H.
  assert (A : forallb
                (fun a =>
                   forallb
                     (fun b => negb (symbolChar a =? symbolChar b)
                               || (a =? b))
                     (map Z.of_nat (seq 0 32)))
                (map Z.of_nat (seq 0 32)) = true)
    by (vm_compute; reflexivity).
  rewrite forallb_forall in A.
  specialize (A a (below_In 32 a ltac:(lia))).
  rewrite forallb_forall in A.
  specialize (A b (below_In 32 b ltac:(lia))).
  rewrite H, Z.eqb_refl in A. cbn [negb orb] in A.
  apply Z.eqb_eq. exact A.
Qed.

Lemma map_symbolChar_inj (l1 l2 : list Z) :
  Forall (fun s => 0 <= s < 32) l1 -> Forall (fun s => 0 <= s < 32) l2 ->
  map symbolChar l1 = map symbolChar l2 -> l1 = l2.
Proof.
  intros F1. revert l2.
  induction F1 as [|x l1 Hx F1 IH]; intros l2 F2 E;
    destruct F2 as [|y l2 Hy F2]; try discriminate; [reflexivity|].
  pose proof (f_equal (hd 0) E) as Exy.
  pose proof (f_equal (@tl Z) E) as E'.
  cbn [map hd tl] in Exy, E'.
  f_equal; [apply symbolChar_inj; assumption | apply IH; assumption].
Qed.

(** Flipping one bit of one symbol changes the checksum: at least one of
    the six checksum symbols, and so one of the six checksum characters,
    differs.  The list may have any length. *)
Lemma checksum_flipBit_differs (data : list Z) (i : nat) (k : Z) :
  Forall (fun s => 0 <= s < 32) data ->
  (i < List.length data)%nat ->
  0 <= k < 5 ->
  bech32CreateChecksum (lit "erd") (flipBit i k data)
  <> bech32CreateChecksum (lit "erd") data
  /\ map symbolChar (bech32CreateChecksum (lit "erd") (flipBit i k data))
     <> map symbolChar (bech32CreateChecksum (lit "erd") data).
Proof.
  intros Hd Hi Hk.
  assert (Hd30 : Forall (fun s => 0 <= s < 2 ^ 30) data).
  { eapply Forall_impl; [|exact Hd]. intros s Hs. cbv beta in Hs. lia. }
  assert (Hf30 : Forall (fun s => 0 <= s < 2 ^ 30) (flipBit i k data))
    by (apply (flipBit_range 30); [lia | exact Hd30]).
  set (c0 := polymodFrom 1 (bech32HrpExpand (lit "erd"))).
  assert (Rc0 : 0 <= c0 < 2 ^ 30).
  { unfold c0. apply polymodFrom_range; [|lia].
    change (bech32HrpExpand (lit "erd")) with [3; 3; 3; 0; 5; 18; 4].
    repeat constructor; lia. }
  assert (Z6 : Forall (fun s => 0 <= s < 2 ^ 30) [0; 0; 0; 0; 0; 0])
    by (repeat constructor; lia).
  assert (P : forall d,
             bech32Polymod (bech32HrpExpand (lit "erd") ++ d
                            ++ [0; 0; 0; 0; 0; 0])
             = polymodFrom (polymodFrom c0 d) [0; 0; 0; 0; 0; 0]).
  { intros d. unfold bech32Polymod, polymodFrom, c0.
    rewrite !fold_left_app. reflexivity. }
  set (m := polymodFrom (polymodFrom c0 data) [0; 0; 0; 0; 0; 0]).
  set (delta0 := zeroTurns (List.length data - 1 - i) (2 ^ k)).
  assert (Rk : 0 <= 2 ^ k < 2 ^ 30)
    by (split; [apply Z.pow_nonneg; lia | apply Z.pow_lt_mono_r; lia]).
  assert (Rd0 : 0 <= delta0 < 2 ^ 30) by (apply zeroTurns_range; exact Rk).
  assert (Nd0 : delta0 <> 0).
  { apply zeroTurns_nonzero; [exact Rk|].
    apply Z.pow_nonzero; lia. }
  assert (Rp : 0 <= polymodFrom c0 data < 2 ^ 30)
    by (apply polymodFrom_range; assumption).
  assert (Rm : 0 <= m < 2 ^ 30) by (apply polymodFrom_range; assumption).
  assert (M' : polymodFrom (polymodFrom c0 (flipBit i k data))
                 [0; 0; 0; 0; 0; 0]
               = Z.lxor m (zeroTurns 6 delta0)).
  { rewrite (polymodFrom_flipBit data Hd30 i k c0 Hi ltac:(lia) Rc0).
    fold delta0.
    apply (polymodFrom_lxor [0; 0; 0; 0; 0; 0] Z6); assumption. }
  set (delta := zeroTurns 6 delta0) in *.
  assert (Rd : 0 <= delta < 2 ^ 30) by (apply zeroTurns_range; exact Rd0).
  assert (Nd : delta <> 0) by (apply zeroTurns_nonzero; assumption).
  assert (S : bech32CreateChecksum (lit "erd") (flipBit i k data)
              <> bech32CreateChecksum (lit "erd") data).
  { unfold bech32CreateChecksum. rewrite !P, M'. fold m.
    pose proof (lxor_range m delta 30 ltac:(lia) Rm Rd) as Rmd.
    destruct (xor_small m 1 Rm ltac:(lia)) as [-> R1].
    destruct (xor_small (Z.lxor m delta) 1 Rmd ltac:(lia)) as [-> R2].
    intros E. apply six_symbols_inj in E; [|assumption|assumption].
    apply Nd.
    assert (X : Z.lxor (Z.lxor (Z.lxor m delta) 1) (Z.lxor m 1) = 0)
      by (rewrite E; apply Z.lxor_nilpotent).
    rewrite <- X.
    apply Z.bits_inj'. intros n Hn. rewrite !Z.lxor_spec. btauto. }
  split; [exact S|].
  intros E. apply S.
  apply map_symbolChar_inj;
    [apply bech32CreateChecksum_symbols .. | exact E].
Qed.

(** *** Bits of the payload and bits of the symbols *)

Lemma add_low_bits_lxor (x v k : Z) :
  0 <= k -> x mod 2 ^ k = 0 -> 0 <= v < 2 ^ k -> x + v = Z.lxor x v.
Proof.
  intros Hk Hx Hv.
  rewrite <- (lor_low_bits x v k Hk Hx Hv).
  symmetry. apply Z.lxor_lor.
  apply Z.bits_inj'. intros n Hn.
  rewrite Z.land_spec, Z.bits_0.
  destruct (Z.lt_ge_cases n k) as [Hlt|Hge].
  - rewrite <- (Z.mod_pow2_bits_low x k n) by lia.
    rewrite Hx, Z.bits_0. reflexivity.
  - rewrite <- (Z.mod_small v (2 ^ k)) by lia.
    rewrite Z.mod_pow2_bits_high by lia. apply andb_false_r.
Qed.

Lemma shift_add_lxor (w m e v : Z) :
  0 <= w -> 0 <= v < 2 ^ w ->
  Z.lxor m e * 2 ^ w + v = Z.lxor (m * 2 ^ w + v) (e * 2 ^ w).
Proof.
  intros Hw Hv.
  rewrite (add_low_bits_lxor (Z.lxor m e * 2 ^ w) v w Hw)
    by (try apply Z.mod_mul; try apply Z.pow_nonzero; lia).
  rewrite (add_low_bits_lxor (m * 2 ^ w) v w Hw)
    by (try apply Z.mod_mul; try apply Z.pow_nonzero; lia).
  rewrite <- !Z.shiftl_mul_pow2 by lia. rewrite Z.shiftl_lxor.
  apply Z.bits_inj'. intros n Hn. rewrite !Z.lxor_spec. btauto.
Qed.

Lemma appended_lxor (w : Z) (vals : list Z) :
  0 <= w ->
  Forall (fun v => 0 <= v < 2 ^ w) vals ->
  forall m e,
    appended w (Z.lxor m e) vals
    = Z.lxor (appended w m vals)
        (e * 2 ^ (w * Z.of_nat (List.length vals))).
Proof.
  intros Hw. induction 1 as [|v l Hv Hl IH]; intros m e.
  - cbn. rewrite Z.mul_0_r, Z.pow_0_r, Z.mul_1_r. reflexivity.
  - unfold appended in *. cbn [fold_left List.length].
    rewrite (shift_add_lxor w m e v Hw Hv), IH.
    f_equal. rewrite <- Z.mul_assoc, <- Z.pow_add_r by lia.
    do 2 f_equal. lia.
Qed.

(** Flipping bit [k] of the [i]-th of [n] values flips bit
    [w * (n - 1 - i) + k] of the bit string. *)
Lemma appended_flipBit (w : Z) (vals : list Z) :
  0 <= w ->
  Forall (fun v => 0 <= v < 2 ^ w) vals ->
  forall (i : nat) (k m : Z),
    (i < List.length vals)%nat -> 0 <= k < w ->
    appended w m (flipBit i k vals)
    = Z.lxor (appended w m vals)
        (2 ^ (w * Z.of_nat (List.length vals - 1 - i) + k)).
Proof.
  intros Hw. induction 1 as [|v l Hv Hl IH]; intros i k m Hi Hk;
    [simpl in Hi; lia|].
  destruct i as [|i]; cbn [flipBit List.length].
  - replace (S (List.length l) - 1 - 0)%nat with (List.length l) by lia.
    assert (Rk : 0 <= 2 ^ k < 2 ^ w)
      by (split; [apply Z.pow_nonneg; lia | apply Z.pow_lt_mono_r; lia]).
    assert (Rv : 0 <= Z.lxor v (2 ^ k) < 2 ^ w).
    { destruct (Z.eq_dec w 0); [lia|]. apply lxor_range; lia. }
    unfold appended. cbn [fold_left].
    fold (appended w (m * 2 ^ w + Z.lxor v (2 ^ k)) l).
    fold (appended w (m * 2 ^ w + v) l).
    assert (E : m * 2 ^ w + Z.lxor v (2 ^ k)
                = Z.lxor (m * 2 ^ w + v) (2 ^ k)).
    { rewrite (add_low_bits_lxor (m * 2 ^ w) _ w Hw)
        by (try apply Z.mod_mul; try apply Z.pow_nonzero; lia).
      rewrite (add_low_bits_lxor (m * 2 ^ w) v w Hw)
        by (try apply Z.mod_mul; try apply Z.pow_nonzero; lia).
      symmetry. apply Z.lxor_assoc. }
    rewrite E, (appended_lxor w l Hw Hl).
    f_equal. rewrite <- Z.pow_add_r by lia. f_equal. lia.
  - replace (S (List.length l) - 1 - S i)%nat
      with (List.length l - 1 - i)%nat by lia.
    unfold appended. cbn [fold_left].
    apply (IH i k (m * 2 ^ w + v)); [simpl in Hi; lia | exact Hk].
Qed.

Lemma flipBit_app_l (i : nat) (k : Z) (l r : list Z) :
  (i < List.length l)%nat -> flipBit i k (l ++ r) = flipBit i k l ++ r.
Proof.
  revert i. induction l as [|x l IH]; intros i Hi; [simpl in Hi; lia|].
  destruct i as [|i]; cbn [flipBit app]; [reflexivity|].
  rewrite IH by (simpl in Hi; lia). reflexivity.
Qed.

Lemma flipBit_app_last (k : Z) (l : list Z) (x : Z) :
  flipBit (List.length l) k (l ++ [x]) = l ++ [Z.lxor x (2 ^ k)].
Proof.
  induction l as [|y l IH]; cbn [flipBit app List.length]; [reflexivity|].
  rewrite IH. reflexivity.
Qed.

(** Flipping bit [m] of a number flips bit [m mod w] of one of its
    base-[2^w] digits. *)
Lemma digits_flip (w : Z) (k : nat) :
  0 < w ->
  forall x m,
    0 <= m < w * Z.of_nat k ->
    digits w k (Z.lxor x (2 ^ m))
    = flipBit (k - 1 - Z.to_nat (m / w)) (m mod w) (digits w k x).
Proof.
  intros Hw. induction k as [|k IH]; intros x m Hm; [lia|].
  cbn [digits].
  assert (P : 0 < 2 ^ w) by (apply Z.pow_pos_nonneg; lia).
  destruct (Z.lt_ge_cases m w) as [Hlt|Hge].
  - rewrite (Z.div_small m w), (Z.mod_small m w) by lia.
    replace (S k - 1 - Z.to_nat 0)%nat with k by lia.
    rewrite <- (digits_length w k (x / 2 ^ w)) at 2.
    rewrite flipBit_app_last. f_equal.
    + f_equal. rewrite <- !Z.shiftr_div_pow2 by lia.
      rewrite Z.shiftr_lxor. rewrite (Z.shiftr_div_pow2 (2 ^ m)) by lia.
      rewrite (Z.div_small (2 ^ m)), Z.lxor_0_r; [reflexivity|].
      split; [apply Z.pow_nonneg; lia | apply Z.pow_lt_mono_r; lia].
    + f_equal. rewrite <- !Z.land_ones by lia.
      rewrite land_lxor_distr. f_equal.
      rewrite Z.land_ones by lia. apply Z.mod_small.
      split; [apply Z.pow_nonneg; lia | apply Z.pow_lt_mono_r; lia].
  - assert (Dm : m / w = (m - w) / w + 1).
    { replace m with ((m - w) + 1 * w) at 1 by lia.
      rewrite Z.div_add by lia. reflexivity. }
    assert (Mm : m mod w = (m - w) mod w).
    { replace m with ((m - w) + 1 * w) at 1 by lia.
      rewrite Z.mod_add by lia. reflexivity. }
    assert (Q : 0 <= (m - w) / w < Z.of_nat k).
    { split; [apply Z.div_pos; lia|].
      apply Z.div_lt_upper_bound; lia. }
    assert (E1 : Z.lxor x (2 ^ m) / 2 ^ w
                 = Z.lxor (x / 2 ^ w) (2 ^ (m - w))).
    { rewrite <- !Z.shiftr_div_pow2 by lia. rewrite Z.shiftr_lxor.
      f_equal. rewrite Z.shiftr_div_pow2 by lia.
      rewrite <- Z.pow_sub_r by lia. reflexivity. }
    assert (E2 : Z.lxor x (2 ^ m) mod 2 ^ w = x mod 2 ^ w).
    { rewrite <- !Z.land_ones by lia. rewrite land_lxor_distr.
      rewrite (Z.land_ones (2 ^ m)) by lia.
      replace (2 ^ m) with (2 ^ (m - w) * 2 ^ w)
        by (rewrite <- Z.pow_add_r by lia; f_equal; lia).
      rewrite Z.mod_mul by lia. apply Z.lxor_0_r. }
    rewrite E1, E2, (IH _ (m - w)) by lia.
    rewrite Dm, Mm.
    replace (S k - 1 - Z.to_nat ((m - w) / w + 1))%nat
      with (k - 1 - Z.to_nat ((m - w) / w))%nat by lia.
    rewrite flipBit_app_l; [reflexivity|].
    rewrite digits_length. lia.
Qed.

Lemma flipBit_length (i : nat) (k : Z) (l : list Z) :
  List.length (flipBit i k l) = List.length l.
Proof.
  revert i. induction l as [|x l IH]; intros i; [destruct i; reflexivity|].
  destruct i as [|i]; cbn [flipBit List.length]; [reflexivity|].
  rewrite IH. reflexivity.
Qed.

Lemma convertBits_payload (payload : list Z) :
  List.length payload = 32%nat ->
  Forall (fun x => 0 <= x < 2 ^ 8) payload ->
  convertBits (map Int payload) 8 5 true
  = Ret (Some (digits 5 52 (bigEndian 8 payload * 2 ^ 4))).
Proof.
  intros Hl Hp.
  rewrite convertBits_bytes.
  - assert (N : existsb ltZero (map Int payload) = false).
    { clear Hl. induction Hp as [|x l Hx Hp IH]; [reflexivity|].
      cbn [map existsb ltZero]. rewrite IH.
      destruct (Z.ltb_spec x 0); [lia | reflexivity]. }
    rewrite N. unfold fiveBitSymbols.
    rewrite map_map. cbn [intOf]. rewrite map_id. reflexivity.
  - apply Forall_map. eapply Forall_impl; [|exact Hp].
    intros x Hx. cbv beta in Hx. cbn [intOf]. change (2 ^ 8) with 256 in Hx.
    lia.
  - rewrite length_map. exact Hl.
Qed.

(** C8. Flipping any single bit of a 32-byte payload flips exactly one
    bit of one of the 52 five-bit symbols [convertBits] returns, and
    flipping any single bit of any symbol of a symbol list changes at
    least one of the six symbols [bech32CreateChecksum] computes, hence at
    least one of the six checksum characters. *)
Theorem checksum_single_bit_sensitive
  (payload : list Z) (j : nat) (b : Z) (data : list Z) (i : nat) (k : Z) :
  List.length payload = 32%nat ->
  Forall (fun x => 0 <= x < 2 ^ 8) payload ->
  (j < 32)%nat -> 0 <= b < 8 ->
  Forall (fun s => 0 <= s < 32) data ->
  (i < List.length data)%nat -> 0 <= k < 5 ->
  (exists five five' : list Z,
      convertBits (map Int payload) 8 5 true = Ret (Some five)
      /\ convertBits (map Int (flipBit j b payload)) 8 5 true
         = Ret (Some five')
      /\ List.length five = 52%nat
      /\ (exists (i' : nat) (k' : Z),
            (i' < 52)%nat /\ 0 <= k' < 5 /\ five' = flipBit i' k' five)
      /\ bech32CreateChecksum (lit "erd") five'
         <> bech32CreateChecksum (lit "erd") five
      /\ map symbolChar (bech32CreateChecksum (lit "erd") five')
         <> map symbolChar (bech32CreateChecksum (lit "erd") five))
  /\ bech32CreateChecksum (lit "erd") (flipBit i k data)
     <> bech32CreateChecksum (lit "erd") data
  /\ map symbolChar (bech32CreateChecksum (lit "erd") (flipBit i k data))
     <> map symbolChar (bech32CreateChecksum (lit "erd") data).
Proof.
  intros Hl Hp Hj Hb Hd Hi Hk.
  split; [|apply checksum_flipBit_differs; assumption].
  set (n := bigEndian 8 payload).
  set (t := 8 * Z.of_nat (32 - 1 - j) + b).
  assert (Rt : 0 <= t < 256) by (unfold t; lia).
  assert (F : bigEndian 8 (flipBit j b payload) = Z.lxor n (2 ^ t)).
  { unfold bigEndian, n, t. fold (appended 8 0 (flipBit j b payload)).
    fold (appended 8 0 payload).
    rewrite (appended_flipBit 8 payload ltac:(lia) Hp j b 0) by lia.
    rewrite Hl. reflexivity. }
  assert (G : Z.lxor n (2 ^ t) * 2 ^ 4 = Z.lxor (n * 2 ^ 4) (2 ^ (t + 4))).
  { rewrite <- !Z.shiftl_mul_pow2 by lia. rewrite Z.shiftl_lxor.
    f_equal. rewrite Z.shiftl_mul_pow2 by lia.
    rewrite <- Z.pow_add_r by lia. reflexivity. }
  set (five := digits 5 52 (n * 2 ^ 4)).
  set (i' := (52 - 1 - Z.to_nat ((t + 4) / 5))%nat).
  set (k' := (t + 4) mod 5).
  assert (Rk' : 0 <= k' < 5) by (apply Z.mod_pos_bound; lia).
  assert (Ri' : (i' < 52)%nat) by (unfold i'; lia).
  exists five, (flipBit i' k' five).
  split; [apply convertBits_payload; assumption|].
  split.
  { rewrite convertBits_payload.
    - rewrite F, G. unfold five, i', k'.
      rewrite (digits_flip 5 52 ltac:(lia)) by lia. reflexivity.
    - rewrite flipBit_length. exact Hl.
    - apply (flipBit_range 8); [lia | exact Hp]. }
  split; [apply digits_length|].
  split; [exists i', k'; repeat split; assumption || lia|].
  apply checksum_flipBit_differs.
  - apply (digits_range 5). lia.
  - unfold five. rewrite digits_length. exact Ri'.
  - exact Rk'.
Qed.

Lemma checksum_single_bit_sensitive_witness :
  List.length (repeat 0 32) = 32%nat
  /\ Forall (fun x => 0 <= x < 2 ^ 8) (repeat 0 32)
  /\ (0 < 32)%nat /\ 0 <= 7 < 8
  /\ Forall (fun s => 0 <= s < 32) [0; 31]
  /\ (1 < List.length [0; 31])%nat /\ 0 <= 4 < 5
  /\ bech32CreateChecksum (lit "erd") (flipBit 1 4 [0; 31])
     <> bech32CreateChecksum (lit "erd") [0; 31].
Proof.
  assert (F1 : Forall (fun x => 0 <= x < 2 ^ 8) (repeat 0 32))
    by (apply Forall_forall; intros x Hx; apply repeat_spec in Hx; subst; lia).
  assert (F2 : Forall (fun s => 0 <= s < 32) [0; 31])
    by (repeat constructor; lia).
  split; [reflexivity|]. split; [exact F1|].
  split; [lia|]. split; [lia|]. split; [exact F2|].
  split; [simpl; lia|]. split; [lia|].
  exact (proj1 (proj2 (checksum_single_bit_sensitive (repeat 0 32) 0 7
                         [0; 31] 1 4 eq_refl F1 ltac:(lia) ltac:(lia) F2
                         ltac:(simpl; lia) ltac:(lia)))).
Defined.

(* ================================================================== *)
(** ** What the loop accumulates *)

Lemma sumOver_app f v l1 l2 :
  sumOver f v (l1 ++ l2) = sumOver f v l1 + sumOver f v l2.
Proof.
  unfold sumOver. rewrite map_app.
  induction (map _ l1) as [|x l IH]; cbn [app fold_right]; lia.
Qed.

Lemma fold_left_snoc {A B} (f : A -> B -> A) l x a :
  fold_left f (l ++ [x]) a = f (fold_left f l a) x.
Proof. rewrite fold_left_app. reflexivity. Qed.

Lemma hexToBigInt_nonneg hex : 0 <= hexToBigInt hex.
Proof.
  unfold hexToBigInt. destruct hex as [s|]; [|lia].
  destruct (falsy (Some s)); [lia|].
  match goal with
  | |- 0 <= match BigInt0x ?h with _ => _ end => set (hh := h)
  end.
  unfold BigInt0x.
  destruct (rev (dropWhile isStrWhiteSpaceChar (rev hh))) as [|c r]; [lia|].
  destruct (forallb isHexDigit (c :: r)); [|lia].
  pose proof (hexValue_bound _ (proj1 (hexPrefix_digits (c :: r)))). lia.
Qed.

Lemma contribution_nonneg v s c :
  contribution v s = Some c ->
  0 <= c_power c
  /\ match c_voter c with Some (_, u) => 0 <= u | None => True end.
Proof.
  unfold contribution.
  destruct (nullish (topics s) []); [discriminate|].
  destruct (streq (identifier s) (lit "vote")).
  - intros [= <-]. cbn. split; [apply hexToBigInt_nonneg|].
    destruct (tracksVote v); [apply hexToBigInt_nonneg | exact I].
  - destruct (streq (identifier s) (lit "delegateVote")); [|discriminate].
    intros [= <-]. cbn. split; apply hexToBigInt_nonneg.
Qed.

(** The totals after the loop, as sums over the batch. *)
Lemma fold_totals (v : Variant) (rawHits : list Source) :
  let st := fold_left (fun st s => applyContribution v (contribution v s) st)
              rawHits initialStats in
  totalPower st = sumOver c_power v rawHits
  /\ forall o,
      agg_option (getOpt o (byOption st)) = o
      /\ agg_count (getOpt o (byOption st)) = sumOver (inCategory o) v rawHits
      /\ agg_power (getOpt o (byOption st))
         = sumOver (fun c => inCategory o c * c_power c) v rawHits.
Proof.
  induction rawHits as [|s l IH] using rev_ind.
  - cbn. split; [reflexivity|]. intros o; destruct o; repeat split.
  - cbv zeta in *. rewrite fold_left_snoc, !sumOver_app.
    destruct IH as [IH1 IH2].
    set (st := fold_left _ l initialStats) in *.
    unfold sumOver at 2. cbn [map fold_right].
    split.
    + destruct (contribution v s) as [c|]; [|cbn [applyContribution]; lia].
      rewrite (proj2 (applyContribution_byOption v c st)). lia.
    + intros o. destruct (IH2 o) as (I1 & I2 & I3).
      rewrite !sumOver_app. unfold sumOver at 2 4. cbn [map fold_right].
      destruct (contribution v s) as [c|];
        [|cbn [applyContribution]; repeat split; try assumption; lia].
      rewrite (proj1 (applyContribution_byOption v c st)).
      unfold addToTotals. cbn [byOption]. rewrite getOpt_setOpt.
      assert (E : inCategory o c
                  = if VoteOption_eq_dec o (c_option c) then 1 else 0)
        by reflexivity.
      rewrite E.
      destruct (VoteOption_eq_dec o (c_option c)) as [Eo|N];
        [subst o|];
        cbn [agg_option agg_count agg_power];
        repeat split; try assumption; lia.
Qed.

Lemma contribution_isCounted (v : Variant) (s : Source) :
  match contribution v s with
  | Some c => isCounted s = true
              /\ c_option c
                 = decodeOption (nth_error (nullish (topics s) []) 1)
  | None => isCounted s = false
  end.
Proof.
  unfold contribution, isCounted.
  destruct (nullish (topics s) []) as [|t0 t]; [reflexivity|].
  destruct (streq (identifier s) (lit "vote")); [split; reflexivity|].
  destruct (streq (identifier s) (lit "delegateVote")); [split|]; reflexivity.
Qed.

Lemma sumOver_count (p : Contribution -> bool) (v : Variant)
  (l : list Source) :
  sumOver (fun c => if p c then 1 else 0) v l
  = Z.of_nat
      (List.length
         (filter (fun s => match contribution v s with
                           | Some c => p c
                           | None => false
                           end) l)).
Proof.
  unfold sumOver. induction l as [|s l IH]; [reflexivity|].
  cbn [map fold_right filter]. rewrite IH.
  destruct (contribution v s) as [c|]; [|lia].
  destruct (p c); cbn [List.length]; lia.
Qed.

Lemma five_way_filter {A : Type} (p : A -> bool) (g : A -> VoteOption)
  (l : list A) :
  (List.length
     (filter (fun s => p s && if VoteOption_eq_dec Yes (g s)
                              then true else false) l)
   + List.length
       (filter (fun s => p s && if VoteOption_eq_dec No (g s)
                                then true else false) l)
   + List.length
       (filter (fun s => p s && if VoteOption_eq_dec Abstain (g s)
                                then true else false) l)
   + List.length
       (filter (fun s => p s && if VoteOption_eq_dec Veto (g s)
                                then true else false) l)
   + List.length
       (filter (fun s => p s && if VoteOption_eq_dec Unknown (g s)
                                then true else false) l)
   = List.length (filter p l))%nat.
Proof.
  induction l as [|s l IH]; [reflexivity|].
  cbn [filter]. destruct (p s); cbn [andb]; [|exact IH].
  destruct (g s);
    repeat match goal with
           | |- context [VoteOption_eq_dec ?a ?b] =>
               destruct (VoteOption_eq_dec a b); try congruence
           end;
    cbn [List.length]; lia.
Qed.

(** X1. After the loop the [count] of every category is the number of
    events of the batch that the loop counts (a topic, and identifier
    [vote] or [delegateVote]) and whose option topic decodes to that
    category; the entry under a key keeps that key as its [option]; and
    the five counts add up to the number of counted events. *)
Theorem stats_counts_events (v : Variant) (rawHits : list Source) :
  exists st : Stats,
    stats v rawHits = Ret st
    /\ (forall o : VoteOption,
          agg_option (getOpt o (byOption st)) = o
          /\ agg_count (getOpt o (byOption st))
             = Z.of_nat
                 (List.length
                    (filter
                       (fun s =>
                          isCounted s
                          && if VoteOption_eq_dec o
                                  (decodeOption
                                     (nth_error (nullish (topics s) []) 1))
                             then true else false)
                       rawHits)))
    /\ agg_count (yes (byOption st)) + agg_count (no (byOption st))
       + agg_count (abstain (byOption st)) + agg_count (veto (byOption st))
       + agg_count (unknown (byOption st))
       = Z.of_nat (List.length (filter isCounted rawHits)).
Proof.
  unfold stats. rewrite aggregate_fold. eexists. split; [reflexivity|].
  destruct (fold_totals v rawHits) as [_ T]. cbv zeta in T.
  assert (A : forall o,
             sumOver (inCategory o) v rawHits
             = Z.of_nat
                 (List.length
                    (filter
                       (fun s =>
                          isCounted s
                          && if VoteOption_eq_dec o
                                  (decodeOption
                                     (nth_error (nullish (topics s) []) 1))
                             then true else false)
                       rawHits))).
  { intros o.
    transitivity
      (sumOver (fun c => if (if VoteOption_eq_dec o (c_option c)
                             then true else false) then 1 else 0)
         v rawHits).
    { unfold sumOver, inCategory. f_equal. apply map_ext. intros s.
      destruct (contribution v s) as [c|]; [|reflexivity].
      destruct (VoteOption_eq_dec o (c_option c)); reflexivity. }
    rewrite sumOver_count.
    do 2 f_equal. apply filter_ext. intros s.
    pose proof (contribution_isCounted v s) as C.
    destruct (contribution v s) as [c|].
    - destruct C as [-> <-]. reflexivity.
    - rewrite C. reflexivity. }
  split.
  - intros o. destruct (T o) as (T1 & T2 & _). split; [exact T1|].
    rewrite T2. apply A.
  - pose proof (T Yes) as (_ & Y & _). pose proof (T No) as (_ & N & _).
    pose proof (T Abstain) as (_ & Ab & _). pose proof (T Veto) as (_ & Ve & _).
    pose proof (T Unknown) as (_ & U & _). cbn [getOpt] in *.
    rewrite Y, N, Ab, Ve, U, !A. rewrite <- !Nat2Z.inj_add. f_equal.
    apply five_way_filter.
Qed.

(** X2. The totals of two batches run one after the other are the sums
    of the totals of each run alone: [totalPower], and the [count] and
    [power] of every category. *)
Theorem stats_totals_additive (v : Variant) (batch1 batch2 : list Source) :
  exists st1 st2 st : Stats,
    stats v batch1 = Ret st1
    /\ stats v batch2 = Ret st2
    /\ stats v (batch1 ++ batch2) = Ret st
    /\ totalPower st = totalPower st1 + totalPower st2
    /\ forall o : VoteOption,
        agg_count (getOpt o (byOption st))
        = agg_count (getOpt o (byOption st1))
          + agg_count (getOpt o (byOption st2))
        /\ agg_power (getOpt o (byOption st))
           = agg_power (getOpt o (byOption st1))
             + agg_power (getOpt o (byOption st2)).
Proof.
  unfold stats. rewrite !aggregate_fold. do 3 eexists.
  do 3 (split; [reflexivity|]).
  destruct (fold_totals v batch1) as [P1 T1].
  destruct (fold_totals v batch2) as [P2 T2].
  destruct (fold_totals v (batch1 ++ batch2)) as [P T].
  cbv zeta in *. split.
  - rewrite P, P1, P2. apply sumOver_app.
  - intros o. destruct (T o) as (_ & -> & ->).
    destruct (T1 o) as (_ & -> & ->). destruct (T2 o) as (_ & -> & ->).
    split; apply sumOver_app.
Qed.

(** X3. Events the loop does not count (no topic, or an identifier other
    than [vote] and [delegateVote]) leave every accumulator as it is:
    running the loop on the counted events alone gives the same
    result. *)
Theorem stats_ignores_uncounted (v : Variant) (rawHits : list Source) :
  stats v (filter isCounted rawHits) = stats v rawHits.
Proof.
  unfold stats. rewrite !aggregate_fold. f_equal.
  generalize initialStats.
  induction rawHits as [|s l IH]; intros st; [reflexivity|].
  cbn [filter fold_left].
  pose proof (contribution_isCounted v s) as C.
  destruct (contribution v s) as [c|] eqn:E.
  - destruct C as [-> _]. cbn [fold_left]. rewrite E. apply IH.
  - rewrite C. cbn [applyContribution]. apply IH.
Qed.

Lemma sumOver_nonneg (f : Contribution -> Z) (v : Variant) (l : list Source) :
  (forall s c, contribution v s = Some c -> 0 <= f c) ->
  0 <= sumOver f v l.
Proof.
  intros H. unfold sumOver.
  induction l as [|s l IH]; cbn [map fold_right]; [lia|].
  destruct (contribution v s) as [c|] eqn:E; [specialize (H s c E)|]; lia.
Qed.

Lemma sumOver_snoc (f : Contribution -> Z) (v : Variant) (l : list Source)
  (s : Source) :
  sumOver f v (l ++ [s])
  = sumOver f v l + match contribution v s with
                    | Some c => f c
                    | None => 0
                    end.
Proof.
  rewrite sumOver_app. unfold sumOver at 2. cbn. lia.
Qed.

Lemma recordedFor_range k o c : 0 <= recordedFor k o c <= 1.
Proof.
  unfold recordedFor. destruct (c_voter c) as [[k' u]|]; [|lia].
  destruct (VoteOption_eq_dec o (c_option c)); [|lia].
  destruct (VoterKey_eq_dec k k'); lia.
Qed.

Lemma voters_apply_recorded (v : Variant) (c : Contribution) (st : Stats)
  (o : VoteOption) (k : VoterKey) :
  Map_get VoterKey_eq_dec k
    (getOpt o (perCategoryAddresses (applyContribution v (Some c) st)))
  = if recordedFor k o c =? 0
    then Map_get VoterKey_eq_dec k (getOpt o (perCategoryAddresses st))
    else Some (voterAfter
                 (Map_get VoterKey_eq_dec k
                    (getOpt o (perCategoryAddresses st)))
                 (stakeOf c) (c_power c)).
Proof.
  rewrite voters_applyContribution. unfold recordedFor, stakeOf.
  destruct (c_voter c) as [[k1 u]|]; [|reflexivity].
  destruct (VoteOption_eq_dec o (c_option c)) as [->|No]; [|reflexivity].
  destruct (VoterKey_eq_dec k k1) as [->|Nk]; reflexivity.
Qed.

Lemma sumOver_zero_weighted (r g : Contribution -> Z) (v : Variant)
  (l : list Source) :
  (forall c, 0 <= r c) ->
  sumOver r v l = 0 -> sumOver (fun c => r c * g c) v l = 0.
Proof.
  intros R. unfold sumOver.
  induction l as [|s l IH]; cbn [map fold_right]; [reflexivity|].
  assert (G : 0 <= fold_right Z.add 0
                     (map (fun s => match contribution v s with
                                    | Some c => r c
                                    | None => 0
                                    end) l)).
  { apply (sumOver_nonneg r v l). intros. apply R. }
  destruct (contribution v s) as [c|]; intros H.
  - specialize (R c). assert (E : r c = 0) by lia.
    rewrite E, Z.mul_0_l, IH; lia.
  - rewrite IH; lia.
Qed.

(** What a per-category map holds under a key after the loop. *)
Lemma fold_voter_entry (v : Variant) (rawHits : list Source)
  (o : VoteOption) (k : VoterKey) :
  Map_get VoterKey_eq_dec k
    (getOpt o
       (perCategoryAddresses
          (fold_left (fun st s => applyContribution v (contribution v s) st)
             rawHits initialStats)))
  = if sumOver (recordedFor k o) v rawHits =? 0 then None
    else Some {| stake := sumOver (fun c => recordedFor k o c * stakeOf c)
                            v rawHits;
                 power := sumOver (fun c => recordedFor k o c * c_power c)
                            v rawHits;
                 count := sumOver (recordedFor k o) v rawHits |}.
Proof.
  induction rawHits as [|s l IH] using rev_ind.
  - destruct o; reflexivity.
  - rewrite fold_left_snoc, !sumOver_snoc.
    set (st := fold_left _ l initialStats) in *.
    assert (N : 0 <= sumOver (recordedFor k o) v l).
    { apply sumOver_nonneg. intros. apply recordedFor_range. }
    destruct (contribution v s) as [c|];
      [|cbn [applyContribution]; rewrite !Z.add_0_r; apply IH].
    rewrite voters_apply_recorded, IH.
    pose proof (recordedFor_range k o c) as R.
    destruct (Z.eqb_spec (recordedFor k o c) 0) as [E|E].
    + rewrite E, !Z.mul_0_l, !Z.add_0_r. reflexivity.
    + assert (E1 : recordedFor k o c = 1) by lia. rewrite E1, !Z.mul_1_l.
      destruct (Z.eqb_spec (sumOver (recordedFor k o) v l + 1) 0); [lia|].
      destruct (Z.eqb_spec (sumOver (recordedFor k o) v l) 0) as [E0|E0].
      * rewrite !(sumOver_zero_weighted (recordedFor k o))
          by (try assumption; intros; apply recordedFor_range).
        rewrite E0. reflexivity.
      * reflexivity.
Qed.

Lemma sumOver_plus (f g : Contribution -> Z) (v : Variant) (l : list Source) :
  sumOver (fun c => f c + g c) v l = sumOver f v l + sumOver g v l.
Proof.
  unfold sumOver. induction l as [|s l IH]; [reflexivity|].
  cbn [map fold_right]. destruct (contribution v s); lia.
Qed.

Lemma sumOver_ext (f g : Contribution -> Z) (v : Variant) (l : list Source) :
  (forall c, f c = g c) -> sumOver f v l = sumOver g v l.
Proof.
  intros H. unfold sumOver. f_equal. apply map_ext. intros s.
  destruct (contribution v s); [apply H | reflexivity].
Qed.

Lemma labelled_range l c : 0 <= labelled l c <= 1.
Proof.
  unfold labelled. destruct (c_label c) as [l'|]; [|lia].
  destruct (Label_eq_dec l l'); lia.
Qed.

Lemma delegation_apply_labelled (v : Variant) (c : Contribution) (st : Stats)
  (l : Label) :
  Map_get Label_eq_dec l
    (delegationBreakdown (applyContribution v (Some c) st))
  = if labelled l c =? 0
    then Map_get Label_eq_dec l (delegationBreakdown st)
    else Some (nullish (Map_get Label_eq_dec l (delegationBreakdown st)) 0
               + c_power c).
Proof.
  rewrite delegation_applyContribution. unfold labelled.
  destruct (c_label c) as [l1|]; [|reflexivity].
  destruct (Label_eq_dec l l1) as [->|N]; reflexivity.
Qed.

(** What the delegation map holds under a label after the loop. *)
Lemma fold_delegation_entry (v : Variant) (rawHits : list Source)
  (l : Label) :
  Map_get Label_eq_dec l
    (delegationBreakdown
       (fold_left (fun st s => applyContribution v (contribution v s) st)
          rawHits initialStats))
  = if sumOver (labelled l) v rawHits =? 0 then None
    else Some (sumOver (fun c => labelled l c * c_power c) v rawHits).
Proof.
  induction rawHits as [|s hits IH] using rev_ind; [reflexivity|].
  rewrite fold_left_snoc, !sumOver_snoc.
  set (st := fold_left _ hits initialStats) in *.
  assert (N : 0 <= sumOver (labelled l) v hits).
  { apply sumOver_nonneg. intros. apply labelled_range. }
  destruct (contribution v s) as [c|];
    [|cbn [applyContribution]; rewrite !Z.add_0_r; apply IH].
  rewrite delegation_apply_labelled, IH.
  pose proof (labelled_range l c) as R.
  destruct (Z.eqb_spec (labelled l c) 0) as [E|E].
  - rewrite E, !Z.mul_0_l, !Z.add_0_r. reflexivity.
  - assert (E1 : labelled l c = 1) by lia. rewrite E1, !Z.mul_1_l.
    destruct (Z.eqb_spec (sumOver (labelled l) v hits + 1) 0); [lia|].
    destruct (Z.eqb_spec (sumOver (labelled l) v hits) 0) as [E0|E0].
    + rewrite (sumOver_zero_weighted (labelled l))
        by (try assumption; intros; apply labelled_range).
      reflexivity.
    + reflexivity.
Qed.

Lemma sumValues_Map_set (l : Label) (x : Z) (m : list (Label * Z)) :
  sumValues (Map_set Label_eq_dec l x m)
  = sumValues m - nullish (Map_get Label_eq_dec l m) 0 + x.
Proof.
  induction m as [|[l0 v0] m IH]; cbn [Map_set Map_get sumValues fold_right].
  - cbn. lia.
  - destruct (Label_eq_dec l l0) as [->|N]; cbn [fold_right snd nullish].
    + lia.
    + fold (sumValues (Map_set Label_eq_dec l x m)). fold (sumValues m).
      rewrite IH. lia.
Qed.

Lemma fold_delegation_sum (v : Variant) (rawHits : list Source) :
  sumValues
    (delegationBreakdown
       (fold_left (fun st s => applyContribution v (contribution v s) st)
          rawHits initialStats))
  = sumOver delegatedPower v rawHits.
Proof.
  induction rawHits as [|s hits IH] using rev_ind; [reflexivity|].
  rewrite fold_left_snoc, sumOver_snoc.
  set (st := fold_left _ hits initialStats) in *.
  destruct (contribution v s) as [c|];
    [|cbn [applyContribution]; lia].
  assert (DP : delegatedPower c = match c_label c with
                                  | Some _ => c_power c
                                  | None => 0
                                  end) by reflexivity.
  rewrite DP. unfold applyContribution.
  destruct (c_voter c) as [[k u]|], (c_label c) as [l|];
    unfold addToDelegation, addToVoter, addToTotals;
    cbn [delegationBreakdown]; rewrite ?sumValues_Map_set; lia.
Qed.

(** X7. The values of [delegationBreakdown] add up to the power of the
    delegated votes, so with the power of the direct votes they make up
    [totalPower], and their sum lies between [0] and [totalPower]; the
    map holds a label exactly when a delegated vote of the batch has it,
    with the summed power of those votes. *)
Theorem stats_delegation_breakdown (v : Variant) (rawHits : list Source) :
  exists st : Stats,
    stats v rawHits = Ret st
    /\ sumValues (delegationBreakdown st) = sumOver delegatedPower v rawHits
    /\ totalPower st
       = sumValues (delegationBreakdown st)
         + sumOver (fun c => c_power c - delegatedPower c) v rawHits
    /\ 0 <= sumValues (delegationBreakdown st) <= totalPower st
    /\ forall l : Label,
        Map_get Label_eq_dec l (delegationBreakdown st)
        = if sumOver (labelled l) v rawHits =? 0 then None
          else Some (sumOver (fun c => labelled l c * c_power c) v rawHits).
Proof.
  unfold stats. rewrite aggregate_fold. eexists. split; [reflexivity|].
  destruct (fold_totals v rawHits) as [P _]. cbv zeta in P.
  pose proof (fold_delegation_sum v rawHits) as D.
  assert (S : sumOver c_power v rawHits
              = sumOver delegatedPower v rawHits
                + sumOver (fun c => c_power c - delegatedPower c) v rawHits).
  { rewrite <- sumOver_plus. apply sumOver_ext. intros c. lia. }
  assert (N1 : 0 <= sumOver delegatedPower v rawHits).
  { apply sumOver_nonneg. intros s c Hc. unfold delegatedPower.
    destruct (contribution_nonneg v s c Hc). destruct (c_label c); lia. }
  assert (N2 : 0 <= sumOver (fun c => c_power c - delegatedPower c) v rawHits).
  { apply sumOver_nonneg. intros s c Hc. unfold delegatedPower.
    destruct (contribution_nonneg v s c Hc). destruct (c_label c); lia. }
  split; [exact D|]. split; [rewrite P, D; exact S|].
  split; [rewrite P, D; lia|].
  apply fold_delegation_entry.
Qed.

Lemma sumOver_le (f g : Contribution -> Z) (v : Variant) (l : list Source) :
  (forall s c, contribution v s = Some c -> f c <= g c) ->
  sumOver f v l <= sumOver g v l.
Proof.
  intros H. unfold sumOver.
  induction l as [|s l IH]; cbn [map fold_right]; [lia|].
  destruct (contribution v s) as [c|] eqn:E; [specialize (H s c E)|]; lia.
Qed.

Lemma recordedFor_le_inCategory k o c : recordedFor k o c <= inCategory o c.
Proof.
  unfold recordedFor, inCategory. destruct (c_voter c) as [[k' u]|].
  - destruct (VoteOption_eq_dec o (c_option c)); [|lia].
    destruct (VoterKey_eq_dec k k'); lia.
  - destruct (VoteOption_eq_dec o (c_option c)); lia.
Qed.

Lemma inCategory_range o c : 0 <= inCategory o c <= 1.
Proof.
  unfold inCategory. destruct (VoteOption_eq_dec o (c_option c)); lia.
Qed.

(** X5. What a category's map holds under a voter key after the loop:
    nothing when no event of the batch is recorded under that key in
    that category; otherwise the sums of the stakes and of the powers of
    those events, and their number. *)
Theorem stats_voter_entry_is_sum
  (v : Variant) (rawHits : list Source) (o : VoteOption) (k : VoterKey) :
  exists st : Stats,
    stats v rawHits = Ret st
    /\ Map_get VoterKey_eq_dec k (getOpt o (perCategoryAddresses st))
       = if sumOver (recordedFor k o) v rawHits =? 0 then None
         else Some {| stake := sumOver (fun c => recordedFor k o c * stakeOf c)
                                 v rawHits;
                      power := sumOver (fun c => recordedFor k o c * c_power c)
                                 v rawHits;
                      count := sumOver (recordedFor k o) v rawHits |}.
Proof.
  unfold stats. rewrite aggregate_fold. eexists. split; [reflexivity|].
  apply fold_voter_entry.
Qed.

(** X4. No accumulator is negative, and the parts never exceed the
    whole: [totalPower >= 0]; every category's [count] is between [0] and
    the size of the batch and its [power] between [0] and [totalPower];
    every per-voter entry has [stake >= 0], a [power] between [0] and the
    category's [power], and a [count] between [1] and the category's
    [count]. *)
Theorem stats_accumulators_bounded (v : Variant) (rawHits : list Source) :
  exists st : Stats,
    stats v rawHits = Ret st
    /\ 0 <= totalPower st
    /\ (forall o : VoteOption,
          0 <= agg_count (getOpt o (byOption st))
               <= Z.of_nat (List.length rawHits)
          /\ 0 <= agg_power (getOpt o (byOption st)) <= totalPower st)
    /\ (forall (o : VoteOption) (k : VoterKey) (x : VoterAccumulator),
          Map_get VoterKey_eq_dec k (getOpt o (perCategoryAddresses st))
          = Some x ->
          0 <= stake x
          /\ 0 <= power x <= agg_power (getOpt o (byOption st))
          /\ 1 <= count x <= agg_count (getOpt o (byOption st))).
Proof.
  unfold stats. rewrite aggregate_fold. eexists. split; [reflexivity|].
  destruct (fold_totals v rawHits) as [P T]. cbv zeta in P, T.
  assert (NP : forall s c, contribution v s = Some c -> 0 <= c_power c)
    by (intros s c H; apply (contribution_nonneg v s c H)).
  split; [rewrite P; apply sumOver_nonneg; exact NP|].
  split.
  - intros o. destruct (T o) as (_ & -> & ->). rewrite P. repeat split.
    + apply sumOver_nonneg. intros. apply inCategory_range.
    + transitivity (sumOver (fun _ => 1) v rawHits).
      * apply sumOver_le. intros. apply inCategory_range.
      * clear. unfold sumOver. induction rawHits as [|s l IH]; [cbn; lia|].
        cbn [map fold_right List.length]. destruct (contribution v s); lia.
    + apply sumOver_nonneg. intros s c H. specialize (NP s c H).
      pose proof (inCategory_range o c). nia.
    + apply sumOver_le. intros s c H. specialize (NP s c H).
      pose proof (inCategory_range o c). nia.
  - intros o k x. rewrite fold_voter_entry.
    destruct (Z.eqb_spec (sumOver (recordedFor k o) v rawHits) 0) as [E|E];
      [discriminate|].
    intros [= <-]. cbn [stake power count].
    destruct (T o) as (_ & -> & ->).
    assert (N : 0 <= sumOver (recordedFor k o) v rawHits)
      by (apply sumOver_nonneg; intros; apply recordedFor_range).
    repeat split.
    + apply sumOver_nonneg. intros s c H.
      destruct (contribution_nonneg v s c H) as [_ U].
      pose proof (recordedFor_range k o c). unfold stakeOf.
      destruct (c_voter c) as [[k' u]|]; nia.
    + apply sumOver_nonneg. intros s c H. specialize (NP s c H).
      pose proof (recordedFor_range k o c). nia.
    + apply sumOver_le. intros s c H. specialize (NP s c H).
      pose proof (recordedFor_range k o c).
      pose proof (recordedFor_le_inCategory k o c). nia.
    + lia.
    + apply sumOver_le. intros. apply recordedFor_le_inCategory.
Qed.

Lemma sumCount_Map_set (k : VoterKey) (x : VoterAccumulator)
  (m : list (VoterKey * VoterAccumulator)) :
  sumCount (Map_set VoterKey_eq_dec k x m)
  = sumCount m
    - count (nullish (Map_get VoterKey_eq_dec k m)
               {| stake := 0; power := 0; count := 0 |})
    + count x.
Proof.
  induction m as [|[k0 v0] m IH]; cbn [Map_set Map_get sumCount fold_right].
  - cbn. lia.
  - destruct (VoterKey_eq_dec k k0) as [->|N];
      cbn [sumCount fold_right snd nullish].
    + lia.
    + fold (sumCount (Map_set VoterKey_eq_dec k x m)). rewrite IH.
      fold (sumCount m). lia.
Qed.

Lemma voter_map_applyContribution (v : Variant) (c : Contribution)
  (st : Stats) (o : VoteOption) :
  getOpt o (perCategoryAddresses (applyContribution v (Some c) st))
  = match c_voter c with
    | Some (k, u) =>
        if VoteOption_eq_dec o (c_option c) then
          let m := getOpt o (perCategoryAddresses st) in
          let prev := nullish (Map_get VoterKey_eq_dec k m)
                        {| stake := 0; power := 0; count := 0 |} in
          Map_set VoterKey_eq_dec k
            {| stake := stake prev + u;
               power := power prev + c_power c;
               count := count prev + 1 |} m
        else getOpt o (perCategoryAddresses st)
    | None => getOpt o (perCategoryAddresses st)
    end.
Proof.
  unfold applyContribution.
  assert (E : forall st', perCategoryAddresses
                (match c_label c with
                 | Some l => addToDelegation v l (c_power c) st'
                 | None => st'
                 end) = perCategoryAddresses st')
    by (intros st'; destruct (c_label c); reflexivity).
  rewrite E. destruct (c_voter c) as [[k u]|]; [|reflexivity].
  unfold addToVoter. cbn [perCategoryAddresses].
  rewrite getOpt_setOpt, !perCategoryAddresses_addToTotals.
  destruct (VoteOption_eq_dec o (c_option c)) as [->|N]; reflexivity.
Qed.

Lemma fold_voter_sums (v : Variant) (rawHits : list Source) (o : VoteOption) :
  sumCount
    (getOpt o
       (perCategoryAddresses
          (fold_left (fun st s => applyContribution v (contribution v s) st)
             rawHits initialStats)))
  = sumOver (fun c => inCategory o c * hasVoter c) v rawHits.
Proof.
  induction rawHits as [|s l IH] using rev_ind.
  - destruct o; reflexivity.
  - rewrite fold_left_snoc, !sumOver_snoc.
    set (st := fold_left _ l initialStats) in *.
    destruct (contribution v s) as [c|];
      [|cbn [applyContribution]; rewrite !Z.add_0_r; assumption].
    rewrite voter_map_applyContribution.
    assert (EI : inCategory o c
                 = if VoteOption_eq_dec o (c_option c) then 1 else 0)
      by reflexivity.
    assert (EH : hasVoter c = match c_voter c with Some _ => 1 | None => 0 end)
      by reflexivity.
    rewrite EI, EH.
    destruct (c_voter c) as [[k u]|]; [|lia].
    destruct (VoteOption_eq_dec o (c_option c)) as [Eo|N]; [|lia].
    cbv zeta. rewrite sumCount_Map_set.
    cbn [count]. lia.
Qed.

Lemma sumOver_tracked (v : Variant) (rawHits : list Source) :
  Forall (fun s => trackedKind v (identifier s) = true) rawHits ->
  forall o : VoteOption,
    sumOver (fun c => inCategory o c * hasVoter c) v rawHits
    = sumOver (inCategory o) v rawHits.
Proof.
  intros F o. unfold sumOver. induction F as [|s l Hs Hl IH]; [reflexivity|].
  cbn [map fold_right]. rewrite IH.
  destruct (contribution v s) as [c|] eqn:C; [|reflexivity].
  pose proof (contribution_tracked v s c Hs C) as Hv.
  unfold hasVoter. destruct (c_voter c); [lia | congruence].
Qed.

(** X6. The [count] fields of a category's voters never add up to more
    than the category's [count]; they add up to exactly that when every
    event of the batch is of a kind the variant records per voter, which
    in the per-address variant is every batch. *)
Theorem stats_voter_count_closure (v : Variant) (rawHits : list Source) :
  exists st : Stats,
    stats v rawHits = Ret st
    /\ (forall o : VoteOption,
          sumCount (getOpt o (perCategoryAddresses st))
          <= agg_count (getOpt o (byOption st)))
    /\ (Forall (fun s => trackedKind v (identifier s) = true) rawHits ->
        forall o : VoteOption,
          sumCount (getOpt o (perCategoryAddresses st))
          = agg_count (getOpt o (byOption st)))
    /\ (v = PerAddress ->
        forall o : VoteOption,
          sumCount (getOpt o (perCategoryAddresses st))
          = agg_count (getOpt o (byOption st))).
Proof.
  unfold stats. rewrite aggregate_fold. eexists. split; [reflexivity|].
  destruct (fold_totals v rawHits) as [_ T]. cbv zeta in T.
  assert (R : forall c, 0 <= hasVoter c <= 1)
    by (intros c; unfold hasVoter; destruct (c_voter c); lia).
  pose proof (sumOver_tracked v rawHits) as K.
  split; [|split].
  - intros o. rewrite fold_voter_sums.
    destruct (T o) as (_ & -> & _).
    apply sumOver_le. intros s c _. specialize (R c).
    pose proof (inCategory_range o c). nia.
  - intros F o. rewrite fold_voter_sums.
    destruct (T o) as (_ & -> & _). apply K. exact F.
  - intros -> o. rewrite fold_voter_sums.
    destruct (T o) as (_ & -> & _). apply K.
    apply Forall_forall. intros s _. unfold trackedKind.
    destruct (streq (identifier s) (lit "vote")); reflexivity.
Qed.

Lemma fold_delegationCount_entry (rawHits : list Source) (l : Label) :
  Map_get Label_eq_dec l
    (delegationCountBreakdown
       (fold_left (fun st s => applyContribution PerAddress
                                 (contribution PerAddress s) st)
          rawHits initialStats))
  = if sumOver (labelled l) PerAddress rawHits =? 0 then None
    else Some (sumOver (labelled l) PerAddress rawHits).
Proof.
  induction rawHits as [|s hits IH] using rev_ind; [reflexivity|].
  rewrite fold_left_snoc, !sumOver_snoc.
  set (st := fold_left _ hits initialStats) in *.
  assert (N : 0 <= sumOver (labelled l) PerAddress hits).
  { apply sumOver_nonneg. intros. apply labelled_range. }
  destruct (contribution PerAddress s) as [c|];
    [|cbn [applyContribution]; rewrite !Z.add_0_r; apply IH].
  rewrite delegationCount_applyContribution.
  assert (EL : labelled l c = match c_label c with
                              | Some l' => if Label_eq_dec l l' then 1 else 0
                              | None => 0
                              end) by reflexivity.
  rewrite EL.
  destruct (c_label c) as [l1|]; [|rewrite Z.add_0_r; apply IH].
  destruct (Label_eq_dec l l1) as [<-|Nl]; [|rewrite Z.add_0_r; apply IH].
  rewrite IH.
  destruct (Z.eqb_spec (sumOver (labelled l) PerAddress hits + 1) 0); [lia|].
  destruct (Z.eqb_spec (sumOver (labelled l) PerAddress hits) 0) as [E0|E0].
  - rewrite E0. reflexivity.
  - reflexivity.
Qed.

Lemma fold_delegationCount_empty (rawHits : list Source) (st : Stats) :
  delegationCountBreakdown
    (fold_left (fun st s => applyContribution TotalsOnly
                              (contribution TotalsOnly s) st)
       rawHits st)
  = delegationCountBreakdown st.
Proof.
  revert st. induction rawHits as [|s hits IH]; intros st; [reflexivity|].
  cbn [fold_left]. rewrite IH.
  destruct (contribution TotalsOnly s) as [c|]; [|reflexivity].
  unfold applyContribution.
  destruct (c_voter c) as [[k u]|], (c_label c); reflexivity.
Qed.

(** X8. The variant without a count map leaves
    [delegationCountBreakdown] empty.  In the per-address variant it holds
    under a label the number of delegated votes with that label (at least
    [1], at most the size of the batch), and it has exactly the labels
    of [delegationBreakdown]. *)
Theorem stats_delegation_counts (v : Variant) (rawHits : list Source) :
  exists st : Stats,
    stats v rawHits = Ret st
    /\ (v = TotalsOnly -> delegationCountBreakdown st = [])
    /\ (v = PerAddress ->
        forall l : Label,
          Map_get Label_eq_dec l (delegationCountBreakdown st)
          = (if sumOver (labelled l) v rawHits =? 0 then None
             else Some (sumOver (labelled l) v rawHits))
          /\ (Map_get Label_eq_dec l (delegationCountBreakdown st) = None
              <-> Map_get Label_eq_dec l (delegationBreakdown st) = None)
          /\ forall n : Z,
               Map_get Label_eq_dec l (delegationCountBreakdown st) = Some n ->
               1 <= n <= Z.of_nat (List.length rawHits)).
Proof.
  unfold stats. rewrite aggregate_fold. eexists. split; [reflexivity|].
  split.
  - intros ->. apply fold_delegationCount_empty.
  - intros -> l.
    rewrite fold_delegationCount_entry, fold_delegation_entry.
    assert (N : 0 <= sumOver (labelled l) PerAddress rawHits)
      by (apply sumOver_nonneg; intros; apply labelled_range).
    assert (U : sumOver (labelled l) PerAddress rawHits
                <= Z.of_nat (List.length rawHits)).
    { clear. unfold sumOver. induction rawHits as [|s hits IH]; [cbn; lia|].
      cbn [map fold_right List.length].
      destruct (contribution PerAddress s) as [c|];
        [pose proof (labelled_range l c)|]; lia. }
    split; [reflexivity|].
    destruct (Z.eqb_spec (sumOver (labelled l) PerAddress rawHits) 0).
    + split; [tauto | discriminate].
    + split; [split; discriminate|]. intros n0 [= <-]. lia.
Qed.

Lemma map_row_address (m : list (VoterKey * VoterAccumulator)) :
  map row_address (map toRow m) = map fst m.
Proof.
  rewrite map_map. reflexivity.
Qed.

Lemma NoDup_firstn_of {A : Type} (n : nat) (l : list A) :
  NoDup l -> NoDup (firstn n l).
Proof.
  intros H. rewrite <- (firstn_skipn n l) in H.
  eapply NoDup_app_remove_r. exact H.
Qed.

(** X10. The rows of a leaderboard have pairwise distinct addresses, and
    each row shows what the category's map holds under its address. *)
Theorem topPerCategory_rows_of_distinct_voters
  (v : Variant) (rawHits : list Source) :
  exists st : Stats,
    stats v rawHits = Ret st
    /\ forall opt : VoteOption,
         NoDup (map row_address (topPerCategory v st opt))
         /\ forall r : Row,
              In r (topPerCategory v st opt) ->
              Map_get VoterKey_eq_dec (row_address r)
                (getOpt opt (perCategoryAddresses st))
              = Some {| stake := row_stake r; power := row_power r;
                        count := row_count r |}.
Proof.
  unfold stats. rewrite aggregate_fold. eexists. split; [reflexivity|].
  intros opt.
  destruct (fold_keysDistinct v rawHits initialStats
              initialStats_keysDistinct) as [D _].
  specialize (D opt).
  set (m := getOpt opt _) in *.
  pose proof (sortRows_Permutation (compareRows v) (map toRow m)) as P.
  split.
  - unfold topPerCategory. fold m. rewrite <- firstn_map.
    apply NoDup_firstn_of.
    eapply Permutation_NoDup; [apply Permutation_map; exact P|].
    rewrite map_row_address. exact D.
  - intros r Hr. unfold topPerCategory in Hr. fold m in Hr.
    apply firstn_In in Hr.
    apply (Permutation_in _ (Permutation_sym P)) in Hr.
    apply in_map_iff in Hr. destruct Hr as ([k x] & <- & Hi).
    cbn [toRow row_address row_stake row_power row_count fst snd].
    apply (Map_get_In VoterKey_eq_dec k x m D) in Hi. rewrite Hi.
    destruct x; reflexivity.
Qed.

Lemma delegationLabel_known (src : jsstring) :
  existsb (streq src) objectPrototypeNames = false ->
  In (delegationLabel src) knownLabels.
Proof.
  intros H. unfold delegationLabel. rewrite H.
  unfold DELEGATION_LABELS, knownLabels.
  cbn [Map_get]. repeat destruct (list_eq_dec Z.eq_dec src _); cbn; tauto.
Qed.

Lemma sumOver_nonzero (f : Contribution -> Z) (v : Variant)
  (l : list Source) :
  sumOver f v l <> 0 ->
  exists s c, In s l /\ contribution v s = Some c /\ f c <> 0.
Proof.
  unfold sumOver. induction l as [|s l IH]; cbn [map fold_right];
    [intros H; now contradiction H|].
  intros H. destruct (contribution v s) as [c|] eqn:C.
  - destruct (Z.eq_dec (f c) 0) as [E|E].
    + destruct IH as (s' & c' & I & C' & F); [lia|].
      exists s', c'. split; [right; exact I|]. split; assumption.
    + exists s, c. split; [left; reflexivity|]. split; assumption.
  - destruct IH as (s' & c' & I & C' & F); [lia|].
    exists s', c'. split; [right; exact I|]. split; assumption.
Qed.

Lemma contribution_label (v : Variant) (s : Source) (c : Contribution)
  (l : Label) :
  contribution v s = Some c -> c_label c = Some l ->
  l = delegationLabel (nullish (address s) (lit "others")).
Proof.
  unfold contribution. destruct (nullish (topics s) []); [discriminate|].
  destruct (streq (identifier s) (lit "vote")).
  - intros [= <-]. discriminate.
  - destruct (streq (identifier s) (lit "delegateVote")); [|discriminate].
    intros [= <-]. cbn [c_label]. congruence.
Qed.

(** X9. When no source address of the batch is a property name that
    object literals inherit, every label of [delegationBreakdown] is one
    of the three names of [DELEGATION_LABELS] or [others], so the
    breakdown has at most four entries. *)
Theorem stats_delegation_labels_known (v : Variant) (rawHits : list Source) :
  Forall (fun s => plainSource s = true) rawHits ->
  exists st : Stats,
    stats v rawHits = Ret st
    /\ (forall (l : Label) (x : Z),
          In (l, x) (delegationBreakdown st) -> In l knownLabels)
    /\ (List.length (delegationBreakdown st) <= 4)%nat.
Proof.
  intros F. unfold stats. rewrite aggregate_fold. eexists.
  split; [reflexivity|].
  destruct (fold_keysDistinct v rawHits initialStats
              initialStats_keysDistinct) as (_ & D & _).
  set (st := fold_left _ rawHits initialStats) in *.
  assert (K : forall l x, In (l, x) (delegationBreakdown st) ->
                          In l knownLabels).
  { intros l x I.
    apply (Map_get_In Label_eq_dec l x _ D) in I.
    unfold st in I. rewrite fold_delegation_entry in I.
    destruct (Z.eqb_spec (sumOver (labelled l) v rawHits) 0) as [E|E];
      [discriminate|].
    destruct (sumOver_nonzero _ _ _ E) as (s & c & Is & C & N).
    unfold labelled in N. destruct (c_label c) as [l'|] eqn:L;
      [|now contradiction N].
    destruct (Label_eq_dec l l') as [->|]; [|now contradiction N].
    rewrite (contribution_label v s c l' C L).
    apply delegationLabel_known.
    rewrite Forall_forall in F. specialize (F s Is).
    unfold plainSource in F. apply negb_true_iff in F. exact F. }
  split; [exact K|].
  rewrite <- (length_map fst).
  change 4%nat with (List.length knownLabels).
  apply NoDup_incl_length; [exact D|].
  intros l I. apply in_map_iff in I. destruct I as ([l' x] & <- & I).
  apply (K l' x I).
Qed.

(* ================================================================== *)
(** ** The hex utilities *)

Lemma hexPrefix_app (s t : jsstring) :
  forallb isHexDigit s = true ->
  hexPrefix (s ++ t) = hexPrefix s ++ hexPrefix t.
Proof.
  induction s as [|c s IH]; [reflexivity|].
  cbn [forallb app hexPrefix]. unfold isHexDigit at 1.
  destruct (hexDigit c); [|discriminate].
  cbn [andb]. intros H. rewrite IH by exact H. reflexivity.
Qed.

Lemma hexValue_snoc (ds : list Z) (d : Z) :
  hexValue (ds ++ [d]) = 16 * hexValue ds + d.
Proof.
  unfold hexValue. rewrite fold_left_app. reflexivity.
Qed.

Lemma hexValue_zero_first (ds : list Z) : hexValue (0 :: ds) = hexValue ds.
Proof.
  reflexivity.
Qed.

Lemma dropWhile_head {A : Type} (p : A -> bool) (x : A) (l : list A) :
  p x = false -> dropWhile p (x :: l) = x :: l.
Proof.
  intros H. cbn [dropWhile]. rewrite H. reflexivity.
Qed.

(** Trimming leaves a string that ends with a hexadecimal digit as it
    is. *)
Lemma trim_hex_end (s : jsstring) (c : Z) :
  isHexDigit c = true ->
  rev (dropWhile isStrWhiteSpaceChar (rev (s ++ [c]))) = s ++ [c].
Proof.
  intros H. rewrite rev_app_distr. cbn [rev app].
  rewrite dropWhile_head by (apply hexDigit_not_space; exact H).
  cbn [rev]. rewrite rev_involutive. reflexivity.
Qed.

Lemma BigInt0x_digits (s : jsstring) :
  s <> [] -> forallb isHexDigit s = true ->
  BigInt0x s = Some (hexValue (hexPrefix s)).
Proof.
  intros N H. destruct (exists_last N) as (s' & c & ->).
  assert (Hc : isHexDigit c = true).
  { rewrite forallb_app in H. apply andb_true_iff in H.
    destruct H as [_ H]. cbn in H. rewrite andb_true_r in H. exact H. }
  unfold BigInt0x. rewrite trim_hex_end by exact Hc. rewrite H.
  destruct (s' ++ [c]) eqn:E; [|reflexivity].
  destruct s'; discriminate.
Qed.

(** On hexadecimal digits [hexToBigInt] is the base-16 value; the ['0']
    added to a string of odd length does not change it. *)
Lemma hexToBigInt_digits (s : jsstring) :
  forallb isHexDigit s = true ->
  hexToBigInt (Some s) = hexValue (hexPrefix s).
Proof.
  intros H. destruct s as [|c s]; [reflexivity|].
  unfold hexToBigInt. cbn [falsy].
  destruct (Z.odd (Z.of_nat (List.length (c :: s)))).
  - rewrite BigInt0x_digits; [reflexivity | discriminate |].
    cbn [forallb] in H |- *. rewrite H. reflexivity.
  - rewrite BigInt0x_digits; [reflexivity | discriminate | exact H].
Qed.

(** X11. On hexadecimal digits [hexToBigInt] reads base 16, most
    significant digit first, in either letter case and whatever the
    parity of the length: the empty string has the value [0], and one
    more digit [c] of value [d] at the end turns the value [n] into
    [16 * n + d], where [d] is [0]-[9] for the characters [0]-[9] and
    [10]-[15] for [a]-[f] and for [A]-[F]. *)
Theorem hexToBigInt_digit_recurrence (s : jsstring) (c d : Z) :
  forallb isHexDigit s = true ->
  hexDigit c = Some d ->
  hexToBigInt (Some []) = 0
  /\ hexToBigInt (Some (s ++ [c])) = 16 * hexToBigInt (Some s) + d
  /\ 0 <= d < 16
  /\ ((48 <= c <= 57 /\ d = c - 48)
      \/ (97 <= c <= 102 /\ d = c - 97 + 10)
      \/ (65 <= c <= 70 /\ d = c - 65 + 10)).
Proof.
  intros H Hc.
  assert (Ic : isHexDigit c = true)
    by (unfold isHexDigit; rewrite Hc; reflexivity).
  split; [reflexivity|].
  assert (V : (48 <= c <= 57 /\ d = c - 48)
              \/ (97 <= c <= 102 /\ d = c - 97 + 10)
              \/ (65 <= c <= 70 /\ d = c - 65 + 10)).
  { unfold hexDigit in Hc.
    destruct (Z.leb_spec 48 c), (Z.leb_spec c 57), (Z.leb_spec 97 c),
      (Z.leb_spec c 102), (Z.leb_spec 65 c), (Z.leb_spec c 70);
      cbn in Hc; try discriminate; injection Hc as <-; lia. }
  split; [|split; [lia | exact V]].
  - rewrite !hexToBigInt_digits
      by (rewrite ?forallb_app; cbn [forallb]; rewrite ?H, ?Ic; reflexivity).
    rewrite hexPrefix_app by exact H.
    cbn [hexPrefix]. rewrite Hc. apply hexValue_snoc.
Qed.

Lemma hexToBigInt_digit_recurrence_witness :
  hexToBigInt (Some []) = 0
  /\ hexToBigInt (Some (lit "03e" ++ [56]))
     = 16 * hexToBigInt (Some (lit "03e")) + 8
  /\ hexToBigInt (Some (lit "3E" ++ [56]))
     = 16 * hexToBigInt (Some (lit "3E")) + 8.
Proof.
  destruct (hexToBigInt_digit_recurrence (lit "03e") 56 8 eq_refl eq_refl)
    as (A & B & _).
  destruct (hexToBigInt_digit_recurrence (lit "3E") 56 8 eq_refl eq_refl)
    as (_ & C & _).
  split; [exact A|]. split; [exact B | exact C].
Defined.

Lemma hexOf_digits (t : jsstring) :
  Forall (fun c => 0 <= c < 256) t ->
  forallb isHexDigit (hexOf t) = true
  /\ hexValue (hexPrefix (hexOf t)) = bigEndian 8 t.
Proof.
  intros H. induction t as [|c t IH] using rev_ind; [split; reflexivity|].
  apply Forall_app in H. destruct H as [Ht Hc].
  inversion Hc as [|? ? Hc' _]; subst. destruct (IH Ht) as [I V].
  assert (D1 : 0 <= c / 16 < 16)
    by (split; [apply Z.div_pos; lia | apply Z.div_lt_upper_bound; lia]).
  assert (D2 : 0 <= c mod 16 < 16) by (apply Z.mod_pos_bound; lia).
  pose proof (hexDigit_hexDigitChar _ D1) as E1.
  pose proof (hexDigit_hexDigitChar _ D2) as E2.
  unfold hexOf in *. rewrite flat_map_app. cbn [flat_map app].
  split.
  - rewrite forallb_app, I. cbn [forallb]. unfold isHexDigit.
    rewrite E1, E2. reflexivity.
  - rewrite hexPrefix_app by exact I. cbn [hexPrefix].
    rewrite E1, E2.
    change [c / 16; c mod 16] with ([c / 16] ++ [c mod 16]).
    rewrite app_assoc, !hexValue_snoc, V.
    unfold bigEndian at 2. rewrite fold_left_app. cbn [fold_left].
    fold (bigEndian 8 t).
    pose proof (Z.div_mod c 16 ltac:(lia)). change (2 ^ 8) with 256. lia.
Qed.

(** X12. [hexToBigInt] of the hex text of a byte string is the
    big-endian number of the bytes. *)
Theorem hexToBigInt_big_endian (bytes : list Z) :
  Forall (fun b => 0 <= b < 256) bytes ->
  hexToBigInt (Some (hexOf bytes)) = bigEndian 8 bytes.
Proof.
  intros H. destruct (hexOf_digits bytes H) as [I V].
  rewrite hexToBigInt_digits by exact I. exact V.
Qed.

Lemma hexToBigInt_big_endian_witness :
  hexToBigInt (Some (hexOf [3; 232])) = bigEndian 8 [3; 232].
Proof.
  apply (hexToBigInt_big_endian [3; 232]). repeat constructor; lia.
Defined.

Lemma dropWhile_keeps {A : Type} (p : A -> bool) (x : A) (l : list A) :
  In x l -> p x = false -> In x (dropWhile p l).
Proof.
  intros I H. induction l as [|y l IH]; [contradiction|].
  cbn [dropWhile]. destruct (p y) eqn:E; [|exact I].
  destruct I as [<-|I]; [congruence | exact (IH I)].
Qed.

Lemma BigInt0x_malformed (h : jsstring) (c : Z) :
  In c h -> isHexDigit c = false -> isStrWhiteSpaceChar c = false ->
  BigInt0x h = None.
Proof.
  intros I H W. unfold BigInt0x.
  assert (B : In c (rev (dropWhile isStrWhiteSpaceChar (rev h)))).
  { rewrite <- in_rev. apply dropWhile_keeps; [|exact W].
    rewrite <- in_rev. exact I. }
  destruct (rev (dropWhile isStrWhiteSpaceChar (rev h))) as [|x body] eqn:E;
    [reflexivity|].
  destruct (forallb isHexDigit (x :: body)) eqn:F; [|reflexivity].
  rewrite forallb_forall in F. specialize (F c B). congruence.
Qed.

(** X13. A string with a character that is neither a hexadecimal digit
    nor white space is read as [0]: the SyntaxError of [BigInt] is
    caught. *)
Theorem hexToBigInt_malformed_is_zero (s : jsstring) (c : Z) :
  In c s -> isHexDigit c = false -> isStrWhiteSpaceChar c = false ->
  hexToBigInt (Some s) = 0.
Proof.
  intros I H W. unfold hexToBigInt.
  destruct (falsy (Some s)); [reflexivity|].
  rewrite (BigInt0x_malformed _ c); try assumption; [reflexivity|].
  destruct (Z.odd (Z.of_nat (List.length s))); [right|]; exact I.
Qed.

Lemma hexToBigInt_malformed_is_zero_witness :
  hexToBigInt (Some (lit "12g4")) = 0.
Proof.
  apply (hexToBigInt_malformed_is_zero (lit "12g4") 103);
    [cbn; tauto | reflexivity | reflexivity].
Defined.

Lemma stripTrailingNul_padding (t : jsstring) (n : nat) :
  Forall (fun c => 0 < c < 256) t ->
  stripTrailingNul (t ++ repeat 0 n) = t.
Proof.
  intros H. induction H as [|c t Hc Ht IH].
  - cbn [app]. induction n as [|n IH]; [reflexivity|].
    cbn [repeat stripTrailingNul]. rewrite IH. reflexivity.
  - cbn [app stripTrailingNul]. rewrite IH.
    destruct t; [|reflexivity].
    destruct (Z.eqb_spec c 0); [lia | reflexivity].
Qed.

Lemma stripTrailingNul_last (s : jsstring) (d : Z) :
  d <> 0 -> last (stripTrailingNul s) d <> 0.
Proof.
  intros Hd. induction s as [|c s IH]; [exact Hd|].
  cbn [stripTrailingNul].
  destruct (stripTrailingNul s) as [|x r] eqn:E.
  - destruct (Z.eqb_spec c 0); [exact Hd | exact n].
  - change (last (c :: x :: r) d) with (last (x :: r) d). exact IH.
Qed.

Lemma fromCharCode_units (l : jsstring) :
  Forall (fun c => 0 <= c < 256) l -> fromCharCode (map Int l) = l.
Proof.
  intros H. unfold fromCharCode. rewrite map_map.
  rewrite <- (map_id l) at 2. apply map_ext_in.
  intros x Hx. rewrite Forall_forall in H. specialize (H x Hx).
  cbn [ToUint16]. apply Z.mod_small. lia.
Qed.

(** X14. NUL bytes after a text are dropped, as long as the bytes are
    no more than the engine passes as arguments: the hex text of [t]
    followed by [n] times [00] then decodes to [t], and so to the option
    [t] decodes to.  With more bytes than that the text is empty and the
    option unknown. *)
Theorem hexToAscii_strips_padding (t : jsstring) (n : nat) :
  Forall (fun c => 0 < c < 256) t ->
  (Z.of_nat (List.length t + n) <= argumentsLimit ->
   hexToAscii (Some (hexOf (t ++ repeat 0 n))) = t
   /\ decodeOption (Some (hexOf (t ++ repeat 0 n)))
      = decodeOption (Some (hexOf t)))
  /\ (argumentsLimit < Z.of_nat (List.length t + n) ->
      hexToAscii (Some (hexOf (t ++ repeat 0 n))) = []
      /\ decodeOption (Some (hexOf (t ++ repeat 0 n))) = Unknown).
Proof.
  intros H.
  assert (R : Forall (fun c => 0 <= c < 256) (t ++ repeat 0 n)).
  { apply Forall_app. split.
    - eapply Forall_impl; [|exact H]. intros x Hx. cbv beta in Hx. lia.
    - apply Forall_forall. intros x Hx. apply repeat_spec in Hx. lia. }
  assert (B : List.length (hexBytes (hexOf (t ++ repeat 0 n)))
              = (List.length t + n)%nat).
  { rewrite hexBytes_hexOf by exact R.
    rewrite length_map, length_app, repeat_length. reflexivity. }
  split.
  - intros L.
    assert (E : hexToAscii (Some (hexOf (t ++ repeat 0 n))) = t).
    { unfold hexToAscii.
      destruct (falsy (Some (hexOf (t ++ repeat 0 n)))) eqn:F.
      - destruct t as [|c t]; [reflexivity | discriminate].
      - cbv zeta. rewrite B.
        destruct (Z.ltb_spec argumentsLimit (Z.of_nat (List.length t + n)));
          [lia|].
        rewrite hexBytes_hexOf by exact R.
        rewrite fromCharCode_units by exact R.
        apply stripTrailingNul_padding. exact H. }
    split; [exact E|].
    unfold decodeOption. rewrite E, hexToAscii_hexOf by (exact H || lia).
    reflexivity.
  - intros L.
    assert (E : hexToAscii (Some (hexOf (t ++ repeat 0 n))) = []).
    { unfold hexToAscii.
      destruct (falsy (Some (hexOf (t ++ repeat 0 n)))); [reflexivity|].
      cbv zeta. rewrite B.
      destruct (Z.ltb_spec argumentsLimit (Z.of_nat (List.length t + n)));
        [reflexivity | lia]. }
    split; [exact E|]. unfold decodeOption. rewrite E. reflexivity.
Qed.

Lemma stripTrailingNul_decompose (s : jsstring) :
  exists k : nat, s = stripTrailingNul s ++ repeat 0 k.
Proof.
  induction s as [|c s [k IH]]; [exists 0%nat; reflexivity|].
  cbn [stripTrailingNul].
  destruct (stripTrailingNul s) as [|x r] eqn:E.
  - cbn [app] in IH. destruct (Z.eqb_spec c 0) as [->|N].
    + exists (S k). cbn [app repeat]. rewrite <- IH. reflexivity.
    + exists k. cbn [app]. rewrite <- IH. reflexivity.
  - exists k. cbn [app] in IH |- *. rewrite <- IH. reflexivity.
Qed.

(** X15. [hexToAscii] removes trailing NULs and nothing else, as long
    as the chunks are no more than the engine passes as arguments: the
    decoded characters are then the result followed by NULs only.  With
    more chunks the result is empty.  In neither case does the result
    end with a NUL. *)
Theorem hexToAscii_removes_trailing_nul_only (h : jsstring) :
  (Z.of_nat (List.length (hexBytes h)) <= argumentsLimit ->
   exists k : nat,
     fromCharCode (hexBytes h) = hexToAscii (Some h) ++ repeat 0 k)
  /\ (argumentsLimit < Z.of_nat (List.length (hexBytes h)) ->
      hexToAscii (Some h) = [])
  /\ last (hexToAscii (Some h)) 1 <> 0.
Proof.
  unfold hexToAscii. destruct h as [|c h].
  - split; [intros _; exists 0%nat; reflexivity|].
    split; [reflexivity | cbn; lia].
  - cbn [falsy]. cbv zeta.
    destruct (Z.ltb_spec argumentsLimit
                (Z.of_nat (List.length (hexBytes (c :: h))))) as [L|L].
    + split; [lia|]. split; [reflexivity | cbn; lia].
    + split; [intros _; apply stripTrailingNul_decompose|].
      split; [lia | apply stripTrailingNul_last; lia].
Qed.

(* ================================================================== *)
(** ** Addresses *)

Lemma bigEndian_snoc (w : Z) (l : list Z) (v : Z) :
  bigEndian w (l ++ [v]) = bigEndian w l * 2 ^ w + v.
Proof.
  unfold bigEndian. rewrite fold_left_app. reflexivity.
Qed.

Lemma bigEndian_range (w : Z) (l : list Z) :
  0 <= w ->
  Forall (fun s => 0 <= s < 2 ^ w) l ->
  0 <= bigEndian w l < 2 ^ (w * Z.of_nat (List.length l)).
Proof.
  intros Hw H. induction l as [|v l IH] using rev_ind.
  - cbn. rewrite Z.mul_0_r. cbn. lia.
  - apply Forall_app in H. destruct H as [Hl Hv].
    inversion Hv as [|? ? Hv' _]; subst. specialize (IH Hl).
    rewrite bigEndian_snoc, length_app. cbn [List.length].
    replace (w * Z.of_nat (List.length l + 1))
      with (w * Z.of_nat (List.length l) + w) by lia.
    rewrite Z.pow_add_r by lia.
    assert (0 < 2 ^ w) by (apply Z.pow_pos_nonneg; lia). nia.
Qed.

Lemma bigEndian_digits (w : Z) (k : nat) (x : Z) :
  0 <= w -> bigEndian w (digits w k x) = x mod 2 ^ (w * Z.of_nat k).
Proof.
  intros Hw. revert x. induction k as [|k IH]; intros x.
  - cbn [digits]. rewrite Z.mul_0_r. cbn. symmetry. apply Z.mod_1_r.
  - cbn [digits]. rewrite bigEndian_snoc, IH.
    replace (w * Z.of_nat (S k)) with (w + w * Z.of_nat k) by lia.
    rewrite Z.pow_add_r by lia.
    assert (0 < 2 ^ w) by (apply Z.pow_pos_nonneg; lia).
    assert (0 < 2 ^ (w * Z.of_nat k)) by (apply Z.pow_pos_nonneg; lia).
    rewrite (Z.rem_mul_r x (2 ^ w) (2 ^ (w * Z.of_nat k))) by lia. lia.
Qed.

Lemma digits_bigEndian (w : Z) (l : list Z) :
  0 <= w ->
  Forall (fun s => 0 <= s < 2 ^ w) l ->
  digits w (List.length l) (bigEndian w l) = l.
Proof.
  intros Hw H. induction l as [|v l IH] using rev_ind; [reflexivity|].
  apply Forall_app in H. destruct H as [Hl Hv].
  inversion Hv as [|? ? Hv' _]; subst. specialize (IH Hl).
  rewrite length_app, Nat.add_comm. cbn [List.length Nat.add digits].
  rewrite bigEndian_snoc.
  assert (0 < 2 ^ w) by (apply Z.pow_pos_nonneg; lia).
  replace ((bigEndian w l * 2 ^ w + v) / 2 ^ w) with (bigEndian w l).
  2:{ rewrite Z.add_comm, Z.div_add by lia. rewrite Z.div_small; lia. }
  replace ((bigEndian w l * 2 ^ w + v) mod 2 ^ w) with v.
  2:{ rewrite Z.add_comm, Z.mod_add by lia. rewrite Z.mod_small; lia. }
  rewrite IH. reflexivity.
Qed.

Lemma tooWide_symbols (w : Z) (l : list Z) :
  Forall (fun s => 0 <= s < 2 ^ w) l ->
  existsb (tooWide w) (map Int l) = false.
Proof.
  induction 1 as [|x l Hx Hl IH]; [reflexivity|].
  cbn [map existsb]. rewrite IH. unfold tooWide. cbn [ltZero intOf].
  destruct (Z.ltb_spec x 0); [lia|].
  destruct (Z.leb_spec (2 ^ w) x); [lia|]. reflexivity.
Qed.

Lemma intOf_Int (l : list Z) : map intOf (map Int l) = l.
Proof.
  rewrite map_map. cbn [intOf]. apply map_id.
Qed.

Lemma convertBits_symbols (from to : Z) (pad : bool) (l : list Z) :
  1 <= from <= 31 -> 1 <= to <= 31 -> from + to <= 33 ->
  Forall (fun s => 0 <= s < 2 ^ from) l ->
  convertBits (map Int l) from to pad = Ret (regroup from to l pad).
Proof.
  intros Hf Ht Hs H.
  assert (W : Forall (fun v => intOf v < 2 ^ 31) (map Int l)).
  { apply Forall_map. eapply Forall_impl; [|exact H].
    intros x Hx. cbv beta in Hx. cbn [intOf].
    assert (2 ^ from <= 2 ^ 31) by (apply Z.pow_le_mono_r; lia). lia. }
  rewrite convertBits_regroup by assumption.
  rewrite tooWide_symbols by assumption. rewrite intOf_Int. reflexivity.
Qed.

Lemma regroup_round_trip (payload : list Z) :
  Forall (fun x => 0 <= x < 2 ^ 8) payload ->
  exists five : list Z,
    regroup 8 5 payload true = Some five
    /\ Forall (fun s => 0 <= s < 2 ^ 5) five
    /\ regroup 5 8 five false = Some payload.
Proof.
  intros Hp.
  pose proof (bigEndian_range 8 payload ltac:(lia) Hp) as RN.
  pose proof (digits_bigEndian 8 payload ltac:(lia) Hp) as DB.
  set (N := bigEndian 8 payload) in *.
  set (n := List.length payload) in *.
  unfold regroup at 1. fold N. fold n. cbv zeta.
  pose proof (Z.div_mod (Z.of_nat n * 8) 5 ltac:(lia)) as DM.
  pose proof (Z.mod_pos_bound (Z.of_nat n * 8) 5 ltac:(lia)) as RB.
  set (r := (Z.of_nat n * 8) mod 5) in *.
  set (q := Z.of_nat n * 8 / 5) in *.
  assert (Hq : 0 <= q) by (apply Z.div_pos; lia).
  eexists. split; [reflexivity|].
  destruct (Z.eqb_spec r 0) as [E|E].
  - split; [apply digits_range; lia|].
    unfold regroup. cbv zeta.
    rewrite bigEndian_digits, digits_length by lia.
    rewrite Z2Nat.id by lia.
    replace (5 * q) with (8 * Z.of_nat n) by lia.
    rewrite (Z.mod_small N) by lia.
    replace (q * 5) with (Z.of_nat n * 8) by lia.
    rewrite Z.mod_mul, Z.div_mul by lia.
    cbn [Z.leb orb negb]. change (2 ^ 0) with 1.
    rewrite Z.mod_1_r, Z.div_1_r. cbn [Z.eqb negb orb Z.compare].
    rewrite Nat2Z.id. rewrite DB. reflexivity.
  - split; [apply digits_range; lia|].
    unfold regroup. cbv zeta.
    rewrite bigEndian_digits, digits_length by lia.
    replace (Z.of_nat (S (Z.to_nat q))) with (q + 1) by lia.
    assert (P : 0 < 2 ^ (5 - r)) by (apply Z.pow_pos_nonneg; lia).
    assert (B : N * 2 ^ (5 - r) < 2 ^ (5 * (q + 1))).
    { replace (5 * (q + 1)) with (8 * Z.of_nat n + (5 - r)) by lia.
      rewrite Z.pow_add_r by lia. nia. }
    rewrite (Z.mod_small (N * 2 ^ (5 - r))) by nia.
    replace ((q + 1) * 5) with (5 - r + Z.of_nat n * 8) by lia.
    rewrite Z.mod_add, Z.div_add by lia.
    rewrite (Z.mod_small (5 - r) 8), (Z.div_small (5 - r) 8) by lia.
    rewrite Z.mod_mul, Z.div_mul by lia.
    destruct (Z.leb_spec 5 (5 - r)); [lia|].
    cbn [Z.eqb negb orb Z.add]. rewrite Nat2Z.id, DB. reflexivity.
Qed.

(** X16. Regrouping bytes into five-bit symbols with padding and the
    symbols back into bytes without padding gives the bytes back, for a
    byte string of any length. *)
Theorem convertBits_bytes_round_trip (payload : list Z) :
  Forall (fun x => 0 <= x < 2 ^ 8) payload ->
  exists five : list Z,
    convertBits (map Int payload) 8 5 true = Ret (Some five)
    /\ Forall (fun s => 0 <= s < 32) five
    /\ convertBits (map Int five) 5 8 false = Ret (Some payload).
Proof.
  intros Hp. destruct (regroup_round_trip payload Hp) as (five & E1 & R & E2).
  exists five. rewrite !convertBits_symbols by (assumption || lia).
  rewrite E1, E2. repeat split; try reflexivity. exact R.
Qed.

Lemma convertBits_bytes_round_trip_witness :
  exists five : list Z,
    convertBits (map Int [255; 0; 171]) 8 5 true = Ret (Some five)
    /\ Forall (fun s => 0 <= s < 32) five
    /\ convertBits (map Int five) 5 8 false = Ret (Some [255; 0; 171]).
Proof.
  apply (convertBits_bytes_round_trip [255; 0; 171]).
  repeat constructor; lia.
Defined.

Lemma polymodFrom_snoc (c : Z) (l : list Z) (v : Z) :
  polymodFrom c (l ++ [v]) = polymodStep (polymodFrom c l) v.
Proof.
  unfold polymodFrom. rewrite fold_left_app. reflexivity.
Qed.

Lemma polymodFrom_app (c : Z) (l1 l2 : list Z) :
  polymodFrom c (l1 ++ l2) = polymodFrom (polymodFrom c l1) l2.
Proof.
  unfold polymodFrom. apply fold_left_app.
Qed.

Lemma polymodPure_low (b v : Z) :
  0 <= b < 2 ^ 25 -> 0 <= v < 32 -> polymodPure b v = b * 2 ^ 5 + v.
Proof.
  intros Hb Hv. unfold polymodPure.
  rewrite (Z.shiftr_div_pow2 b 25), (Z.div_small b (2 ^ 25)) by lia.
  change (generatorMix 0) with 0. rewrite Z.lxor_0_r.
  change 0x1ffffff with (Z.ones 25). rewrite Z.land_ones by lia.
  rewrite Z.mod_small by lia.
  rewrite Z.shiftl_mul_pow2 by lia.
  rewrite <- Z.add_nocarry_lxor; [reflexivity|].
  apply Z.bits_inj'. intros i Hi. rewrite Z.land_spec, Z.bits_0.
  destruct (Z.ltb_spec i 5).
  - rewrite Z.mul_pow2_bits_low by lia. reflexivity.
  - replace (Z.testbit v i) with false; [apply andb_false_r|].
    symmetry. destruct (Z.eq_dec v 0) as [->|]; [apply Z.bits_0|].
    apply Z.bits_above_log2; [lia|].
    apply Z.log2_lt_pow2; [lia|].
    apply Z.lt_le_trans with (2 ^ 5); [lia|]. apply Z.pow_le_mono_r; lia.
Qed.

(** The register after up to six symbols: what zero symbols give, with
    the symbols themselves added as one number. *)
Lemma polymodFrom_symbols (c : Z) (l : list Z) :
  0 <= c < 2 ^ 30 ->
  Forall (fun s => 0 <= s < 2 ^ 5) l ->
  (List.length l <= 6)%nat ->
  polymodFrom c l
  = Z.lxor (polymodFrom c (repeat 0 (List.length l))) (bigEndian 5 l).
Proof.
  intros Hc H. induction l as [|v l IH] using rev_ind; intros L.
  - cbn. symmetry. apply Z.lxor_0_r.
  - apply Forall_app in H. destruct H as [Hl Hv].
    inversion Hv as [|? ? Hv' _]; subst.
    rewrite length_app in L |- *. cbn [List.length] in L |- *.
    specialize (IH Hl ltac:(lia)).
    rewrite repeat_app. cbn [repeat].
    rewrite !polymodFrom_snoc, bigEndian_snoc.
    pose proof (bigEndian_range 5 l ltac:(lia) Hl) as RB.
    assert (RB' : 0 <= bigEndian 5 l < 2 ^ 25).
    { split; [lia|]. apply Z.lt_le_trans with (1 := proj2 RB).
      apply Z.pow_le_mono_r; lia. }
    assert (RZ : Forall (fun s => 0 <= s < 2 ^ 30)
                   (repeat 0 (List.length l))).
    { apply Forall_forall. intros x Hx. apply repeat_spec in Hx. lia. }
    pose proof (polymodFrom_range _ RZ c Hc) as RP.
    assert (RL : Forall (fun s => 0 <= s < 2 ^ 30) l).
    { eapply Forall_impl; [|exact Hl]. intros x Hx. cbv beta in Hx. lia. }
    pose proof (polymodFrom_range _ RL c Hc) as RQ.
    rewrite !polymodStep_pure by (assumption || lia).
    rewrite IH. rewrite <- (Z.lxor_0_l v) at 1.
    rewrite polymodPure_lxor. f_equal.
    apply polymodPure_low; [exact RB' | lia].
Qed.

Lemma six_symbols_value (m : Z) :
  0 <= m < 2 ^ 30 ->
  bigEndian 5
    (map (fun p => Int32.and (Int32.sar m (5 * (5 - p))) 31)
       [0; 1; 2; 3; 4; 5])
  = m.
Proof.
  intros Hm. cbn [map].
  change (5 * (5 - 0)) with 25. change (5 * (5 - 1)) with 20.
  change (5 * (5 - 2)) with 15. change (5 * (5 - 3)) with 10.
  change (5 * (5 - 4)) with 5. change (5 * (5 - 5)) with 0.
  rewrite !and_sar_31 by lia. unfold bigEndian. cbn [fold_left].
  pose proof (Z.div_mod m (2 ^ 5) ltac:(lia)) as E0.
  pose proof (Z.div_mod (m / 2 ^ 5) (2 ^ 5) ltac:(lia)) as E1.
  pose proof (Z.div_mod (m / 2 ^ 10) (2 ^ 5) ltac:(lia)) as E2.
  pose proof (Z.div_mod (m / 2 ^ 15) (2 ^ 5) ltac:(lia)) as E3.
  pose proof (Z.div_mod (m / 2 ^ 20) (2 ^ 5) ltac:(lia)) as E4.
  pose proof (Z.div_mod (m / 2 ^ 25) (2 ^ 5) ltac:(lia)) as E5.
  rewrite Z.div_div in E1, E2, E3, E4, E5 by lia.
  change (2 ^ 5 * 2 ^ 5) with (2 ^ 10) in E1.
  change (2 ^ 10 * 2 ^ 5) with (2 ^ 15) in E2.
  change (2 ^ 15 * 2 ^ 5) with (2 ^ 20) in E3.
  change (2 ^ 20 * 2 ^ 5) with (2 ^ 25) in E4.
  change (2 ^ 25 * 2 ^ 5) with (2 ^ 30) in E5.
  rewrite (Z.div_small m (2 ^ 30)) in E5 by lia.
  rewrite Z.pow_0_r, Z.div_1_r. lia.
Qed.

Lemma bech32HrpExpand_range (hrp : jsstring) :
  Forall (fun c => 0 <= c < 2 ^ 16) hrp ->
  Forall (fun s => 0 <= s < 2 ^ 30) (bech32HrpExpand hrp).
Proof.
  intros H. unfold bech32HrpExpand.
  apply Forall_app. split; [|apply Forall_app; split].
  - apply Forall_map. eapply Forall_impl; [|exact H].
    intros c Hc. cbv beta in Hc. unfold Int32.sar.
    rewrite wrap_small by lia. change (5 mod 32) with 5.
    rewrite Z.shiftr_div_pow2 by lia.
    split; [apply Z.div_pos; lia|]. apply Z.div_lt_upper_bound; lia.
  - repeat constructor; lia.
  - apply Forall_map. eapply Forall_impl; [|exact H].
    intros c Hc. cbv beta in Hc. rewrite and_31.
    pose proof (Z.mod_pos_bound c (2 ^ 5) ltac:(lia)). lia.
Qed.

(** X17. The checksum is a valid bech32 checksum: the polymod of the
    expanded prefix, the data symbols and the six checksum symbols is
    [1]. *)
Theorem bech32CreateChecksum_verifies (hrp : jsstring) (data : list Z) :
  Forall (fun c => 0 <= c < 2 ^ 16) hrp ->
  Forall (fun s => 0 <= s < 32) data ->
  bech32Polymod
    (bech32HrpExpand hrp ++ data ++ bech32CreateChecksum hrp data)
  = 1.
Proof.
  intros Hh Hd.
  assert (Rd : Forall (fun s => 0 <= s < 2 ^ 30) data).
  { eapply Forall_impl; [|exact Hd]. intros x Hx. cbv beta in Hx. lia. }
  assert (Rv : Forall (fun s => 0 <= s < 2 ^ 30)
                 (bech32HrpExpand hrp ++ data)).
  { apply Forall_app.
    split; [apply bech32HrpExpand_range; exact Hh | exact Rd]. }
  pose proof (polymodFrom_range _ Rv 1 ltac:(lia)) as Rr.
  set (r := polymodFrom 1 (bech32HrpExpand hrp ++ data)) in *.
  assert (Rz : Forall (fun s => 0 <= s < 2 ^ 30) [0; 0; 0; 0; 0; 0])
    by (repeat constructor; lia).
  pose proof (polymodFrom_range _ Rz r Rr) as Rp.
  destruct (bech32CreateChecksum_symbols hrp data) as [L S].
  change (bech32Polymod ?l) with (polymodFrom 1 l).
  rewrite app_assoc, polymodFrom_app. fold r.
  rewrite polymodFrom_symbols by (try assumption; rewrite ?L; lia).
  rewrite L. cbn [repeat].
  unfold bech32CreateChecksum. cbv zeta.
  change (bech32Polymod ?l) with (polymodFrom 1 l).
  rewrite app_assoc, polymodFrom_app. fold r.
  destruct (xor_small (polymodFrom r [0; 0; 0; 0; 0; 0]) 1 Rp ltac:(lia))
    as [-> Rx].
  rewrite six_symbols_value by exact Rx.
  rewrite <- Z.lxor_assoc, Z.lxor_nilpotent. reflexivity.
Qed.

Lemma bech32CreateChecksum_verifies_witness :
  bech32Polymod
    (bech32HrpExpand (lit "erd") ++ [1; 2; 3]
     ++ bech32CreateChecksum (lit "erd") [1; 2; 3])
  = 1.
Proof.
  apply (bech32CreateChecksum_verifies (lit "erd") [1; 2; 3]);
    repeat constructor; cbn; lia.
Defined.

Lemma hexToBech32Erd_payload (payload : list Z) :
  List.length payload = 32%nat ->
  Forall (fun x => 0 <= x < 2 ^ 8) payload ->
  hexToBech32Erd (Some (hexOf payload))
  = Ret (Some (addressText (digits 5 52 (bigEndian 8 payload * 2 ^ 4)))).
Proof.
  intros L H. rewrite hexToBech32Erd_value.
  rewrite hexBytes_hexOf
    by (eapply Forall_impl; [|exact H]; intros x Hx; cbv beta in Hx;
        change (2 ^ 8) with 256 in Hx; exact Hx).
  rewrite length_map, L. cbn [Nat.eqb andb].
  assert (E : existsb ltZero (map Int payload) = false).
  { clear L. induction H as [|x l Hx Hl IH]; [reflexivity|].
    cbn [map existsb ltZero]. rewrite IH.
    destruct (Z.ltb_spec x 0); [lia | reflexivity]. }
  rewrite E. cbn [negb]. unfold fiveBitSymbols. rewrite intOf_Int.
  reflexivity.
Qed.

Lemma app_same_length_head {A : Type} (l1 l2 r1 r2 : list A) :
  List.length l1 = List.length l2 -> l1 ++ r1 = l2 ++ r2 -> l1 = l2.
Proof.
  revert l2. induction l1 as [|x l1 IH]; intros [|y l2] L H;
    try discriminate; [reflexivity|].
  cbn in L, H. injection L as L. injection H as -> H.
  f_equal. apply IH; assumption.
Qed.

Lemma addressText_inj (f1 f2 : list Z) :
  Forall (fun s => 0 <= s < 32) f1 -> Forall (fun s => 0 <= s < 32) f2 ->
  List.length f1 = List.length f2 ->
  addressText f1 = addressText f2 -> f1 = f2.
Proof.
  intros R1 R2 L H. unfold addressText in H.
  apply app_inv_head in H.
  apply map_symbolChar_inj in H.
  - exact (app_same_length_head _ _ _ _ L H).
  - apply Forall_app. split; [exact R1|].
    apply bech32CreateChecksum_symbols.
  - apply Forall_app. split; [exact R2|].
    apply bech32CreateChecksum_symbols.
Qed.

Lemma Ret_Some_inj {A : Type} (a b : A) :
  Ret (Some a) = Ret (Some b) -> a = b.
Proof.
  intros H. injection H as H. exact H.
Qed.

(** X18. Two 32-byte keys with the same [erd1] address are the same
    key. *)
Theorem hexToBech32Erd_injective (p1 p2 : list Z) :
  List.length p1 = 32%nat -> List.length p2 = 32%nat ->
  Forall (fun x => 0 <= x < 2 ^ 8) p1 ->
  Forall (fun x => 0 <= x < 2 ^ 8) p2 ->
  hexToBech32Erd (Some (hexOf p1)) = hexToBech32Erd (Some (hexOf p2)) ->
  p1 = p2.
Proof.
  intros L1 L2 H1 H2 E.
  rewrite !hexToBech32Erd_payload in E by assumption.
  apply Ret_Some_inj in E.
  apply addressText_inj in E;
    [|apply (digits_range 5); lia | apply (digits_range 5); lia
     |rewrite !digits_length; reflexivity].
  apply (f_equal (bigEndian 5)) in E.
  rewrite !bigEndian_digits in E by lia.
  pose proof (bigEndian_range 8 p1 ltac:(lia) H1) as R1.
  pose proof (bigEndian_range 8 p2 ltac:(lia) H2) as R2.
  rewrite L1 in R1. rewrite L2 in R2.
  replace (5 * Z.of_nat 52) with (8 * Z.of_nat 32 + 4) in E by reflexivity.
  rewrite Z.pow_add_r in E by lia.
  set (M := 2 ^ (8 * Z.of_nat 32)) in *.
  rewrite !Z.mul_mod_distr_r in E by lia.
  rewrite !Z.mod_small in E by lia.
  assert (N : bigEndian 8 p1 = bigEndian 8 p2) by lia.
  clearbody M.
  rewrite <- (digits_bigEndian 8 p1), <- (digits_bigEndian 8 p2)
    by (assumption || lia).
  rewrite L1, L2, N. reflexivity.
Qed.

Lemma hexToBech32Erd_injective_witness :
  repeat 0 32 = repeat 0 32.
Proof.
  apply (hexToBech32Erd_injective (repeat 0 32) (repeat 0 32));
    try reflexivity;
    apply Forall_forall; intros x Hx; apply repeat_spec in Hx; lia.
Defined.

(* ================================================================== *)
(** ** Amounts as text *)

Lemma decimalLoop_acc (fuel : nat) (n : Z) (acc : jsstring) :
  decimalLoop fuel n acc = decimalLoop fuel n [] ++ acc.
Proof.
  revert n acc. induction fuel as [|f IH]; intros n acc; [reflexivity|].
  cbn [decimalLoop]. destruct (n / 10 =? 0); [reflexivity|].
  rewrite IH, (IH _ [48 + n mod 10]). rewrite <- app_assoc. reflexivity.
Qed.

Lemma decimalLoop_fuel (f1 f2 : nat) (n : Z) (acc : jsstring) :
  0 <= n < 10 ^ Z.of_nat (S f1) -> n < 10 ^ Z.of_nat (S f2) ->
  decimalLoop (S f1) n acc = decimalLoop (S f2) n acc.
Proof.
  revert f2 n acc. induction f1 as [|f1 IH]; intros f2 n acc H1 H2.
  - cbn [decimalLoop]. change (10 ^ Z.of_nat 1) with 10 in H1.
    rewrite Z.div_small by lia. reflexivity.
  - cbn [decimalLoop].
    destruct (Z.eqb_spec (n / 10) 0) as [E|E]; [reflexivity|].
    rewrite Nat2Z.inj_succ, Z.pow_succ_r in H1, H2 by lia.
    assert (P : 0 <= n / 10) by (apply Z.div_pos; lia).
    destruct f2 as [|f2].
    + change (10 * 10 ^ Z.of_nat 0) with 10 in H2.
      rewrite Z.div_small in E by lia. contradiction.
    + apply IH.
      * split; [exact P|]. apply Z.div_lt_upper_bound; lia.
      * apply Z.div_lt_upper_bound; lia.
Qed.

Lemma decimal_fuel (n : Z) :
  0 <= n -> n < 10 ^ Z.of_nat (S (Z.to_nat (Z.log2 n))).
Proof.
  intros H. destruct (Z.eq_dec n 0) as [->|N]; [cbn; lia|].
  pose proof (Z.log2_spec n ltac:(lia)) as [_ U].
  pose proof (Z.log2_nonneg n) as L.
  rewrite Nat2Z.inj_succ, Z2Nat.id by lia.
  apply Z.lt_le_trans with (1 := U).
  apply Z.pow_le_mono_l. lia.
Qed.

Lemma decimal_small (n : Z) : 0 <= n < 10 -> decimal n = [48 + n].
Proof.
  intros H. unfold decimal. cbn [decimalLoop].
  rewrite Z.div_small, Z.mod_small by lia. reflexivity.
Qed.

Lemma decimal_step (n : Z) :
  10 <= n -> decimal n = decimal (n / 10) ++ [48 + n mod 10].
Proof.
  intros H. unfold decimal at 1. cbn [decimalLoop].
  destruct (Z.eqb_spec (n / 10) 0) as [E|E].
  - pose proof (Z.div_mod n 10 ltac:(lia)).
    pose proof (Z.mod_pos_bound n 10 ltac:(lia)). lia.
  - rewrite decimalLoop_acc. f_equal. unfold decimal.
    assert (P : 0 <= n / 10) by (apply Z.div_pos; lia).
    assert (Q : n / 10 < 10 ^ Z.of_nat (Z.to_nat (Z.log2 n))).
    { pose proof (decimal_fuel n ltac:(lia)) as F.
      rewrite Nat2Z.inj_succ, Z.pow_succ_r in F by lia.
      apply Z.div_lt_upper_bound; lia. }
    destruct (Z.to_nat (Z.log2 n)) as [|f] eqn:Ef.
    + change (10 ^ Z.of_nat 0) with 1 in Q. lia.
    + apply decimalLoop_fuel; [split; assumption|].
      apply decimal_fuel. exact P.
Qed.

(** Induction on the decimal numeral of a number. *)
Lemma decimal_induction (P : Z -> Prop) :
  (forall n, 0 <= n < 10 -> P n) ->
  (forall n, 10 <= n -> P (n / 10) -> P n) ->
  forall n, 0 <= n -> P n.
Proof.
  intros B S n Hn. pattern n. apply Zlt_0_ind; [|exact Hn].
  clear n Hn. intros n IH Hn.
  destruct (Z_lt_le_dec n 10) as [L|G].
  - apply B. lia.
  - apply S; [exact G|]. apply IH.
    split; [apply Z.div_pos; lia|]. apply Z.div_lt_upper_bound; lia.
Qed.

Lemma decValue_snoc (s : jsstring) (c : Z) :
  decValue (s ++ [c]) = 10 * decValue s + (c - 48).
Proof.
  unfold decValue. rewrite fold_left_app. reflexivity.
Qed.

Lemma isDigit_char (d : Z) : 0 <= d < 10 -> isDigit (48 + d) = true.
Proof.
  intros H. unfold isDigit.
  destruct (Z.leb_spec 48 (48 + d)); [|lia].
  destruct (Z.leb_spec (48 + d) 57); [reflexivity | lia].
Qed.

(** The numeral of [n]: digits only, denoting [n], and starting with
    ['0'] only for zero. *)
Lemma decimal_numeral (n : Z) :
  0 <= n ->
  forallb isDigit (decimal n) = true
  /\ decValue (decimal n) = n
  /\ decimal n <> []
  /\ (hd 0 (decimal n) = 48 -> n = 0).
Proof.
  intros Hn. pattern n. apply decimal_induction; [| |exact Hn]; clear n Hn.
  - intros n H. rewrite decimal_small by exact H.
    cbn [forallb hd]. rewrite isDigit_char by lia.
    split; [reflexivity|]. split; [unfold decValue; cbn [fold_left]; lia|].
    split; [discriminate | lia].
  - intros n H (D & V & N & Z0). rewrite decimal_step by exact H.
    pose proof (Z.mod_pos_bound n 10 ltac:(lia)) as M.
    pose proof (Z.div_mod n 10 ltac:(lia)) as E.
    split; [|split; [|split]].
    + rewrite forallb_app, D. cbn [forallb].
      rewrite isDigit_char by lia. reflexivity.
    + rewrite decValue_snoc, V. lia.
    + destruct (decimal (n / 10)); discriminate.
    + destruct (decimal (n / 10)) as [|c r] eqn:Ed; [congruence|].
      cbn [app hd] in *. intros H0. specialize (Z0 H0).
      pose proof (Z.div_le_lower_bound n 10 1 ltac:(lia) ltac:(lia)). lia.
Qed.

Lemma decDigits_length (k : nat) (n : Z) : List.length (decDigits k n) = k.
Proof.
  revert n. induction k as [|k IH]; intros n; [reflexivity|].
  cbn [decDigits]. rewrite length_app, IH. cbn. lia.
Qed.

Lemma decDigits_digits (k : nat) (n : Z) :
  forallb isDigit (decDigits k n) = true.
Proof.
  revert n. induction k as [|k IH]; intros n; [reflexivity|].
  cbn [decDigits]. rewrite forallb_app, IH. cbn [forallb].
  rewrite isDigit_char by (apply Z.mod_pos_bound; lia). reflexivity.
Qed.

Lemma decDigits_value (k : nat) (n : Z) :
  decValue (decDigits k n) = n mod 10 ^ Z.of_nat k.
Proof.
  revert n. induction k as [|k IH]; intros n.
  - cbn. symmetry. apply Z.mod_1_r.
  - cbn [decDigits]. rewrite decValue_snoc, IH.
    rewrite Nat2Z.inj_succ, Z.pow_succ_r by lia.
    assert (0 < 10 ^ Z.of_nat k) by (apply Z.pow_pos_nonneg; lia).
    rewrite (Z.rem_mul_r n 10 (10 ^ Z.of_nat k)) by lia. lia.
Qed.

Lemma decDigits_zero (k : nat) : decDigits k 0 = repeat 48 k.
Proof.
  induction k as [|k IH]; [reflexivity|].
  cbn [decDigits]. change (0 / 10) with 0. rewrite IH.
  change [48 + 0 mod 10] with (repeat 48 1). rewrite <- repeat_app.
  f_equal. lia.
Qed.

Lemma decDigits_mod (k : nat) (n : Z) :
  decDigits k (n mod 10 ^ Z.of_nat k) = decDigits k n.
Proof.
  revert n. induction k as [|k IH]; intros n; [reflexivity|].
  cbn [decDigits]. rewrite Nat2Z.inj_succ, Z.pow_succ_r by lia.
  assert (P : 0 < 10 ^ Z.of_nat k) by (apply Z.pow_pos_nonneg; lia).
  rewrite (Z.rem_mul_r n 10 (10 ^ Z.of_nat k)) by lia.
  pose proof (Z.mod_pos_bound n 10 ltac:(lia)) as M.
  replace ((n mod 10 + 10 * ((n / 10) mod 10 ^ Z.of_nat k)) / 10)
    with ((n / 10) mod 10 ^ Z.of_nat k).
  2:{ rewrite Z.add_comm, Z.mul_comm, Z.div_add_l by lia.
      rewrite (Z.div_small (n mod 10)) by lia. lia. }
  replace ((n mod 10 + 10 * ((n / 10) mod 10 ^ Z.of_nat k)) mod 10)
    with (n mod 10).
  2:{ rewrite Z.mul_comm, Z.mod_add by lia.
      rewrite Z.mod_mod by lia. reflexivity. }
  rewrite IH. reflexivity.
Qed.

(** The numeral of a number of more than [k] digits: the numeral of what
    is left of the last [k] digits, then those digits. *)
Lemma decimal_split (k : nat) (n : Z) :
  10 ^ Z.of_nat k <= n ->
  decimal n = decimal (n / 10 ^ Z.of_nat k) ++ decDigits k n.
Proof.
  revert n. induction k as [|k IH]; intros n H.
  - cbn [decDigits]. change (10 ^ Z.of_nat 0) with 1.
    rewrite Z.div_1_r, app_nil_r. reflexivity.
  - rewrite Nat2Z.inj_succ, Z.pow_succ_r in H |- * by lia.
    assert (P : 0 < 10 ^ Z.of_nat k) by (apply Z.pow_pos_nonneg; lia).
    rewrite decimal_step by lia. cbn [decDigits].
    rewrite (IH (n / 10)) by (apply Z.div_le_lower_bound; lia).
    rewrite Z.div_div by lia. rewrite <- app_assoc. reflexivity.
Qed.

(** A short numeral padded to [k] characters is the [k]-digit form. *)
Lemma padStart_decimal (k : nat) (n : Z) :
  0 <= n < 10 ^ Z.of_nat (S k) ->
  padStart (S k) (decimal n) = decDigits (S k) n
  /\ (List.length (decimal n) <= S k)%nat.
Proof.
  revert n. induction k as [|k IH]; intros n H.
  - change (10 ^ Z.of_nat 1) with 10 in H.
    rewrite decimal_small by exact H. cbn [decDigits padStart].
    rewrite Z.mod_small by lia. split; [reflexivity | cbn; lia].
  - destruct (Z_lt_le_dec n 10) as [L|G].
    + rewrite decimal_small by lia. split; [|cbn; lia].
      change (decDigits (S (S k)) n)
        with (decDigits (S k) (n / 10) ++ [48 + n mod 10]).
      rewrite (Z.div_small n 10), decDigits_zero by lia.
      rewrite (Z.mod_small n 10) by lia. reflexivity.
    + rewrite decimal_step by exact G.
      rewrite Nat2Z.inj_succ, Z.pow_succ_r in H by lia.
      destruct (IH (n / 10)) as [E Len].
      { split; [apply Z.div_pos; lia|]. apply Z.div_lt_upper_bound; lia. }
      split; [|rewrite length_app; cbn [List.length]; lia].
      change (decDigits (S (S k)) n)
        with (decDigits (S k) (n / 10) ++ [48 + n mod 10]).
      rewrite <- E. unfold padStart. rewrite length_app. cbn [List.length].
      rewrite <- app_assoc. f_equal. f_equal. lia.
Qed.

Lemma firstn_decDigits (j k : nat) (n : Z) :
  (j <= k)%nat ->
  firstn j (decDigits k n) = decDigits j (n / 10 ^ Z.of_nat (k - j)).
Proof.
  revert n. induction k as [|k IH]; intros n H.
  - assert (j = 0%nat) by lia. subst j. reflexivity.
  - destruct (Nat.eq_dec j (S k)) as [->|N].
    + rewrite Nat.sub_diag. change (10 ^ Z.of_nat 0) with 1.
      rewrite Z.div_1_r. rewrite <- (decDigits_length (S k) n) at 1.
      apply firstn_all.
    + cbn [decDigits]. rewrite firstn_app, decDigits_length.
      replace (j - k)%nat with 0%nat by lia. cbn [firstn].
      rewrite app_nil_r, IH by lia.
      replace (S k - j)%nat with (S (k - j)) by lia.
      rewrite Nat2Z.inj_succ, Z.pow_succ_r by lia.
      assert (0 < 10 ^ Z.of_nat (k - j)) by (apply Z.pow_pos_nonneg; lia).
      rewrite Z.div_div by lia. reflexivity.
Qed.

Lemma isDigit_word (c : Z) : isDigit c = true -> isWordChar c = true.
Proof.
  intros H. unfold isWordChar. rewrite H. reflexivity.
Qed.

Lemma isDigit_not_comma (c : Z) : isDigit c = true -> negb (c =? 44) = true.
Proof.
  unfold isDigit. intros H. apply andb_true_iff in H.
  destruct H as [H _]. apply Z.leb_le in H.
  destruct (Z.eqb_spec c 44); [lia | reflexivity].
Qed.

Lemma removeCommas_digits (s : jsstring) :
  forallb isDigit s = true -> removeCommas s = s.
Proof.
  induction s as [|c s IH]; [reflexivity|].
  cbn [forallb removeCommas filter]. intros H.
  apply andb_true_iff in H. destruct H as [Hc Hs].
  rewrite (isDigit_not_comma c Hc). f_equal. apply IH. exact Hs.
Qed.

(** The replacement only puts commas in. *)
Lemma removeCommas_insertCommas (p : bool) (s : jsstring) :
  removeCommas (insertCommas p s) = removeCommas s.
Proof.
  revert p. induction s as [|c s IH]; intros p; [reflexivity|].
  cbn [insertCommas]. unfold removeCommas in *.
  rewrite filter_app. cbn [filter]. rewrite IH.
  destruct (p && isWordChar c && negb (Nat.eqb (digitRun (c :: s)) 0)
            && Nat.eqb (Nat.modulo (digitRun (c :: s)) 3) 0);
    reflexivity.
Qed.

Lemma digitRun_app (s t : jsstring) :
  forallb isDigit s = true ->
  digitRun (s ++ t) = (List.length s + digitRun t)%nat.
Proof.
  induction s as [|c s IH]; [reflexivity|].
  cbn [forallb app digitRun List.length]. intros H.
  apply andb_true_iff in H. destruct H as [Hc Hs].
  rewrite Hc, IH by exact Hs. reflexivity.
Qed.

(** Three more digits at the end of a run of digits: the commas of the
    run stay where they are, and one goes in before the three digits
    unless they start the text. *)
Lemma insertCommas_group (s : jsstring) (a b c : Z) :
  forallb isDigit s = true ->
  isDigit a = true -> isDigit b = true -> isDigit c = true ->
  forall p : bool,
    insertCommas p (s ++ [a; b; c])
    = insertCommas p s
      ++ (if p || negb (Nat.eqb (List.length s) 0) then [44] else [])
      ++ [a; b; c].
Proof.
  intros Hs Ha Hb Hc. induction s as [|x s IH]; intros p.
  - cbn [app insertCommas digitRun List.length]. rewrite Ha, Hb, Hc.
    rewrite !isDigit_word by assumption.
    cbn. rewrite !andb_true_r, orb_false_r. destruct p; reflexivity.
  - cbn [forallb] in Hs. apply andb_true_iff in Hs. destruct Hs as [Hx Hs].
    specialize (IH Hs).
    change ((x :: s) ++ [a; b; c]) with (x :: (s ++ [a; b; c])).
    cbn [insertCommas]. rewrite IH. rewrite (isDigit_word x Hx).
    cbn [orb]. 
    assert (R : digitRun (x :: s ++ [a; b; c])
                = (3 + digitRun (x :: s))%nat).
    { cbn [digitRun]. rewrite Hx.
      rewrite !digitRun_app by exact Hs.
      cbn [digitRun]. rewrite Ha, Hb, Hc.
      rewrite <- (app_nil_r s) at 2. rewrite digitRun_app by exact Hs.
      cbn [digitRun]. lia. }
    rewrite R.
    assert (M : Nat.modulo (3 + digitRun (x :: s)) 3
                = Nat.modulo (digitRun (x :: s)) 3).
    { rewrite Nat.add_comm. 
      rewrite <- (Nat.mul_1_l 3) at 1. apply Nat.Div0.mod_add. }
    rewrite M.
    assert (Z1 : Nat.eqb (3 + digitRun (x :: s)) 0 = false) by reflexivity.
    assert (Z2 : Nat.eqb (digitRun (x :: s)) 0 = false)
      by (cbn [digitRun]; rewrite Hx; reflexivity).
    rewrite Z1, Z2. cbn [List.length Nat.eqb negb]. rewrite orb_true_r.
    rewrite <- !app_assoc. reflexivity.
Qed.

Lemma insertCommas_short (s : jsstring) :
  forallb isDigit s = true -> (List.length s <= 3)%nat ->
  insertCommas false s = s.
Proof.
  intros H L.
  destruct s as [|a [|b [|c [|d s]]]]; cbn [List.length] in L; try lia;
    cbn [forallb] in H; repeat (apply andb_true_iff in H;
                                 destruct H as [? H]);
    cbn [insertCommas digitRun app andb];
    repeat match goal with
           | D : isDigit ?x = true |- _ =>
               rewrite ?D, ?(isDigit_word x D); clear D
           end;
    reflexivity.
Qed.

Lemma decDigits_three (n : Z) :
  exists a b c : Z,
    decDigits 3 n = [a; b; c]
    /\ isDigit a = true /\ isDigit b = true /\ isDigit c = true.
Proof.
  pose proof (decDigits_digits 3 n) as D.
  cbn [decDigits app] in *.
  eexists _, _, _. split; [reflexivity|].
  cbn [forallb] in D. rewrite !andb_true_iff in D. tauto.
Qed.

Lemma BigInt_toString_nonneg (n : Z) :
  0 <= n -> BigInt_toString n = decimal n.
Proof.
  intros H. unfold BigInt_toString.
  destruct (Z.ltb_spec n 0); [lia | reflexivity].
Qed.

Lemma bigThousands_short_value (n : Z) :
  0 <= n ->
  forallb isDigit (removeCommas (bigThousands n)) = true
  /\ decValue (removeCommas (bigThousands n)) = n.
Proof.
  intros Hn. unfold bigThousands. rewrite removeCommas_insertCommas.
  rewrite BigInt_toString_nonneg by exact Hn.
  destruct (decimal_numeral n Hn) as (D & V & _ & _).
  rewrite removeCommas_digits by exact D. split; assumption.
Qed.

(** X19. [bigThousands] cuts the numeral into groups of three digits
    from the right: a number below [1000] is printed as it is, a larger
    one as the grouped text of [n / 1000], a comma, and the three digits
    of [n mod 1000]; the sign of a negative number stays in front; and
    without the commas the text is the numeral. *)
Theorem bigThousands_groups_of_three (n : Z) :
  0 <= n ->
  bigThousands n
  = (if n <? 1000 then BigInt_toString n
     else bigThousands (n / 1000) ++ lit "," ++ decDigits 3 (n mod 1000))
  /\ (0 < n -> bigThousands (- n) = lit "-" ++ bigThousands n)
  /\ removeCommas (bigThousands n) = BigInt_toString n.
Proof.
  intros Hn. split; [|split].
  - unfold bigThousands. rewrite !BigInt_toString_nonneg by lia.
    destruct (Z.ltb_spec n 1000) as [L|G].
    + assert (B : 0 <= n < 10 ^ Z.of_nat 3)
        by (change (10 ^ Z.of_nat 3) with 1000; lia).
      destruct (padStart_decimal 2 n B) as [_ Len].
      apply insertCommas_short; [|exact Len].
      apply decimal_numeral. exact Hn.
    + assert (Q : 0 <= n / 1000) by (apply Z.div_pos; lia).
      rewrite BigInt_toString_nonneg by exact Q.
      rewrite (decimal_split 3 n) by (change (10 ^ Z.of_nat 3) with 1000; lia).
      change (10 ^ Z.of_nat 3) with 1000.
      rewrite <- (decDigits_mod 3 n). change (10 ^ Z.of_nat 3) with 1000.
      destruct (decDigits_three (n mod 1000))
        as (a & b & c & -> & Ha & Hb & Hc).
      destruct (decimal_numeral (n / 1000) Q) as (D & _ & N & _).
      rewrite insertCommas_group by assumption.
      destruct (decimal (n / 1000)); [congruence | reflexivity].
  - intros P. unfold bigThousands, BigInt_toString.
    destruct (Z.ltb_spec (- n) 0); [|lia].
    destruct (Z.ltb_spec n 0); [lia|].
    rewrite Z.opp_involutive. reflexivity.
  - unfold bigThousands. rewrite removeCommas_insertCommas.
    rewrite BigInt_toString_nonneg by exact Hn.
    apply removeCommas_digits. apply decimal_numeral. exact Hn.
Qed.

Lemma bigThousands_groups_of_three_witness :
  bigThousands 1234567
  = bigThousands 1234 ++ lit "," ++ decDigits 3 567
  /\ bigThousands (- 1234567) = lit "-" ++ bigThousands 1234567.
Proof.
  destruct (bigThousands_groups_of_three 1234567 ltac:(lia)) as (A & B & _).
  split; [exact A | apply B; lia].
Defined.

(** X20. [formatEgld] prints the amount cut off (not rounded) after four
    decimals: the text is the sign, an integer part, a point, exactly four
    digits and [ EGLD], and the integer part (commas apart) and the four
    digits together denote [|amount| / 10^14]. *)
Theorem formatEgld_truncates_to_four_decimals (v : Variant) (amount : Z) :
  exists intText fracText : jsstring,
    formatEgld v amount
    = (if amount <? 0 then lit "-" else [])
      ++ intText ++ lit "." ++ fracText ++ lit " EGLD"
    /\ List.length fracText = 4%nat
    /\ forallb isDigit fracText = true
    /\ forallb isDigit (removeCommas intText) = true
    /\ decValue (removeCommas intText) * 10 ^ 4 + decValue fracText
       = Z.abs amount / 10 ^ 14.
Proof.
  unfold formatEgld. cbv zeta.
  set (a := if amount <? 0 then - amount else amount).
  assert (Ea : a = Z.abs amount)
    by (unfold a; destruct (Z.ltb_spec amount 0); lia).
  assert (Ha : 0 <= a) by lia.
  rewrite <- Ea. clearbody a. clear Ea.
  change EGLD_DEC with 18. change (Z.to_nat 18) with 18%nat.
  assert (P18 : 10 ^ 18 = 10 ^ 4 * 10 ^ 14) by reflexivity.
  set (M := 10 ^ 14) in *. assert (HM : 0 < M) by (unfold M; lia).
  set (T := 10 ^ 4) in *. assert (HT : 0 < T) by (unfold T; lia).
  rewrite Z.quot_div_nonneg, Z.rem_mod_nonneg by lia.
  assert (Hq : 0 <= a / 10 ^ 18) by (apply Z.div_pos; lia).
  pose proof (Z.mod_pos_bound a (10 ^ 18) ltac:(lia)) as Hr.
  rewrite (BigInt_toString_nonneg (a mod 10 ^ 18)) by lia.
  destruct (padStart_decimal 17 (a mod 10 ^ 18)
              ltac:(change (10 ^ Z.of_nat 18) with (10 ^ 18); lia)) as [-> _].
  rewrite firstn_decDigits by lia.
  change (10 ^ Z.of_nat (18 - 4)) with M.
  set (f := a mod 10 ^ 18 / M).
  assert (Hf : 0 <= f < T).
  { unfold f. split; [apply Z.div_pos; lia|].
    apply Z.div_lt_upper_bound; lia. }
  destruct (decimal_numeral (a / 10 ^ 18) Hq) as (D & V & _ & _).
  assert (A : a / 10 ^ 18 * T + f = a / M).
  { unfold f. rewrite P18.
    rewrite (Z.mul_comm T M).
    rewrite (Z.rem_mul_r a M T) by lia.
    rewrite (Z.mul_comm M (a / M mod T)), Z.div_add by lia.
    rewrite (Z.div_small (a mod M) M) by (apply Z.mod_pos_bound; lia).
    rewrite <- Z.div_div by lia.
    pose proof (Z.div_mod (a / M) T ltac:(lia)). lia. }
  eexists _, (decDigits 4 f). split; [reflexivity|].
  split; [apply decDigits_length|]. split; [apply decDigits_digits|].
  rewrite decDigits_value. change (10 ^ Z.of_nat 4) with T.
  rewrite (Z.mod_small f T) by lia.
  destruct v.
  - destruct (bigThousands_short_value (a / 10 ^ 18) Hq) as [R1 R2].
    rewrite R1, R2. split; [reflexivity | exact A].
  - rewrite BigInt_toString_nonneg by exact Hq.
    rewrite removeCommas_digits by exact D. rewrite D, V.
    split; [reflexivity | exact A].
Qed.

(* ================================================================== *)
(** ** The request cache *)

Lemma postJsonCached_stores (D : Type) (now ttlMs : Z)
  (net : jsstring -> jsstring -> FetchCache.Reply D)
  (_cache : FetchCache.Cache D) (url bodyJson : jsstring) (d : D) :
  let o := FetchCache.postJsonCached now net _cache url bodyJson ttlMs in
  FetchCache.settled o = Ret d ->
  FetchCache.requests o <> [] ->
  Map_get jsstring_eq_dec (FetchCache.cacheKey url bodyJson)
    (FetchCache.cacheAfter o)
  = Some {| FetchCache.time := now; FetchCache.data := d |}.
Proof.
  cbv zeta. unfold FetchCache.postJsonCached.
  destruct (Map_get jsstring_eq_dec (FetchCache.cacheKey url bodyJson)
              _cache) as [hit|];
    [destruct (now - FetchCache.time hit <? ttlMs);
     [cbn [FetchCache.requests]; congruence|]|];
    (destruct (net url bodyJson) as [|st [x|]];
     [discriminate
     |destruct (statusOk st);
      cbn [negb FetchCache.settled FetchCache.cacheAfter];
      [intros [= ->] _; rewrite Map_get_set;
       destruct (jsstring_eq_dec (FetchCache.cacheKey url bodyJson)
                   (FetchCache.cacheKey url bodyJson));
       [reflexivity | congruence]
      |discriminate]
     |destruct (statusOk st); discriminate]).
Qed.

Lemma postJsonCached_fresh (D : Type) (now ttlMs : Z)
  (net : jsstring -> jsstring -> FetchCache.Reply D)
  (_cache : FetchCache.Cache D) (url bodyJson : jsstring)
  (hit : FetchCache.Entry D) :
  Map_get jsstring_eq_dec (FetchCache.cacheKey url bodyJson) _cache
  = Some hit ->
  now - FetchCache.time hit < ttlMs ->
  FetchCache.postJsonCached now net _cache url bodyJson ttlMs
  = {| FetchCache.settled := Ret (FetchCache.data hit);
       FetchCache.requests := [];
       FetchCache.cacheAfter := _cache |}.
Proof.
  intros E T. unfold FetchCache.postJsonCached. rewrite E.
  destruct (Z.ltb_spec (now - FetchCache.time hit) ttlMs); [reflexivity|lia].
Qed.

(** X21. A call that went to the network and returned data makes the
    same call, repeated less than [ttlMs] later by the clock, return the
    same data without a request and without a change to the cache,
    whatever the network would answer then. *)
Theorem postJsonCached_repeat_within_ttl (D : Type)
  (now1 now2 ttlMs : Z) (net1 net2 : jsstring -> jsstring -> FetchCache.Reply D)
  (_cache : FetchCache.Cache D) (url bodyJson : jsstring) (d : D) :
  let first := FetchCache.postJsonCached now1 net1 _cache url bodyJson ttlMs in
  let second := FetchCache.postJsonCached now2 net2
                  (FetchCache.cacheAfter first) url bodyJson ttlMs in
  FetchCache.settled first = Ret d ->
  FetchCache.requests first <> [] ->
  now2 - now1 < ttlMs ->
  FetchCache.settled second = Ret d
  /\ FetchCache.requests second = []
  /\ FetchCache.cacheAfter second = FetchCache.cacheAfter first.
Proof.
  cbv zeta. intros S R T.
  pose proof (postJsonCached_stores D now1 ttlMs net1 _cache url bodyJson d
                S R) as E.
  cbv zeta in E.
  rewrite (postJsonCached_fresh D now2 ttlMs net2 _ url bodyJson _ E)
    by (cbn [FetchCache.time]; exact T).
  repeat split.
Qed.

Lemma postJsonCached_repeat_within_ttl_witness :
  let first := FetchCache.postJsonCached 0
                 (fun _ _ => FetchCache.Response 200 (Some 7)) []
                 (lit "/api/events/_search") (lit "{}") 60000 in
  let second := FetchCache.postJsonCached 59999
                  (fun _ _ => FetchCache.NetworkError)
                  (FetchCache.cacheAfter first)
                  (lit "/api/events/_search") (lit "{}") 60000 in
  FetchCache.settled second = Ret 7
  /\ FetchCache.requests second = []
  /\ FetchCache.cacheAfter second = FetchCache.cacheAfter first.
Proof.
  apply (postJsonCached_repeat_within_ttl Z 0 59999 60000
           (fun _ _ => FetchCache.Response 200 (Some 7))
           (fun _ _ => FetchCache.NetworkError) []
           (lit "/api/events/_search") (lit "{}") 7);
    [reflexivity | discriminate | lia].
Defined.

(** X22. A failing call is never cached: when [postJsonCached] rejects,
    one request went out, the cache is as it was, and the network failed,
    answered with a status outside 200-299, or sent a body that does not
    parse. *)
Theorem postJsonCached_failure_not_cached (D : Type) (now ttlMs : Z)
  (net : jsstring -> jsstring -> FetchCache.Reply D)
  (_cache : FetchCache.Cache D) (url bodyJson : jsstring) :
  let o := FetchCache.postJsonCached now net _cache url bodyJson ttlMs in
  FetchCache.settled o = Throw ->
  FetchCache.cacheAfter o = _cache
  /\ FetchCache.requests o = [(url, bodyJson)]
  /\ (net url bodyJson = FetchCache.NetworkError
      \/ exists (st : Z) (json : option D),
           net url bodyJson = FetchCache.Response st json
           /\ (statusOk st = false \/ json = None)).
Proof.
  cbv zeta. unfold FetchCache.postJsonCached.
  destruct (Map_get jsstring_eq_dec (FetchCache.cacheKey url bodyJson)
              _cache) as [hit|];
    [destruct (now - FetchCache.time hit <? ttlMs); [discriminate|]|];
    (destruct (net url bodyJson) as [|st [x|]];
     [intros _; repeat split; left; reflexivity
     |destruct (statusOk st) eqn:O; cbn [negb]; [discriminate|];
      intros _; repeat split; right; exists st, (Some x); split;
      [reflexivity | left; exact O]
     |intros _; destruct (statusOk st) eqn:O; cbn [negb]; repeat split;
      right; exists st, None; split; try reflexivity; right; reflexivity]).
Qed.

Lemma postJsonCached_failure_not_cached_witness :
  let o := FetchCache.postJsonCached 5
             (fun _ _ => FetchCache.Response 502 (Some 1))
             [(FetchCache.cacheKey (lit "u") (lit "{}"),
               {| FetchCache.time := -60000; FetchCache.data := 3 |})]
             (lit "u") (lit "{}") 60000 in
  FetchCache.cacheAfter o
  = [(FetchCache.cacheKey (lit "u") (lit "{}"),
      {| FetchCache.time := -60000; FetchCache.data := 3 |})]
  /\ FetchCache.requests o = [(lit "u", lit "{}")].
Proof.
  destruct (postJsonCached_failure_not_cached Z 5 60000
              (fun _ _ => FetchCache.Response 502 (Some 1))
              [(FetchCache.cacheKey (lit "u") (lit "{}"),
                {| FetchCache.time := -60000; FetchCache.data := 3 |})]
              (lit "u") (lit "{}") eq_refl) as (A & B & _).
  split; [exact A | exact B].
Defined.

(** X23. A call reads and writes the entry of its own key only: every
    other entry, that of the same URL with another body included, is as
    it was; at most one request goes out, for the call's URL and body;
    and none goes out exactly when the cache holds an entry of the key
    younger than [ttlMs]. *)
Theorem postJsonCached_touches_own_key_only (D : Type) (now ttlMs : Z)
  (net : jsstring -> jsstring -> FetchCache.Reply D)
  (_cache : FetchCache.Cache D) (url bodyJson : jsstring) :
  let o := FetchCache.postJsonCached now net _cache url bodyJson ttlMs in
  (forall key : jsstring,
      key <> FetchCache.cacheKey url bodyJson ->
      Map_get jsstring_eq_dec key (FetchCache.cacheAfter o)
      = Map_get jsstring_eq_dec key _cache)
  /\ (forall otherJson : jsstring,
        otherJson <> bodyJson ->
        Map_get jsstring_eq_dec (FetchCache.cacheKey url otherJson)
          (FetchCache.cacheAfter o)
        = Map_get jsstring_eq_dec (FetchCache.cacheKey url otherJson) _cache)
  /\ (FetchCache.requests o = []
      \/ FetchCache.requests o = [(url, bodyJson)])
  /\ (FetchCache.requests o = [] <->
      exists hit : FetchCache.Entry D,
        Map_get jsstring_eq_dec (FetchCache.cacheKey url bodyJson) _cache
        = Some hit
        /\ now - FetchCache.time hit < ttlMs).
Proof.
  cbv zeta.
  assert (K : forall key : jsstring,
             key <> FetchCache.cacheKey url bodyJson ->
             Map_get jsstring_eq_dec key
               (FetchCache.cacheAfter
                  (FetchCache.postJsonCached now net _cache url bodyJson
                     ttlMs))
             = Map_get jsstring_eq_dec key _cache).
  { intros key N. unfold FetchCache.postJsonCached.
    destruct (Map_get jsstring_eq_dec (FetchCache.cacheKey url bodyJson)
                _cache) as [hit|];
      [destruct (now - FetchCache.time hit <? ttlMs); [reflexivity|]|];
      (destruct (net url bodyJson) as [|st [x|]];
       [reflexivity
       |destruct (statusOk st); cbn [negb FetchCache.cacheAfter];
        [rewrite Map_get_set;
         destruct (jsstring_eq_dec key (FetchCache.cacheKey url bodyJson));
         [contradiction | reflexivity]
        |reflexivity]
       |destruct (statusOk st); reflexivity]). }
  split; [exact K|]. split.
  - intros otherJson N. apply K. unfold FetchCache.cacheKey. intros E.
    apply app_inv_head in E. apply app_inv_head in E. contradiction.
  - unfold FetchCache.postJsonCached.
    destruct (Map_get jsstring_eq_dec (FetchCache.cacheKey url bodyJson)
                _cache) as [hit|].
    + destruct (Z.ltb_spec (now - FetchCache.time hit) ttlMs) as [L|G].
      * split; [left; reflexivity|]. split; [|reflexivity].
        intros _. exists hit. split; [reflexivity | exact L].
      * split.
        -- right. destruct (net url bodyJson) as [|st [x|]];
             [|destruct (statusOk st)|destruct (statusOk st)]; reflexivity.
        -- split.
           ++ destruct (net url bodyJson) as [|st [x|]];
                [|destruct (statusOk st)|destruct (statusOk st)];
                discriminate.
           ++ intros (h & [= <-] & L). lia.
    + split.
      * right. destruct (net url bodyJson) as [|st [x|]];
          [|destruct (statusOk st)|destruct (statusOk st)]; reflexivity.
      * split.
        -- destruct (net url bodyJson) as [|st [x|]];
             [|destruct (statusOk st)|destruct (statusOk st)];
             discriminate.
        -- intros (h & E & _). discriminate.
Qed.

Lemma postJsonCached_touches_own_key_only_witness :
  Map_get jsstring_eq_dec (FetchCache.cacheKey (lit "u") (lit "{size:2}"))
    (FetchCache.cacheAfter
       (FetchCache.postJsonCached 0
          (fun _ _ => FetchCache.Response 200 (Some 7)) []
          (lit "u") (lit "{size:1}") 60000))
  = Map_get jsstring_eq_dec (FetchCache.cacheKey (lit "u") (lit "{size:2}"))
      [].
Proof.
  destruct (postJsonCached_touches_own_key_only Z 0 60000
              (fun _ _ => FetchCache.Response 200 (Some 7)) []
              (lit "u") (lit "{size:1}")) as (_ & B & _).
  apply B. discriminate.
Defined.

(** A request that goes upstream: the answer is stored and passed on
    with status 200, or passed on with another status and not stored. *)
Lemma forward_cases (ES_URL : jsstring) (now : Z)
  (upstream : jsstring -> CacheServer.Upstream)
  (cache : CacheServer.Cache) (body0 : jsstring) :
  let o := CacheServer.forward ES_URL now upstream cache body0 in
  CacheServer.forwarded o = [body0]
  /\ CacheServer.xCache (CacheServer.reply o) <> Some (lit "HIT")
  /\ ((exists (text : jsstring) (st : Z),
         upstream body0 = CacheServer.Answer st text
         /\ statusOk st = true
         /\ o = {| CacheServer.reply :=
                     {| CacheServer.status := 200;
                        CacheServer.contentType :=
                          Some (lit "application/json");
                        CacheServer.xCache := Some (lit "MISS");
                        CacheServer.sent := text |};
                   CacheServer.forwarded := [body0];
                   CacheServer.cacheAfter :=
                     Map_set jsstring_eq_dec (ES_URL ++ lit "|" ++ body0)
                       {| CacheServer.time := now;
                          CacheServer.body := text |} cache |})
      \/ (CacheServer.status (CacheServer.reply o) <> 200
          /\ CacheServer.cacheAfter o = cache
          /\ forall (text : jsstring) (st : Z),
               upstream body0 = CacheServer.Answer st text ->
               CacheServer.reply o
               = {| CacheServer.status := st;
                    CacheServer.contentType := Some (lit "application/json");
                    CacheServer.xCache := Some (lit "MISS");
                    CacheServer.sent := text |})).
Proof.
  cbv zeta. unfold CacheServer.forward.
  destruct (upstream body0) as [|st text].
  - split; [reflexivity|]. split; [discriminate|]. right.
    split; [cbn; lia|]. split; [reflexivity | discriminate].
  - destruct (statusOk st) eqn:O; cbn [negb].
    + split; [reflexivity|]. split; [discriminate|]. left.
      exists text, st. split; [reflexivity|]. split; [exact O | reflexivity].
    + split; [reflexivity|]. split; [discriminate|]. right.
      split; [cbn; intros ->; discriminate|].
      split; [reflexivity|]. intros text' st' [= -> ->]. reflexivity.
Qed.

(** The three ways a request is answered: from the cache, from upstream
    with the answer stored, or without the cache being changed. *)
Lemma handler_cases (ES_URL : jsstring) (CACHE_TTL_MS now : Z)
  (upstream : jsstring -> CacheServer.Upstream)
  (cache : CacheServer.Cache) (req : CacheServer.Request) :
  let o := CacheServer.handler ES_URL CACHE_TTL_MS now upstream cache req in
  (exists (body0 : jsstring) (hit : CacheServer.Entry),
      CacheServer.raw req = Some body0
      /\ Map_get jsstring_eq_dec (ES_URL ++ lit "|" ++ body0) cache = Some hit
      /\ now - CacheServer.time hit < CACHE_TTL_MS
      /\ o = {| CacheServer.reply :=
                  {| CacheServer.status := 200;
                     CacheServer.contentType := Some (lit "application/json");
                     CacheServer.xCache := Some (lit "HIT");
                     CacheServer.sent := CacheServer.body hit |};
                CacheServer.forwarded := [];
                CacheServer.cacheAfter := cache |})
  \/ (exists (body0 text : jsstring) (st : Z),
        CacheServer.raw req = Some body0
        /\ upstream body0 = CacheServer.Answer st text
        /\ statusOk st = true
        /\ o = {| CacheServer.reply :=
                    {| CacheServer.status := 200;
                       CacheServer.contentType :=
                         Some (lit "application/json");
                       CacheServer.xCache := Some (lit "MISS");
                       CacheServer.sent := text |};
                  CacheServer.forwarded := [body0];
                  CacheServer.cacheAfter :=
                    Map_set jsstring_eq_dec (ES_URL ++ lit "|" ++ body0)
                      {| CacheServer.time := now;
                         CacheServer.body := text |} cache |})
  \/ (CacheServer.xCache (CacheServer.reply o) <> Some (lit "HIT")
      /\ CacheServer.status (CacheServer.reply o) <> 200
      /\ CacheServer.cacheAfter o = cache).
Proof.
  cbv zeta. unfold CacheServer.handler.
  destruct (streq (CacheServer.method req) (lit "OPTIONS"));
    [right; right; repeat split; cbn; [discriminate | lia]|].
  destruct (CacheServer.pathname req) as [path|];
    [|right; right; repeat split; cbn; [discriminate | lia]].
  destruct (streq (CacheServer.method req) (lit "POST")
            && streq path (lit "/api/events/_search"));
    [|right; right; repeat split; cbn; [discriminate | lia]].
  destruct (CacheServer.raw req) as [body0|];
    [|right; right; repeat split; cbn; [discriminate | lia]].
  assert (M : (exists (b text : jsstring) (st : Z),
                  Some body0 = Some b
                  /\ upstream b = CacheServer.Answer st text
                  /\ statusOk st = true
                  /\ CacheServer.forward ES_URL now upstream cache body0
                     = {| CacheServer.reply :=
                            {| CacheServer.status := 200;
                               CacheServer.contentType :=
                                 Some (lit "application/json");
                               CacheServer.xCache := Some (lit "MISS");
                               CacheServer.sent := text |};
                          CacheServer.forwarded := [b];
                          CacheServer.cacheAfter :=
                            Map_set jsstring_eq_dec (ES_URL ++ lit "|" ++ b)
                              {| CacheServer.time := now;
                                 CacheServer.body := text |} cache |})
              \/ (CacheServer.xCache
                    (CacheServer.reply
                       (CacheServer.forward ES_URL now upstream cache body0))
                  <> Some (lit "HIT")
                  /\ CacheServer.status
                       (CacheServer.reply
                          (CacheServer.forward ES_URL now upstream cache
                             body0)) <> 200
                  /\ CacheServer.cacheAfter
                       (CacheServer.forward ES_URL now upstream cache body0)
                     = cache)).
  { destruct (forward_cases ES_URL now upstream cache body0)
      as (_ & X & [(text & st & U & O & E)|(N & C & _)]).
    - left. exists body0, text, st. repeat split; assumption.
    - right. repeat split; assumption. }
  destruct (Map_get jsstring_eq_dec (ES_URL ++ lit "|" ++ body0) cache)
    as [hit|] eqn:G.
  - destruct (Z.ltb_spec (now - CacheServer.time hit) CACHE_TTL_MS) as [L|L].
    + left. exists body0, hit. repeat split; assumption.
    + right. exact M.
  - right. exact M.
Qed.

Lemma snoc_split {A : Type} (log l1 l2 : list A) (x y : A) :
  log ++ [x] = l1 ++ y :: l2 ->
  (l2 = [] /\ l1 = log /\ y = x)
  \/ exists l2', l2 = l2' ++ [x] /\ log = l1 ++ y :: l2'.
Proof.
  intros H. destruct l2 as [|z l2] using rev_ind.
  - left. apply app_inj_tail in H. destruct H as [-> ->]. repeat split.
  - right. exists l2. split.
    + rewrite app_comm_cons, app_assoc in H.
      apply app_inj_tail in H. destruct H as [_ ->]. reflexivity.
    + rewrite app_comm_cons, app_assoc in H.
      apply app_inj_tail in H. destruct H as [-> _]. reflexivity.
Qed.

Lemma stored_later (ES_URL : jsstring) (log : list (CacheServer.Arrival
                                                   * CacheServer.Reply))
  (x : CacheServer.Arrival * CacheServer.Reply) (key : jsstring)
  (e : CacheServer.Entry) :
  CacheServer.stored ES_URL log key e ->
  CacheServer.stored ES_URL (log ++ [x]) key e.
Proof.
  intros (a & r & b & I & H). exists a, r, b.
  split; [apply in_or_app; left; exact I | exact H].
Qed.

(** One more request keeps the log and the cache in step. *)
Lemma handler_keeps_log (ES_URL : jsstring) (CACHE_TTL_MS : Z)
  (log : list (CacheServer.Arrival * CacheServer.Reply))
  (cache : CacheServer.Cache) (a : CacheServer.Arrival) :
  let o := CacheServer.handler ES_URL CACHE_TTL_MS (CacheServer.at_time a)
             (CacheServer.at_upstream a) cache (CacheServer.at_request a) in
  (forall key e, Map_get jsstring_eq_dec key cache = Some e ->
                 CacheServer.stored ES_URL log key e) ->
  CacheServer.replaysRecentMiss CACHE_TTL_MS log ->
  (forall key e,
      Map_get jsstring_eq_dec key (CacheServer.cacheAfter o) = Some e ->
      CacheServer.stored ES_URL (log ++ [(a, CacheServer.reply o)]) key e)
  /\ CacheServer.replaysRecentMiss CACHE_TTL_MS
       (log ++ [(a, CacheServer.reply o)]).
Proof.
  cbv zeta. intros S R.
  pose proof (handler_cases ES_URL CACHE_TTL_MS (CacheServer.at_time a)
                (CacheServer.at_upstream a) cache
                (CacheServer.at_request a)) as C.
  cbv zeta in C.
  set (o := CacheServer.handler ES_URL CACHE_TTL_MS (CacheServer.at_time a)
              (CacheServer.at_upstream a) cache (CacheServer.at_request a))
    in *.
  split.
  - intros key e G.
    destruct C as [(b & hit & _ & _ & _ & Eo)
                  |[(b & text & st & Rb & _ & _ & Eo)|(_ & _ & Ec)]].
    + rewrite Eo in G. cbn [CacheServer.cacheAfter] in G.
      apply stored_later. apply S. exact G.
    + rewrite Eo in G |- *.
      cbn [CacheServer.cacheAfter CacheServer.reply] in G |- *.
      rewrite Map_get_set in G.
      destruct (jsstring_eq_dec key (ES_URL ++ lit "|" ++ b)) as [->|N].
      * injection G as <-. eexists a, _, b.
        split; [apply in_or_app; right; left; reflexivity|].
        cbn. repeat split. exact Rb.
      * apply stored_later. apply S. exact G.
    + rewrite Ec in G. apply stored_later. apply S. exact G.
  - intros l1 l2 a' r' E H.
    apply snoc_split in E.
    destruct E as [(-> & -> & [= -> ->])|(l2' & -> & ->)].
    + destruct C as [(b & hit & Rb & G & L & Eo)
                    |[(b & text & st & _ & _ & _ & Eo)|(N & _ & _)]].
      * destruct (S _ _ G) as (a0 & r0 & b0 & I & Rb0 & K & T & S2 & X & B).
        apply app_inv_head in K. apply app_inv_head in K. subst b0.
        exists a0, r0, b. rewrite Eo. cbn [CacheServer.reply
          CacheServer.status CacheServer.sent].
        repeat split; try assumption; [congruence | lia].
      * rewrite Eo in H. cbn in H. discriminate.
      * contradiction.
    + apply (R l1 l2' a' r' eq_refl H).
Qed.

Lemma serve_keeps_log (ES_URL : jsstring) (CACHE_TTL_MS : Z)
  (arrivals : list CacheServer.Arrival) :
  forall (log : list (CacheServer.Arrival * CacheServer.Reply))
         (cache : CacheServer.Cache),
    (forall key e, Map_get jsstring_eq_dec key cache = Some e ->
                   CacheServer.stored ES_URL log key e) ->
    CacheServer.replaysRecentMiss CACHE_TTL_MS log ->
    CacheServer.replaysRecentMiss CACHE_TTL_MS
      (fst (CacheServer.serve ES_URL CACHE_TTL_MS (log, cache) arrivals)).
Proof.
  induction arrivals as [|a rest IH]; intros log cache S R; [exact R|].
  unfold CacheServer.serve. cbn [fold_left fst snd].
  destruct (handler_keeps_log ES_URL CACHE_TTL_MS log cache a S R)
    as [S' R'].
  apply (IH _ _ S' R').
Qed.

(** X24. Whatever requests the server works through one after the
    other, starting with an empty cache, every reply marked [HIT] repeats
    the text of an earlier reply marked [MISS] with status [200], to a
    request with the same body, made less than [CACHE_TTL_MS] before by
    the server's clock. *)
Theorem serve_hits_replay_recent_misses (ES_URL : jsstring)
  (CACHE_TTL_MS : Z) (arrivals : list CacheServer.Arrival) :
  CacheServer.replaysRecentMiss CACHE_TTL_MS
    (fst (CacheServer.serve ES_URL CACHE_TTL_MS ([], []) arrivals)).
Proof.
  apply serve_keeps_log.
  - intros key e H. discriminate.
  - intros l1 l2 a r E. destruct l1; discriminate.
Qed.

(** X25. After a reply with status [200] marked [MISS], the same request
    made less than [CACHE_TTL_MS] later is answered [200], [HIT], with the
    same text, without a request upstream and without a change to the
    cache. *)
Theorem handler_repeat_within_ttl (ES_URL : jsstring) (CACHE_TTL_MS : Z)
  (now1 now2 : Z) (up1 up2 : jsstring -> CacheServer.Upstream)
  (cache : CacheServer.Cache) (req : CacheServer.Request) :
  let first := CacheServer.handler ES_URL CACHE_TTL_MS now1 up1 cache req in
  let second := CacheServer.handler ES_URL CACHE_TTL_MS now2 up2
                  (CacheServer.cacheAfter first) req in
  CacheServer.status (CacheServer.reply first) = 200 ->
  CacheServer.xCache (CacheServer.reply first) = Some (lit "MISS") ->
  now2 - now1 < CACHE_TTL_MS ->
  CacheServer.reply second
  = {| CacheServer.status := 200;
       CacheServer.contentType := Some (lit "application/json");
       CacheServer.xCache := Some (lit "HIT");
       CacheServer.sent := CacheServer.sent (CacheServer.reply first) |}
  /\ CacheServer.forwarded second = []
  /\ CacheServer.cacheAfter second = CacheServer.cacheAfter first.
Proof.
  cbv zeta. intros S X T.
  destruct (handler_cases ES_URL CACHE_TTL_MS now1 up1 cache req)
    as [(b & hit & _ & _ & _ & Eo)
       |[(b & text & st & Rb & _ & _ & Eo)|(_ & N & _)]];
    [rewrite Eo in X; cbn in X; discriminate | | contradiction].
  rewrite Eo. cbn [CacheServer.cacheAfter CacheServer.reply CacheServer.sent].
  set (cache1 := Map_set jsstring_eq_dec (ES_URL ++ lit "|" ++ b) _ cache).
  assert (G : Map_get jsstring_eq_dec (ES_URL ++ lit "|" ++ b) cache1
              = Some {| CacheServer.time := now1; CacheServer.body := text |}).
  { unfold cache1. rewrite Map_get_set.
    destruct (jsstring_eq_dec (ES_URL ++ lit "|" ++ b)
                (ES_URL ++ lit "|" ++ b)); [reflexivity | congruence]. }
  assert (Q : streq (CacheServer.method req) (lit "OPTIONS") = false
              /\ exists path,
                  CacheServer.pathname req = Some path
                  /\ streq (CacheServer.method req) (lit "POST")
                     && streq path (lit "/api/events/_search") = true).
  { revert X. unfold CacheServer.handler.
    destruct (streq (CacheServer.method req) (lit "OPTIONS"));
      [intros X; cbn in X; discriminate|].
    destruct (CacheServer.pathname req) as [path|];
      [|intros X; cbn in X; discriminate].
    destruct (streq (CacheServer.method req) (lit "POST")
              && streq path (lit "/api/events/_search")) eqn:Q3;
      [|intros X; cbn in X; discriminate].
    intros _. split; [reflexivity|]. exists path.
    split; [reflexivity | exact Q3]. }
  destruct Q as (Q1 & path & Q2 & Q3).
  unfold CacheServer.handler. rewrite Q1, Q2, Q3, Rb, G.
  cbn [CacheServer.time CacheServer.body].
  destruct (Z.ltb_spec (now2 - now1) CACHE_TTL_MS); [|lia].
  repeat split.
Qed.

Lemma handler_repeat_within_ttl_witness :
  let req := {| CacheServer.method := lit "POST";
                CacheServer.pathname := Some (lit "/api/events/_search");
                CacheServer.raw := Some (lit "{}") |} in
  let first := CacheServer.handler (lit "es") 60000 1000
                 (fun _ => CacheServer.Answer 200 (lit "[]")) [] req in
  let second := CacheServer.handler (lit "es") 60000 60999
                  (fun _ => CacheServer.Unreachable)
                  (CacheServer.cacheAfter first) req in
  CacheServer.reply second
  = {| CacheServer.status := 200;
       CacheServer.contentType := Some (lit "application/json");
       CacheServer.xCache := Some (lit "HIT");
       CacheServer.sent := CacheServer.sent (CacheServer.reply first) |}
  /\ CacheServer.forwarded second = []
  /\ CacheServer.cacheAfter second = CacheServer.cacheAfter first.
Proof.
  apply (handler_repeat_within_ttl (lit "es") 60000 1000 60999
           (fun _ => CacheServer.Answer 200 (lit "[]"))
           (fun _ => CacheServer.Unreachable) []
           {| CacheServer.method := lit "POST";
              CacheServer.pathname := Some (lit "/api/events/_search");
              CacheServer.raw := Some (lit "{}") |});
    [reflexivity | reflexivity | lia].
Defined.

(** X26. The server stores successful answers only: a reply with a
    status other than [200] leaves the cache as it was; at most one
    request goes upstream, with the body of the request, and never for a
    reply marked [HIT]; an upstream answer with a status outside 200-299
    is passed on with its status and text, marked [MISS]; and a request
    whose method is not [POST] reaches neither the upstream nor the
    cache. *)
Theorem handler_stores_successes_only (ES_URL : jsstring) (CACHE_TTL_MS : Z)
  (now : Z) (upstream : jsstring -> CacheServer.Upstream)
  (cache : CacheServer.Cache) (req : CacheServer.Request) :
  let o := CacheServer.handler ES_URL CACHE_TTL_MS now upstream cache req in
  (CacheServer.status (CacheServer.reply o) <> 200 ->
   CacheServer.cacheAfter o = cache)
  /\ (CacheServer.forwarded o = []
      \/ exists body0 : jsstring,
           CacheServer.raw req = Some body0
           /\ CacheServer.forwarded o = [body0]
           /\ CacheServer.xCache (CacheServer.reply o) <> Some (lit "HIT"))
  /\ (forall (body0 text : jsstring) (st : Z),
        CacheServer.forwarded o = [body0] ->
        upstream body0 = CacheServer.Answer st text ->
        statusOk st = false ->
        CacheServer.reply o
        = {| CacheServer.status := st;
             CacheServer.contentType := Some (lit "application/json");
             CacheServer.xCache := Some (lit "MISS");
             CacheServer.sent := text |}
        /\ CacheServer.cacheAfter o = cache)
  /\ (streq (CacheServer.method req) (lit "POST") = false ->
      CacheServer.forwarded o = [] /\ CacheServer.cacheAfter o = cache
      /\ CacheServer.xCache (CacheServer.reply o) = None).
Proof.
  cbv zeta. split; [|split; [|split]].
  - intros N.
    destruct (handler_cases ES_URL CACHE_TTL_MS now upstream cache req)
      as [(b & hit & _ & _ & _ & Eo)
         |[(b & text & st & _ & _ & _ & Eo)|(_ & _ & E)]];
      [rewrite Eo in N; cbn in N; lia
      |rewrite Eo in N; cbn in N; lia
      |exact E].
  - unfold CacheServer.handler.
    destruct (streq (CacheServer.method req) (lit "OPTIONS"));
      [left; reflexivity|].
    destruct (CacheServer.pathname req) as [path|]; [|left; reflexivity].
    destruct (streq (CacheServer.method req) (lit "POST")
              && streq path (lit "/api/events/_search"));
      [|left; reflexivity].
    destruct (CacheServer.raw req) as [b|]; [|left; reflexivity].
    destruct (forward_cases ES_URL now upstream cache b) as (F & X & _).
    destruct (Map_get jsstring_eq_dec (ES_URL ++ lit "|" ++ b) cache)
      as [hit|];
      [destruct (now - CacheServer.time hit <? CACHE_TTL_MS);
       [left; reflexivity|]|];
      right; exists b; repeat split; assumption.
  - intros body0 text st. unfold CacheServer.handler.
    destruct (streq (CacheServer.method req) (lit "OPTIONS"));
      [discriminate|].
    destruct (CacheServer.pathname req) as [path|]; [|discriminate].
    destruct (streq (CacheServer.method req) (lit "POST")
              && streq path (lit "/api/events/_search")); [|discriminate].
    destruct (CacheServer.raw req) as [b|]; [|discriminate].
    assert (M : CacheServer.forwarded
                  (CacheServer.forward ES_URL now upstream cache b)
                = [body0] ->
                upstream body0 = CacheServer.Answer st text ->
                statusOk st = false ->
                CacheServer.reply
                  (CacheServer.forward ES_URL now upstream cache b)
                = {| CacheServer.status := st;
                     CacheServer.contentType := Some (lit "application/json");
                     CacheServer.xCache := Some (lit "MISS");
                     CacheServer.sent := text |}
                /\ CacheServer.cacheAfter
                     (CacheServer.forward ES_URL now upstream cache b)
                   = cache).
    { destruct (forward_cases ES_URL now upstream cache b)
        as (F & _ & [(text' & st' & U' & O' & _)|(_ & C & P)]);
        rewrite F; intros [= ->] U O.
      - rewrite U in U'. injection U' as -> ->. congruence.
      - split; [apply P; exact U | exact C]. }
    destruct (Map_get jsstring_eq_dec (ES_URL ++ lit "|" ++ b) cache)
      as [hit|];
      [destruct (now - CacheServer.time hit <? CACHE_TTL_MS);
       [discriminate|]|];
      exact M.
  - intros P. unfold CacheServer.handler.
    destruct (streq (CacheServer.method req) (lit "OPTIONS"));
      [repeat split|].
    destruct (CacheServer.pathname req) as [path|]; [|repeat split].
    rewrite P. cbn [andb]. repeat split.
Qed.

Lemma handler_stores_successes_only_witness :
  let o := CacheServer.handler (lit "es") 60000 0
             (fun _ => CacheServer.Answer 503 (lit "busy")) []
             {| CacheServer.method := lit "POST";
                CacheServer.pathname := Some (lit "/api/events/_search");
                CacheServer.raw := Some (lit "{}") |} in
  CacheServer.cacheAfter o = []
  /\ CacheServer.reply o
     = {| CacheServer.status := 503;
          CacheServer.contentType := Some (lit "application/json");
          CacheServer.xCache := Some (lit "MISS");
          CacheServer.sent := lit "busy" |}.
Proof.
  destruct (handler_stores_successes_only (lit "es") 60000 0
              (fun _ => CacheServer.Answer 503 (lit "busy")) []
              {| CacheServer.method := lit "POST";
                 CacheServer.pathname := Some (lit "/api/events/_search");
                 CacheServer.raw := Some (lit "{}") |})
    as (A & _ & C & _).
  split.
  - apply A. cbn. lia.
  - apply (C (lit "{}") (lit "busy") 503); reflexivity.
Defined.

Lemma serve_hits_replay_recent_misses_witness :
  let req := {| CacheServer.method := lit "POST";
                CacheServer.pathname := Some (lit "/api/events/_search");
                CacheServer.raw := Some (lit "{}") |} in
  let a1 := {| CacheServer.at_time := 1000;
               CacheServer.at_upstream :=
                 fun _ => CacheServer.Answer 200 (lit "[]");
               CacheServer.at_request := req |} in
  let a2 := {| CacheServer.at_time := 2000;
               CacheServer.at_upstream := fun _ => CacheServer.Unreachable;
               CacheServer.at_request := req |} in
  exists (a0 : CacheServer.Arrival) (r0 : CacheServer.Reply),
    In (a0, r0)
      [(a1, CacheServer.reply
              (CacheServer.handler (lit "es") 60000 1000
                 (CacheServer.at_upstream a1) [] req))]
    /\ CacheServer.sent r0 = lit "[]"
    /\ CacheServer.at_time a2 - CacheServer.at_time a0 < 60000.
Proof.
  cbv zeta.
  destruct (serve_hits_replay_recent_misses (lit "es") 60000
              [ {| CacheServer.at_time := 1000;
                   CacheServer.at_upstream :=
                     fun _ => CacheServer.Answer 200 (lit "[]");
                   CacheServer.at_request :=
                     {| CacheServer.method := lit "POST";
                        CacheServer.pathname :=
                          Some (lit "/api/events/_search");
                        CacheServer.raw := Some (lit "{}") |} |};
                {| CacheServer.at_time := 2000;
                   CacheServer.at_upstream :=
                     fun _ => CacheServer.Unreachable;
                   CacheServer.at_request :=
                     {| CacheServer.method := lit "POST";
                        CacheServer.pathname :=
                          Some (lit "/api/events/_search");
                        CacheServer.raw := Some (lit "{}") |} |} ]
              _ [] _ _ eq_refl eq_refl)
    as (a0 & r0 & b0 & I & _ & _ & _ & _ & _ & S & T).
  exists a0, r0. split; [exact I|]. split; [symmetry; exact S | exact T].
Defined.

End Properties.

(* ================================================================== *)
(** * Examples *)

(** The properties above hold on every engine; the examples are run on
    the sample engine. *)
#[local] Existing Instance sampleEngine.

(** ** The option decoder *)

Lemma decodeOption_case_insensitive_table_witness :
  Forall (fun c => 0 < c < 256) (lit "NCV")
  /\ Z.of_nat (List.length (lit "NCV")) <= argumentsLimit
  /\ decodeOption (Some (hexOf (lit "NCV"))) = Veto
  /\ decodeOption (Some (hexOf (lit "veto_power"))) = Veto
  /\ decodeOption (Some (hexOf (lit "Veto"))) = Veto
  /\ decodeOption (Some (hexOf (lit "YES"))) = Yes.
Proof.
  assert (F : forall s : string,
             forallb (fun c => (0 <? c) && (c <? 256)) (lit s) = true ->
             Forall (fun c => 0 < c < 256) (lit s)).
  { intros s H. apply Forall_forall. intros c Hc.
    rewrite forallb_forall in H. specialize (H c Hc).
    apply andb_true_iff in H. destruct H as [H1 H2].
    apply Z.ltb_lt in H1. apply Z.ltb_lt in H2. lia. }
  assert (L : forall s : string,
             (Z.of_nat (List.length (lit s)) <=? 65535) = true ->
             Z.of_nat (List.length (lit s)) <= argumentsLimit).
  { intros s H. apply Z.leb_le in H. exact H. }
  split; [exact (F "NCV"%string eq_refl)|].
  split; [exact (L "NCV"%string eq_refl)|].
  split;
    [apply (decodeOption_case_insensitive_table None (lit "NCV")
              (F "NCV"%string eq_refl) (L "NCV"%string eq_refl));
     right; left; reflexivity|].
  split;
    [apply (decodeOption_case_insensitive_table None (lit "veto_power")
              (F "veto_power"%string eq_refl)
              (L "veto_power"%string eq_refl));
     right; right; reflexivity|].
  split;
    [apply (decodeOption_case_insensitive_table None (lit "Veto")
              (F "Veto"%string eq_refl) (L "Veto"%string eq_refl));
     left; reflexivity|].
  apply (decodeOption_case_insensitive_table None (lit "YES")
           (F "YES"%string eq_refl) (L "YES"%string eq_refl)).
  reflexivity.
Defined.

(** C6 as it was stated fails: an input with a chunk that is no
    hexadecimal number is not always Unknown.  The last chunk of
    ["796573zz"] decodes to NUL, which is dropped, so the text is ["yes"]
    and the input is Yes; in the same way ["6e6fzzzz"] and ["6E4FZZ"] are
    No. *)
Lemma decodeOption_malformed_hex_is_yes :
  hexBytes (lit "796573zz") = [Int 121; Int 101; Int 115; NaN]
  /\ hexToAscii (Some (lit "796573zz")) = lit "yes"
  /\ decodeOption (Some (lit "796573zz")) = Yes
  /\ decodeOption (Some (lit "6e6fzzzz")) = No
  /\ decodeOption (Some (lit "6E4FZZ")) = No.
Proof.
  vm_compute. repeat split; reflexivity.
Qed.

(** ** The hex utilities *)

Lemma hexToAscii_strips_padding_witness :
  hexToAscii (Some (hexOf (lit "yes" ++ repeat 0 5))) = lit "yes"
  /\ decodeOption (Some (hexOf (lit "yes" ++ repeat 0 5)))
     = decodeOption (Some (hexOf (lit "yes")))
  /\ hexToAscii (engine := {| argumentsLimit := 7 |})
       (Some (hexOf (lit "yes" ++ repeat 0 5))) = []
  /\ decodeOption (engine := {| argumentsLimit := 7 |})
       (Some (hexOf (lit "yes" ++ repeat 0 5))) = Unknown.
Proof.
  assert (F : Forall (fun c => 0 < c < 256) (lit "yes"))
    by (repeat constructor; cbn; lia).
  assert (LA : Z.of_nat (List.length (lit "yes") + 5) <= 65535)
    by (cbn; lia).
  assert (LB : 7 < Z.of_nat (List.length (lit "yes") + 5)) by (cbn; lia).
  destruct (hexToAscii_strips_padding (lit "yes") 5 F) as [A _].
  destruct (hexToAscii_strips_padding (engine := {| argumentsLimit := 7 |})
              (lit "yes") 5 F) as [_ B].
  destruct (A LA) as [A1 A2].
  destruct (B LB) as [B1 B2].
  repeat split; assumption.
Defined.

Lemma hexToAscii_removes_trailing_nul_only_witness :
  (exists k : nat,
      fromCharCode (hexBytes (lit "79657300"))
      = hexToAscii (Some (lit "79657300")) ++ repeat 0 k)
  /\ hexToAscii (engine := {| argumentsLimit := 3 |})
       (Some (lit "79657300")) = [].
Proof.
  assert (LA : Z.of_nat (List.length (hexBytes (lit "79657300"))) <= 65535)
    by (vm_compute; intros E; discriminate E).
  assert (LB : 3 < Z.of_nat (List.length (hexBytes (lit "79657300"))))
    by (vm_compute; reflexivity).
  destruct (hexToAscii_removes_trailing_nul_only (lit "79657300"))
    as (A & _ & _).
  destruct (hexToAscii_removes_trailing_nul_only
              (engine := {| argumentsLimit := 3 |}) (lit "79657300"))
    as (_ & B & _).
  split; [exact (A LA) | exact (B LB)].
Defined.

(** ** The sample batch *)

Lemma stats_voter_power_closure_witness :
  Forall (fun s => trackedKind PerAddress (identifier s) = true) sampleBatch
  /\ exists st : Stats,
      stats PerAddress sampleBatch = Ret st
      /\ forall o : VoteOption,
          sumPower (getOpt o (perCategoryAddresses st))
          = agg_power (getOpt o (byOption st)).
Proof.
  assert (F : Forall (fun s => trackedKind PerAddress (identifier s) = true)
                sampleBatch) by (repeat constructor).
  split; [exact F|].
  destruct (stats_voter_power_closure PerAddress sampleBatch)
    as (st & H1 & _ & H2 & _).
  exists st. split; [exact H1 | exact (H2 F)].
Defined.

(** The design's end-to-end scenario, run through the loop. *)
Example stats_sampleBatch :
  exists st : Stats,
    stats PerAddress sampleBatch = Ret st
    /\ agg_count (yes (byOption st)) = 1
    /\ agg_power (yes (byOption st)) = 2000
    /\ agg_count (no (byOption st)) = 1
    /\ agg_power (no (byOption st)) = 700
    /\ agg_count (unknown (byOption st)) = 1
    /\ agg_power (unknown (byOption st)) = 1
    /\ totalPower st = 2701
    /\ delegationBreakdown st = [(Named (lit "Legacy Delegation"), 700)].
Proof.
  eexists. split; [vm_compute; reflexivity|]. repeat split.
Qed.

Lemma stats_order_independent_witness :
  Permutation sampleBatch (rev sampleBatch)
  /\ exists st st' : Stats,
      stats PerAddress sampleBatch = Ret st
      /\ stats PerAddress (rev sampleBatch) = Ret st'
      /\ byOption st = byOption st'
      /\ totalPower st = totalPower st'.
Proof.
  split; [apply Permutation_rev|].
  destruct (stats_order_independent PerAddress sampleBatch (rev sampleBatch)
              (Permutation_rev sampleBatch))
    as (st & st' & H1 & H2 & H3 & H4 & _).
  exists st, st'. repeat split; assumption.
Defined.

Lemma stats_voter_count_closure_witness :
  Forall (fun s => trackedKind TotalsOnly (identifier s) = true) [] /\
  PerAddress = PerAddress /\
  exists st : Stats,
    stats PerAddress sampleBatch = Ret st
    /\ forall o : VoteOption,
         sumCount (getOpt o (perCategoryAddresses st))
         = agg_count (getOpt o (byOption st)).
Proof.
  split; [constructor|]. split; [reflexivity|].
  destruct (stats_voter_count_closure PerAddress sampleBatch)
    as (st & E & _ & _ & H).
  exists st. split; [exact E|]. exact (H eq_refl).
Defined.

Lemma stats_delegation_counts_witness :
  exists st : Stats,
    stats PerAddress sampleBatch = Ret st
    /\ forall l : Label,
         Map_get Label_eq_dec l (delegationCountBreakdown st) = None
         <-> Map_get Label_eq_dec l (delegationBreakdown st) = None.
Proof.
  destruct (stats_delegation_counts PerAddress sampleBatch)
    as (st & E & _ & H).
  exists st. split; [exact E|]. intros l. apply (H eq_refl l).
Defined.

Lemma stats_delegation_labels_known_witness :
  Forall (fun s => plainSource s = true) sampleBatch /\
  exists st : Stats,
    stats PerAddress sampleBatch = Ret st
    /\ (List.length (delegationBreakdown st) <= 4)%nat.
Proof.
  assert (F : Forall (fun s => plainSource s = true) sampleBatch)
    by (repeat constructor).
  split; [exact F|].
  destruct (stats_delegation_labels_known PerAddress sampleBatch F)
    as (st & E & _ & L).
  exists st. split; assumption.
Defined.
